(** * GPT (Grid Python Toolkit): the FGCR inverter and the coarse-link builder

    A shallow embedding of
      - [lib/gpt/algorithms/inverter/fgcr.py]  (module [fgcr] below), and
      - [lib/gpt/core/coarse/__init__.py]      (module [coarse] below),
    together with the properties their specification states about them.

    Python exceptions are values of [exn]; a call that can raise returns a
    [result].  Lattice fields, the fermion matrix, inner products, shifts and
    the projection kernels live outside these two files: they are the
    operations of the classes [Arith], [Lattice] and [Block], and every
    theorem holds for all their implementations.  Concrete toy instances over
    the Gaussian integers are used to run the code on small inputs. *)

From Stdlib Require Import ZArith List Bool Lia FunctionalExtensionality.
From stdpp Require Import base option list.

(** ** Exceptions and results *)

(** The [assert] statements of the two files, one tag per statement. *)
Inductive assertion :=
  | assert_source_or_guess   (* fgcr.py:   assert r2 != 0.0 *)
  | assert_precondition      (* coarse.py: assert not (hermitian and not savelinks) *)
  | assert_list              (* coarse.py: assert type(A) == list *)
  | assert_link_count        (* coarse.py: assert len(A) == 2 * len(dirdisps_forward) + 1 *)
  | assert_even_basis.       (* coarse.py: assert nbasis % 2 == 0 *)

Inductive exn :=
  | AssertionError (a : assertion)
  | IndexError
  | ValueError
  | ZeroDivisionError
  | TypeError.

Inductive result (A : Type) :=
  | Ok (a : A)
  | Raise (e : exn).
Arguments Ok {A} a.
Arguments Raise {A} e.

#[global] Instance result_ret : MRet result := λ A a, Ok a.
#[global] Instance result_bind : MBind result :=
  λ A B f m, match m with Ok a => f a | Raise e => Raise e end.

(** [for x in xs: s = body(s, x)] with exceptions leaving the loop. *)
Fixpoint for_each {S X : Type} (body : S → X → result S) (xs : list X) (s : S)
  : result S :=
  match xs with
  | [] => Ok s
  | x :: xs' => s' ← body s x; for_each body xs' s'
  end.

(** [l[j]] and [l[j] = x] on a Python list or a one-dimensional numpy array:
    out of range raises [IndexError]. *)
Definition getitem {A : Type} (l : list A) (j : nat) : result A :=
  match l !! j with
  | Some x => Ok x
  | None => Raise IndexError
  end.

Definition setitem {A : Type} (l : list A) (j : nat) (x : A) : result (list A) :=
  if decide (j < length l) then Ok (<[j:=x]> l) else Raise IndexError.

(** [l[lo:hi]]: a slice is clipped to the array, it never raises. *)
Definition slice {A : Type} (l : list A) (lo hi : nat) : list A :=
  take (hi - lo) (drop lo l).

(** ** Scalars *)

(** Python floats ([real]) and numpy complex numbers ([cplx]) with the
    operations the two files apply to them. *)
Class Arith := {
  real : Type;
  cplx : Type;
  r_zero : real;                      (* 0.0 *)
  r_eqb : real → real → bool;         (* x == y *)
  r_leb : real → real → bool;         (* x <= y *)
  r_mul : real → real → real;
  r_div : real → real → real;
  r_pow2 : real → real;               (* x ** 2.0 *)
  r_sqrt : real → real;               (* x ** 0.5 *)
  c_zero : cplx;
  c_m1 : cplx;                        (* -1.0 *)
  c_add : cplx → cplx → cplx;
  c_sub : cplx → cplx → cplx;
  c_mul : cplx → cplx → cplx;
  c_neg : cplx → cplx;
  c_div_r : cplx → real → cplx;       (* complex / real *)
  np_empty_r : real;                  (* what np.empty leaves in a real cell *)
  np_empty_c : cplx;                  (* what np.empty leaves in a complex cell *)
}.

(** [np.dot(a, b)] of two one-dimensional arrays: the sum of the products,
    without conjugation; arrays of different lengths raise [ValueError]. *)
Definition np_dot `{Arith} (a b : list cplx) : result cplx :=
  if decide (length a = length b)
  then Ok (foldl (λ acc xy, c_add acc (c_mul xy.1 xy.2)) c_zero (zip a b))
  else Raise ValueError.

(** ** Lattice fields as the solver uses them *)

Class Lattice `{Arith} (F : Type) := {
  lattice : F → F;                    (* g.lattice(src): a new field on src's grid *)
  set_zero : F → F;                   (* v[:] = 0 *)
  norm2 : F → real;                   (* g.norm2 *)
  inner_product : F → F → cplx;       (* g.innerProduct *)
  axpy : cplx → F → F → F;            (* a * x + y *)
  f_add : F → F → F;
  f_scale : cplx → F → F;
  f_div_r : F → real → F;             (* v /= gamma *)
  (* g.orthogonalize(w, basis, ip): the new w and the new contents of ip *)
  orthogonalize : F → list F → list cplx → F * list cplx;
}.

Module fgcr.
Section solver.
Context `{Ar : Arith} {F : Type} `{!Lattice F}.

(** The solver object ([self]) after [__init__]. [prec], when present, is a
    factory: [self.prec(mat)(dst, src)] overwrites [dst], which it may also
    read (as a starting guess). *)
Record fgcr := {
  eps : real;
  maxiter : nat;
  restartlen : nat;
  checkres : bool;
  prec : option ((F → F) → F → F → F);
}.

(** Everything [inv] mutates: the caller's [psi], the fields and tensors it
    allocates, and [self.history].  [inv] allocates [r], [mmpsi], every [p[j]]
    and every [mmp[j]] as separate objects, so they are separate components. *)
Record state := {
  psi : F;
  r : F;
  mmpsi : F;
  p : list F;
  mmp : list F;
  alpha : list cplx;
  beta : list (list cplx);            (* beta[j, l] is row j, column l *)
  gamma : list real;
  delta : list cplx;
  history : list real;                (* self.history *)
}.

Definition with_psi (st : state) (x : F) : state :=
  {| psi := x; r := r st; mmpsi := mmpsi st; p := p st; mmp := mmp st;
     alpha := alpha st; beta := beta st; gamma := gamma st; delta := delta st;
     history := history st |}.
Definition with_delta (st : state) (x : list cplx) : state :=
  {| psi := psi st; r := r st; mmpsi := mmpsi st; p := p st; mmp := mmp st;
     alpha := alpha st; beta := beta st; gamma := gamma st; delta := x;
     history := history st |}.

(** *** update_psi *)

(** One pass of the backward-substitution loop:
    [delta[j] = (alpha[j] - np.dot(beta[j, j+1:i+1], delta[j+1:i+1])) / gamma[j]] *)
Definition substitute (i : nat) (st : state) (j : nat) : result state :=
  a ← getitem (alpha st) j;
  row ← getitem (beta st) j;
  d ← np_dot (slice row (j + 1) (i + 1)) (slice (delta st) (j + 1) (i + 1));
  g ← getitem (gamma st) j;
  delta' ← setitem (delta st) j (c_div_r (c_sub a d) g);
  Ok (with_delta st delta').

(** One pass of the accumulation loop: [psi += delta[j] * p[j]] *)
Definition accumulate (st : state) (j : nat) : result state :=
  d ← getitem (delta st) j;
  v ← getitem (p st) j;
  Ok (with_psi st (f_add (psi st) (f_scale d v))).

Definition update_psi (st : state) (i : nat) : result state :=
  st1 ← for_each (substitute i) (rev (seq 0 (i + 1))) st;
  for_each accumulate (seq 0 (i + 1)) st1.

(** *** restart and calc_res *)

Section call.
(** [self], the matrix handed to [__call__] (unwrapped), and the verbosity
    flag [g.default.is_verbose("fgcr")]. *)
Variable self : fgcr.
Variable mat : F → F.
Variable verbose : bool.

(** [mat(mmpsi, psi); return g.axpy_norm2(r, -1.0, mmpsi, src)] *)
Definition calc_res (st : state) (src : F) : state * real :=
  let mmpsi' := mat (psi st) in
  let r' := axpy c_m1 mmpsi' src in
  ({| psi := psi st; r := r'; mmpsi := mmpsi'; p := p st; mmp := mmp st;
      alpha := alpha st; beta := beta st; gamma := gamma st; delta := delta st;
      history := history st |}, norm2 r').

Definition zero_directions (st : state) : state :=
  {| psi := psi st; r := r st; mmpsi := mmpsi st; p := set_zero <$> p st;
     mmp := mmp st; alpha := alpha st; beta := beta st; gamma := gamma st;
     delta := delta st; history := history st |}.

Definition restart (st : state) (src : F) : state * real :=
  match prec self with
  | Some _ => calc_res (zero_directions st) src
  | None => calc_res st src
  end.

(** *** inv: set-up *)

Definition rlen : nat := restartlen self.

(** The fields and tensors [inv] allocates, with [self.history = []]. *)
Definition allocate (psi0 src : F) : state :=
  {| psi := psi0; r := src; mmpsi := src;
     p := replicate rlen (lattice src);
     mmp := replicate rlen (lattice src);
     alpha := replicate rlen np_empty_c;
     beta := replicate rlen (replicate rlen np_empty_c);
     gamma := replicate rlen np_empty_r;
     delta := replicate rlen np_empty_c;
     history := [] |}.

(** The source norm [ssq] the residual is compared with, and the target [rsq]. *)
Record target := { ssq : real; rsq : real }.

Definition setup (psi0 src : F) : result (state * target) :=
  let '(st, r2) := restart (allocate psi0 src) src in
  let ssq0 := norm2 src in
  ssq1 ← (if r_eqb ssq0 r_zero
          then (if negb (r_eqb r2 r_zero) then Ok r2
                else Raise (AssertionError assert_source_or_guess))
          else Ok ssq0);
  Ok (st, {| ssq := ssq1; rsq := r_mul (r_pow2 (eps self)) ssq1 |}).

(** *** inv: one pass of the loop *)

Inductive stop :=
  | Converged            (* r2 <= rsq *)
  | NotConverged         (* reached_maxiter *)
  | Breakdown            (* gamma[i] == 0 *)
  | RangeExhausted.      (* range(maxiter) ran out: only for maxiter = 0 *)

Inductive step :=
  | Continue (st : state)
  | Break (why : stop) (st : state).

(** [beta[:, i]]: column [i] of the two-dimensional array. *)
Fixpoint get_column (b : list (list cplx)) (i : nat) : result (list cplx) :=
  match b with
  | [] => Ok []
  | row :: b' => c ← getitem row i; col ← get_column b' i; Ok (c :: col)
  end.

(** Writing through the view [beta[:, i]]. *)
Definition set_column (b : list (list cplx)) (i : nat) (col : list cplx)
  : list (list cplx) :=
  imap (λ j row, match col !! j with Some c => <[i:=c]> row | None => row end) b.

(** From [t("prec")] to [gamma[i] = mmp2 ** 0.5]; returns [ip] as well. *)
Definition krylov_step (i : nat) (st : state) : result (state * cplx) :=
  p_i ← getitem (p st) i;
  let p_i' := match prec self with
              | Some P => P mat p_i (r st)        (* self.prec(mat)(p[i], r) *)
              | None => r st                       (* p[i] @= r *)
              end in
  _ ← getitem (mmp st) i;
  let w := mat p_i' in                             (* mat(mmp[i], p[i]) *)
  col ← get_column (beta st) i;
  let '(w', col') := orthogonalize w (take i (mmp st)) col in
  let ip := inner_product w' (r st) in             (* g.innerProductNorm2(mmp[i], r) *)
  let mmp2 := norm2 w' in
  gamma' ← setitem (gamma st) i (r_sqrt mmp2);
  Ok ({| psi := psi st; r := r st; mmpsi := mmpsi st;
         p := <[i:=p_i']> (p st); mmp := <[i:=w']> (mmp st);
         alpha := alpha st; beta := set_column (beta st) i col';
         gamma := gamma'; delta := delta st; history := history st |}, ip).

(** From [mmp[i] /= gamma[i]] to [self.history.append(r2)]; returns [r2]. *)
Definition residual_step (i : nat) (g : real) (ip : cplx) (st : state)
  : result (state * real) :=
  w ← getitem (mmp st) i;
  let w' := f_div_r w g in
  alpha' ← setitem (alpha st) i (c_div_r ip g);
  a ← getitem alpha' i;
  let r' := axpy (c_neg a) w' (r st) in            (* g.axpy_norm2(r, -alpha[i], mmp[i], r) *)
  let r2 := norm2 r' in
  Ok ({| psi := psi st; r := r'; mmpsi := mmpsi st; p := p st;
         mmp := <[i:=w']> (mmp st); alpha := alpha'; beta := beta st;
         gamma := gamma st; delta := delta st;
         history := history st ++ [r2] |}, r2).

(** The report printed on leaving the loop: it recomputes the true residual,
    overwriting [mmpsi] and [r], when [verbose] and [checkres] are both set. *)
Definition report (st : state) (src : F) : state :=
  if verbose && checkres self then (calc_res st src).1 else st.

Definition iteration (tg : target) (src : F) (k : nat) (st : state) : result step :=
  if decide (rlen = 0) then Raise ZeroDivisionError else     (* i = k % rlen *)
  let i := k mod rlen in
  let reached_maxiter := bool_decide (k + 1 = maxiter self) in
  let need_restart := bool_decide (i + 1 = rlen) in
  '(st1, ip) ← krylov_step i st;
  g ← getitem (gamma st1) i;
  if r_eqb g r_zero then Ok (Break Breakdown st1) else
  '(st2, r2) ← residual_step i g ip st1;
  if r_leb r2 (rsq tg) || need_restart || reached_maxiter then
    st3 ← update_psi st2 i;
    (* comp_res = r2 / ssq, a division of Python floats *)
    if r_eqb (ssq tg) r_zero then Raise ZeroDivisionError else
    if r_leb r2 (rsq tg) then Ok (Break Converged (report st3 src))
    else if reached_maxiter then Ok (Break NotConverged (report st3 src))
    else if need_restart then Ok (Continue (restart st3 src).1)
    else Ok (Continue st3)
  else Ok (Continue st2).

(** [for k in range(self.maxiter)], entered at [k] with [n] values left. *)
Fixpoint iterate (tg : target) (src : F) (n k : nat) (st : state)
  : result (stop * state) :=
  match n with
  | 0 => Ok (RangeExhausted, st)
  | S n' =>
      s ← iteration tg src k st;
      match s with
      | Continue st' => iterate tg src n' (S k) st'
      | Break why st' => Ok (why, st')
      end
  end.

Definition inv (psi0 src : F) : result (stop * state) :=
  '(st0, tg) ← setup psi0 src;
  iterate tg src (maxiter self) 0 st0.

(** The state in which pass [k] of the loop starts, when the loop gets there. *)
Fixpoint state_at (tg : target) (src : F) (st0 : state) (k : nat) : option state :=
  match k with
  | 0 => Some st0
  | S k' =>
      match state_at tg src st0 k' with
      | Some st =>
          match iteration tg src k' st with
          | Ok (Continue st') => Some st'
          | _ => None
          end
      | None => None
      end
  end.

(** [gamma[i] == 0.0] is evaluated, and holds, in pass [k] entered in [st]. *)
Definition breaks_down (k : nat) (st : state) : Prop :=
  rlen ≠ 0
  ∧ ∃ st1 ip g, krylov_step (k mod rlen) st = Ok (st1, ip)
                ∧ gamma st1 !! (k mod rlen) = Some g
                ∧ r_eqb g r_zero = true.

End call.
End solver.
End fgcr.

(** ** Coarse links and the operations gpt supplies for them *)

(** A grid: its local extents, one per dimension ([grid.nd] is their number). *)
Record grid := { ldimensions : list Z }.
Definition nd (g : grid) : nat := length (ldimensions g).

(** A coarse-grid link field: an [N × N] complex matrix at every coarse site,
    [entry l x a b] being [l[x, a, b]] (row [a], column [b]);
    [shape0] is [otype.shape[0]]. *)
Record link `{Arith} (csite : Type) := {
  link_grid : grid;
  shape0 : nat;
  entry : csite → nat → nat → cplx;
}.
Arguments link_grid {_ _} l.
Arguments shape0 {_ _} l.
Arguments entry {_ _} l x a b.

(** What [create_links] and [comm_links] call but do not define. *)
Class Block `{Arith} := {
  ffield : Type;                       (* a fine-grid vector field *)
  mask : Type;                         (* a fine-grid complex field used as a mask *)
  csite : Type;                        (* the sites of the coarse grid *)
  lut : Type;                          (* gpt.lookup_table *)
  fmatrix : Type;                      (* the fine operator *)
  grid_of : ffield → grid;             (* vr.grid *)
  coordinates : grid → list (list Z);  (* gpt.coordinates: one row per site *)
  fresh_mask : grid → mask;            (* gpt.complex(f_grid) *)
  ones : mask → mask;                  (* m[:] = 1.0 *)
  make_mask : mask → list bool → mask; (* gpt.make_mask(m, flags) *)
  mask_sub : mask → mask → mask;       (* a - b *)
  Mdir : fmatrix → ffield → nat → Z → ffield;   (* fmat.Mdir(dst, src, mu, fb) *)
  (* even * fmat * vr * even + odd * fmat * vr * odd *)
  self_term : fmatrix → mask → mask → ffield → ffield;
  lookup_table : grid → mask → lut;
  project_using_lut : ffield → list ffield → lut → csite → nat → cplx;
  masked_inner_product : mask → ffield → ffield → csite → cplx;
  project : ffield → list ffield → csite → nat → cplx;
  cshift : link csite → nat → Z → link csite;
  adj : link csite → link csite;
}.

Module coarse.
Section links.
Context `{Ar : Arith} `{!Block}.

Local Abbreviation links := (list (link csite)).

Record params := { hermitian : bool; savelinks : bool; uselut : bool }.

(** [enumerate(l)] *)
Definition enumerate {X : Type} (l : list X) : list (nat * X) :=
  imap (λ n x, (n, x)) l.

(** *** Slice assignments on a link *)

(** [l[:, :, :, :, :, i] = v[:]] with [v] a field of [n]-vectors. *)
Definition set_vector (l : link csite) (n i : nat) (v : csite → nat → cplx)
  : link csite :=
  {| link_grid := link_grid l; shape0 := shape0 l;
     entry := λ x a b, if bool_decide (b = i) && bool_decide (a < n)
                       then v x a else entry l x a b |}.

(** [l[:, :, :, :, j, i] = s[:]] with [s] a field of scalars. *)
Definition set_scalar (l : link csite) (j i : nat) (s : csite → cplx)
  : link csite :=
  {| link_grid := link_grid l; shape0 := shape0 l;
     entry := λ x a b, if bool_decide (a = j) && bool_decide (b = i)
                       then s x else entry l x a b |}.

(** [l[:, :, :, :, r0:r1, c0:c1] *= s] *)
Definition scale_block (l : link csite) (r0 r1 c0 c1 : nat) (s : cplx)
  : link csite :=
  {| link_grid := link_grid l; shape0 := shape0 l;
     entry := λ x a b,
       if bool_decide (r0 ≤ a < r1) && bool_decide (c0 ≤ b < c1)
       then c_mul (entry l x a b) s else entry l x a b |}.

(** *** comm_links *)

(** The body of the loop over [enumerate(dirdisps_forward)]. *)
Definition comm_link (hermitian : bool) (A : links) (pd : nat * (nat * Z))
  : result links :=
  let '(p, (mu, fb)) := pd in
  let p_other := p + 4 in
  let shift_fb := (fb * -1)%Z in
  a_p ← getitem A p;                                  (* Atmp = gpt.copy(A[p]) *)
  Atmp ← (if hermitian then Ok a_p
          else
            a_0 ← getitem A 0;
            let nbasis := shape0 a_0 in
            if decide (nbasis mod 2 = 0) then
              let nb := nbasis / 2 in
              Ok (scale_block (scale_block a_p 0 nb nb nbasis c_m1)
                              nb nbasis 0 nb c_m1)
            else Raise (AssertionError assert_even_basis));
  _ ← getitem A p_other;
  Ok (<[p_other := adj (cshift Atmp mu shift_fb)]> A).  (* A[p_other] @= ... *)

Definition comm_links (A : links) (dirdisps_forward : list (nat * Z))
    (hermitian : bool) : result links :=
  (* assert type(A) == list holds: A is a list *)
  if decide (length A = 2 * length dirdisps_forward + 1)
  then for_each (comm_link hermitian) (enumerate dirdisps_forward) A
  else Raise (AssertionError assert_link_count).

(** *** create_links: directions and masks *)

Definition dirs (f_grid : grid) : list nat :=
  if decide (nd f_grid = 5) then [1; 2; 3; 4] else [0; 1; 2; 3].

Definition dirdisps_full (ds : list nat) : list (nat * Z) :=
  zip (ds ++ ds) (replicate 4 1%Z ++ replicate 4 (-1)%Z).

Definition dirdisps_forward (ds : list nat) : list (nat * Z) :=
  zip ds (replicate 4 1%Z).

(** [numpy.array(f_grid.ldimensions) / numpy.array(c_grid.ldimensions)]: the
    extents of a block.  The fine extents are multiples of the coarse ones, so
    the quotient is the exact one; arrays of different lengths do not
    broadcast (an array of length one would, no grid here has one dimension). *)
Definition block_size (f_grid c_grid : grid) : result (list Z) :=
  if decide (nd f_grid = nd c_grid)
  then Ok (zip_with Z.div (ldimensions f_grid) (ldimensions c_grid))
  else Raise ValueError.

(** Column [mu] of a two-dimensional boolean array: [flags[:, mu]]. *)
Definition column (ncols : nat) (rows : list (list bool)) (mu : nat)
  : result (list bool) :=
  if decide (mu < ncols)
  then Ok ((λ row, default false (row !! mu)) <$> rows)
  else Raise IndexError.

(** [coor % block == block - 1] and [coor % block == 0], row by row. *)
Definition forward_edge (block : list Z) (x : list Z) : list bool :=
  zip_with (λ c b, bool_decide (c `mod` b = b - 1)%Z) x block.
Definition backward_edge (block : list Z) (x : list Z) : list bool :=
  zip_with (λ c b, bool_decide (c `mod` b = 0)%Z) x block.

(** [numpy.sum(coor // block, axis=1) % 2 == 0] *)
Definition block_even (block : list Z) (x : list Z) : bool :=
  bool_decide (foldr Z.add 0%Z (zip_with Z.div x block) `mod` 2 = 0)%Z.

(** The body of [for mu in dirs]: fill [dirmasks[mu]] and [dirmasks[mu + 4]]. *)
Definition fill_dirmasks (ncols : nat) (fwd bwd : list (list bool))
    (dirmasks : list mask) (mu : nat) : result (list mask) :=
  m ← getitem dirmasks mu;
  f ← column ncols fwd mu;
  let dirmasks1 := <[mu := make_mask m f]> dirmasks in
  m' ← getitem dirmasks1 (mu + 4);
  b ← column ncols bwd mu;
  Ok (<[mu + 4 := make_mask m' b]> dirmasks1).

Record masks := {
  onemask : mask;
  blockevenmask : mask;
  blockoddmask : mask;
  dirmasks : list mask;
}.

Definition nhops (ds : list nat) : nat := length (dirdisps_full ds).

(** From [# setup masks] to the end of [for mu in dirs]. *)
Definition setup_masks (f_grid c_grid : grid) : result masks :=
  let ds := dirs f_grid in
  let one := ones (fresh_mask f_grid) in
  let coor := coordinates f_grid in
  block ← block_size f_grid c_grid;
  let even := make_mask (fresh_mask f_grid) (block_even block <$> coor) in
  let odd := mask_sub one even in
  dm ← for_each (fill_dirmasks (nd f_grid) (forward_edge block <$> coor)
                               (backward_edge block <$> coor))
                ds (replicate (nhops ds) (fresh_mask f_grid));
  Ok {| onemask := one; blockevenmask := even; blockoddmask := odd;
        dirmasks := dm |}.

(** *** create_links: the loop over the basis *)

Section fill.
Variable fmat : fmatrix.
Variable basis : list ffield.
Variable c_grid : grid.
Variable ms : masks.
Variable dirdisps : list (nat * Z).
Variable selflink : nat.

(** [[gpt.lookup_table(c_grid, dirmasks[p]) for p, (mu, fb) in enumerate(dirdisps)]] *)
Fixpoint make_dirluts (pds : list (nat * (nat * Z))) : result (list lut) :=
  match pds with
  | [] => Ok []
  | pd :: pds' =>
      m ← getitem (dirmasks ms) pd.1;
      ls ← make_dirluts pds';
      Ok (lookup_table c_grid m :: ls)
  end.

(** [[fmat.Mdir(Mvr[p], vr, mu, fb) for p, (mu, fb) in enumerate(dirdisps)]]:
    the first [len(dirdisps)] scratch fields after the hops of [vr]. *)
Definition apply_hop (vr : ffield) : list ffield :=
  (λ d : nat * Z, Mdir fmat vr d.1 d.2) <$> dirdisps.

(** Lookup-table path, per direction:
    [project_using_lut(oproj_vec, Mvr[p], basis, dirluts[p]);
     A[p][:, :, :, :, :, i] = oproj_vec[:]] *)
Definition coarsen_hop_lut (dirluts : list lut) (Mvr : list ffield) (i : nat)
    (A : links) (pd : nat * (nat * Z)) : result links :=
  let p := pd.1 in
  v ← getitem Mvr p;
  l ← getitem dirluts p;
  a ← getitem A p;
  Ok (<[p := set_vector a (length basis) i (project_using_lut v basis l)]> A).

(** Mask path, per direction and per left vector [vl]:
    [masked_inner_product(oproj_scal, dirmasks[p], vl, Mvr[p]);
     A[p][:, :, :, :, j, i] = oproj_scal[:]] *)
Definition coarsen_hop_entry (Mvr : list ffield) (i p : nat)
    (A : links) (jv : nat * ffield) : result links :=
  let '(j, vl) := jv in
  m ← getitem (dirmasks ms) p;
  v ← getitem Mvr p;
  a ← getitem A p;
  Ok (<[p := set_scalar a j i (masked_inner_product m vl v)]> A).

Definition coarsen_hop_mask (Mvr : list ffield) (i : nat)
    (A : links) (pd : nat * (nat * Z)) : result links :=
  for_each (coarsen_hop_entry Mvr i pd.1) (enumerate basis) A.

(** The body of [for i, vr in enumerate(basis)]; [luts] is
    [(dirluts, fulllut)] when [uselut] is set. *)
Definition coarsen_vector (luts : option (list lut * lut))
    (A : links) (ivr : nat * ffield) : result links :=
  let '(i, vr) := ivr in
  let Mvr := apply_hop vr in
  A1 ← for_each (match luts with
                 | Some (dirluts, _) => coarsen_hop_lut dirluts Mvr i
                 | None => coarsen_hop_mask Mvr i
                 end) (enumerate dirdisps) A;
  let tmp := self_term fmat (blockevenmask ms) (blockoddmask ms) vr in
  let selfproj := match luts with
                  | Some (_, fulllut) => project_using_lut tmp basis fulllut
                  | None => project tmp basis
                  end in
  a ← getitem A1 selflink;
  Ok (<[selflink := set_vector a (length basis) i selfproj]> A1).

End fill.

(** *** create_links and recreate_links *)

Definition create_links (A : links) (fmat : fmatrix) (basis : list ffield)
    (ps : params) : result links :=
  if hermitian ps && negb (savelinks ps)
  then Raise (AssertionError assert_precondition) else
  b_0 ← getitem basis 0;
  let f_grid := grid_of b_0 in
  a_0 ← getitem A 0;
  let c_grid := link_grid a_0 in
  let ds := dirs f_grid in
  ms ← setup_masks f_grid c_grid;
  let selflink := nhops ds in
  let dirdisps := if savelinks ps then dirdisps_forward ds else dirdisps_full ds in
  luts ← (if uselut ps
          then dirluts ← make_dirluts c_grid ms (enumerate dirdisps);
               Ok (Some (dirluts, lookup_table c_grid (onemask ms)))
          else Ok None);
  A1 ← for_each (coarsen_vector fmat basis ms dirdisps selflink luts) (enumerate basis) A;
  if savelinks ps
  then comm_links A1 (dirdisps_forward ds) (hermitian ps)
  else Ok A1.

(** A call of [create_links]: Python binds the arguments to the four
    positional parameters [A, fmat, basis, params] before it runs the body,
    and none of them has a default, so a call that leaves [params] out
    raises [TypeError]. *)
Definition call_create_links (A : links) (fmat : fmatrix) (basis : list ffield)
    (ps : option params) : result links :=
  match ps with
  | Some ps => create_links A fmat basis ps
  | None => Raise TypeError
  end.

(** [def recreate_links(A, fmat, basis): create_links(A, fmat, basis)] *)
Definition recreate_links (A : links) (fmat : fmatrix) (basis : list ffield)
  : result links :=
  call_create_links A fmat basis None.

End links.
End coarse.

(** ** Small implementations to run the code on

    Exact arithmetic on the Gaussian integers (floor division, integer square
    root), fields that are lists of them, and a one-dimensional ring of coarse
    sites. *)
Module toy.

Definition gauss : Type := Z * Z.

Definition g_add (a b : gauss) : gauss := (a.1 + b.1, a.2 + b.2)%Z.
Definition g_sub (a b : gauss) : gauss := (a.1 - b.1, a.2 - b.2)%Z.
Definition g_mul (a b : gauss) : gauss :=
  (a.1 * b.1 - a.2 * b.2, a.1 * b.2 + a.2 * b.1)%Z.
Definition g_neg (a : gauss) : gauss := (- a.1, - a.2)%Z.
Definition g_conj (a : gauss) : gauss := (a.1, - a.2)%Z.
Definition g_div_r (a : gauss) (g : Z) : gauss := (a.1 `div` g, a.2 `div` g)%Z.

Definition gauss_arith : Arith :=
  {| real := Z; cplx := gauss;
     r_zero := 0%Z; r_eqb := Z.eqb; r_leb := Z.leb;
     r_mul := Z.mul; r_div := Z.div;
     r_pow2 := λ x, (x * x)%Z; r_sqrt := Z.sqrt;
     c_zero := (0, 0)%Z; c_m1 := (-1, 0)%Z;
     c_add := g_add; c_sub := g_sub; c_mul := g_mul; c_neg := g_neg;
     c_div_r := g_div_r;
     np_empty_r := 7%Z; np_empty_c := (7, 7)%Z |}.

Definition vec : Type := list gauss.

Definition v_dot (a b : vec) : gauss :=
  foldr g_add (0, 0)%Z (zip_with (λ x y, g_mul (g_conj x) y) a b).
Definition v_axpy (a : gauss) (x y : vec) : vec :=
  zip_with (λ xs ys, g_add (g_mul a xs) ys) x y.

(** Modified Gram-Schmidt: [c = <b_j, w>; w -= c * b_j; ip[j] = c]. *)
Fixpoint v_orthogonalize (w : vec) (basis : list vec) (j : nat) (ip : list gauss)
  : vec * list gauss :=
  match basis with
  | [] => (w, ip)
  | b :: basis' =>
      let c := v_dot b w in
      v_orthogonalize (v_axpy (g_neg c) b w) basis' (S j) (<[j:=c]> ip)
  end.

Definition vec_lattice : @Lattice gauss_arith vec :=
  @Build_Lattice gauss_arith vec
    (λ v, (λ _, (7, 7)%Z) <$> v)                  (* lattice *)
    (λ v, (λ _, (0, 0)%Z) <$> v)                  (* set_zero *)
    (λ v, (v_dot v v).1)                          (* norm2 *)
    v_dot                                         (* inner_product *)
    v_axpy                                        (* axpy *)
    (zip_with g_add)                              (* f_add *)
    (λ a v, g_mul a <$> v)                        (* f_scale *)
    (λ v g, (λ x, g_div_r x g) <$> v)             (* f_div_r *)
    (λ w basis ip, v_orthogonalize w basis 0 ip). (* orthogonalize *)

(** The sites of a grid, first coordinate slowest. *)
Fixpoint sites (dims : list Z) : list (list Z) :=
  match dims with
  | [] => [[]]
  | d :: dims' =>
      x ← Z.of_nat <$> seq 0 (Z.to_nat d); (x ::.) <$> sites dims'
  end.

Definition masked_sum (m : nat → bool) (a b : vec) : gauss :=
  foldr g_add (0, 0)%Z
    (imap (λ s xy, if m s then g_mul (g_conj xy.1) xy.2 else (0, 0)%Z) (zip a b)).

Definition g_link : Type := @link gauss_arith Z.

Definition ring_cshift (l : g_link) (mu : nat) (s : Z) : g_link :=
  @Build_link gauss_arith Z (link_grid l) (shape0 l)
    (λ x a b, entry l (x + s)%Z a b).

Definition ring_adj (l : g_link) : g_link :=
  @Build_link gauss_arith Z (link_grid l) (shape0 l)
    (λ x a b, g_conj (entry l x b a)).

Definition ring_project_using_lut (v : grid * vec) (bs : list (grid * vec))
    (l : nat → bool) (x : Z) (j : nat) : gauss :=
  match bs !! j with
  | Some vl => masked_sum l vl.2 v.2
  | None => (0, 0)%Z
  end.

Definition ring_block : @Block gauss_arith :=
  @Build_Block gauss_arith
    (grid * vec)                                  (* ffield *)
    (nat → bool)                                  (* mask *)
    Z                                             (* csite *)
    (nat → bool)                                  (* lut *)
    gauss                                         (* fmatrix *)
    fst                                           (* grid_of *)
    (λ g, sites (ldimensions g))                  (* coordinates *)
    (λ _ _, false)                                (* fresh_mask *)
    (λ _ _, true)                                 (* ones *)
    (λ _ flags s, default false (flags !! s))     (* make_mask *)
    (λ a b s, a s && negb (b s))                  (* mask_sub *)
    (λ f v mu fb,                                 (* Mdir *)
       (v.1, g_mul (g_mul f (Z.of_nat mu + 1, fb)%Z) <$> v.2))
    (λ f even odd v,                              (* self_term *)
       (v.1, imap (λ s x, if even s || odd s then g_mul f x else (0, 0)%Z) v.2))
    (λ _ m, m)                                    (* lookup_table *)
    ring_project_using_lut
    (λ m a b x, masked_sum m a.2 b.2)             (* masked_inner_product *)
    (λ v bs, ring_project_using_lut v bs (λ _, true))   (* project *)
    ring_cshift
    ring_adj.

End toy.

(** Inputs for the solver: the projection on the first coordinate as the
    matrix, and two solver objects without preconditioner. *)
Module runs.
Import toy.

Definition first_coordinate (v : vec) : vec :=
  match v with
  | x :: _ :: _ => [x; (0, 0)%Z]
  | _ => v
  end.

Definition solver (restartlen : nat) : @fgcr.fgcr gauss_arith vec :=
  @fgcr.Build_fgcr gauss_arith vec 0%Z 10 restartlen true None.

Definition zero2 : vec := [(0, 0)%Z; (0, 0)%Z].
Definition ones2 : vec := [(1, 0)%Z; (1, 0)%Z].

Definition inv (restartlen : nat) (psi0 src : vec) :=
  @fgcr.inv gauss_arith vec vec_lattice (solver restartlen) first_coordinate false
            psi0 src.
Definition setup (restartlen : nat) (psi0 src : vec) :=
  @fgcr.setup gauss_arith vec vec_lattice (solver restartlen) first_coordinate
              psi0 src.
Definition state_at (restartlen : nat) :=
  @fgcr.state_at gauss_arith vec vec_lattice (solver restartlen) first_coordinate
                 false.
Definition breaks_down (restartlen : nat) :=
  @fgcr.breaks_down gauss_arith vec vec_lattice (solver restartlen) first_coordinate.

(** A state with three directions and filled tensors, for [update_psi]
    with [i = 2] and for [restart]. *)
Definition cycle_state : @fgcr.state gauss_arith vec :=
  @fgcr.Build_state gauss_arith vec
    [(1, 0)%Z] [(0, 0)%Z] [(0, 0)%Z]
    [[(1, 0)%Z]; [(0, 1)%Z]; [(2, 0)%Z]]
    [[(0, 0)%Z]; [(0, 0)%Z]; [(0, 0)%Z]]
    [(10, 0)%Z; (8, 0)%Z; (6, 0)%Z]
    [[(7, 7)%Z; (1, 0)%Z; (2, 0)%Z];
     [(7, 7)%Z; (7, 7)%Z; (1, 0)%Z];
     [(7, 7)%Z; (7, 7)%Z; (7, 7)%Z]]
    [2%Z; 2%Z; 3%Z]
    [(7, 7)%Z; (7, 7)%Z; (7, 7)%Z]
    [].

Definition update_psi :=
  @fgcr.update_psi gauss_arith vec vec_lattice.
Definition restart :=
  @fgcr.restart gauss_arith vec vec_lattice (solver 3) first_coordinate.

End runs.

(** Inputs for the coarsening: a [2 × 2 × 2 × 2] fine grid (or [1 × 2 × 2 × 2 × 2]
    with a fifth dimension) over a single block, [n] basis vectors, and nine links
    with [n × n] matrices. *)
Module blocks.
Import toy.

Definition fine4 : grid := {| ldimensions := [2; 2; 2; 2]%Z |}.
Definition coarse4 : grid := {| ldimensions := [1; 1; 1; 1]%Z |}.
Definition fine5 : grid := {| ldimensions := [1; 2; 2; 2; 2]%Z |}.
Definition coarse5 : grid := {| ldimensions := [1; 1; 1; 1; 1]%Z |}.

Definition ramp (g : grid) (k : Z) : grid * vec :=
  (g, (λ s, (Z.of_nat s + k, k * Z.of_nat s)%Z) <$> seq 0 16).

Definition basis_of (g : grid) (n : nat) : list (grid * vec) :=
  (λ k, ramp g (Z.of_nat k + 1)) <$> seq 0 n.

Definition link0 (g : grid) (n : nat) (k : Z) : g_link :=
  @Build_link gauss_arith Z g n
    (λ x a b, (k + x + Z.of_nat a, Z.of_nat b + 1)%Z).

Definition links_of (g : grid) (n : nat) : list g_link :=
  (λ k, link0 g n (Z.of_nat k)) <$> seq 0 9.

Definition params_of (h s u : bool) : @coarse.params :=
  {| coarse.hermitian := h; coarse.savelinks := s; coarse.uselut := u |}.

Definition create_links :=
  @coarse.create_links gauss_arith ring_block.
Definition comm_links :=
  @coarse.comm_links gauss_arith ring_block.
Definition recreate_links :=
  @coarse.recreate_links gauss_arith ring_block.
Definition setup_masks :=
  @coarse.setup_masks gauss_arith ring_block.

(** The entries of the links at the coarse sites [0] and [1]. *)
Definition dump (n : nat) (A : list g_link) : list (list (list (list gauss))) :=
  (λ l : g_link, (λ x, (λ a, (λ b, entry l x a b) <$> seq 0 n) <$> seq 0 n)
                   <$> [0; 1]%Z) <$> A.

End blocks.

(** ** Vocabulary of the properties *)

(** Exceptions that are not a failed [assert]. *)
Definition no_assert (e : exn) : Prop :=
  match e with AssertionError _ => False | _ => True end.

Section solver_vocabulary.
Context `{Ar : Arith} {F : Type} `{!Lattice F}.
Import fgcr.

Local Abbreviation state := (@state Ar F).

(** [n] is [restartlen]: the shapes [inv] allocates. *)
Record shaped (n : nat) (st : state) : Prop := {
  shaped_p : length (p st) = n;
  shaped_mmp : length (mmp st) = n;
  shaped_alpha : length (alpha st) = n;
  shaped_beta : length (beta st) = n;
  shaped_rows : Forall (λ row, length row = n) (beta st);
  shaped_gamma : length (gamma st) = n;
  shaped_delta : length (delta st) = n;
}.

Definition cell (l : list cplx) (j : nat) : cplx := default c_zero (l !! j).

(** [sum_{l = j+1 .. i} row[l] * dl[l]], summed in the order of the index. *)
Definition triangular_sum (row dl : list cplx) (j i : nat) : cplx :=
  foldl (λ acc l, c_add acc (c_mul (cell row l) (cell dl l))) c_zero
        (seq (j + 1) (i - j)).

(** [psi + sum_{j < m} dl[j] * ps[j]], added in the order of the index. *)
Definition add_combination (psi0 : F) (dl : list cplx) (ps : list F) (m : nat) : F :=
  foldl (λ acc dv, f_add acc (f_scale dv.1 dv.2)) psi0 (take m (zip dl ps)).

Definition solves (st : state) (dl : list cplx) (i j : nat) : Prop :=
  ∃ a row g, alpha st !! j = Some a ∧ beta st !! j = Some row
             ∧ gamma st !! j = Some g
             ∧ dl !! j = Some (c_div_r (c_sub a (triangular_sum row dl j i)) g).

(** What [update_psi] may change: [psi] and [delta]. *)
Definition same_but_psi_delta (st st' : state) : Prop :=
  r st' = r st ∧ mmpsi st' = mmpsi st ∧ p st' = p st ∧ mmp st' = mmp st
  ∧ alpha st' = alpha st ∧ beta st' = beta st ∧ gamma st' = gamma st
  ∧ history st' = history st.

End solver_vocabulary.

Section link_vocabulary.
Context `{Ar : Arith} `{!Block}.
Import coarse.

(** Row [a], column [b] lies in the upper right or in the lower left
    [n/2 × n/2] block of an [n × n] matrix. *)
Definition off_diagonal (n a b : nat) : bool :=
  bool_decide (a < n / 2 ∧ n / 2 ≤ b < n) || bool_decide (n / 2 ≤ a < n ∧ b < n / 2).

(** [Atmp] of [comm_links]: the copy of the forward link, with the two
    off-diagonal blocks scaled by [-1.0] unless [hermitian]. *)
Definition signed_copy (hermitian : bool) (nbasis : nat) (l : link csite)
  : link csite :=
  if hermitian then l
  else scale_block (scale_block l 0 (nbasis / 2) (nbasis / 2) nbasis c_m1)
                   (nbasis / 2) nbasis 0 (nbasis / 2) c_m1.

(** The link [A[p]] after the passes of the mask path over the left vectors
    [js] (with their indices), for the right vector [i]. *)
Definition entries_written (m : mask) (v : ffield) (i : nat) (a0 : link csite)
    (js : list (nat * ffield)) : link csite :=
  foldl (λ a jv, set_scalar a jv.1 i (masked_inner_product m jv.2 v)) a0 js.

End link_vocabulary.

(** *** Vocabulary for the further properties *)

Section solver_vocabulary_more.
Context `{Ar : Arith} {F : Type} `{!Lattice F}.
Import fgcr.

(** Two states that differ at most in the work fields [r] and [mmpsi]. *)
Definition same_but_residual (st st' : @state Ar F) : Prop :=
  psi st' = psi st ∧ p st' = p st ∧ mmp st' = mmp st
  ∧ alpha st' = alpha st ∧ beta st' = beta st ∧ gamma st' = gamma st
  ∧ delta st' = delta st ∧ history st' = history st.

End solver_vocabulary_more.

Section link_vocabulary_more.
Context `{Ar : Arith} `{!Block}.
Import coarse.

Variable fmat : fmatrix.
Variable basis : list ffield.
Variable ms : masks.
Variable dirdisps : list (nat * Z).
Variable selflink : nat.
Variable luts : option (list lut * lut).

(** The link a hop pass leaves at [A[q]]: its column [i] holds the
    projections of the hopped vector [v] on the basis. *)
Definition hop_written (v : ffield) (i q : nat) (a : link csite) : link csite :=
  match luts with
  | Some (dirluts, _) =>
      match dirluts !! q with
      | Some l => set_vector a (length basis) i (project_using_lut v basis l)
      | None => a
      end
  | None =>
      match dirmasks ms !! q with
      | Some m => entries_written m v i a (enumerate basis)
      | None => a
      end
  end.

(** The self link after the pass for [vr], the [i]-th basis vector. *)
Definition self_written (vr : ffield) (i : nat) (a : link csite) : link csite :=
  let tmp := self_term fmat (blockevenmask ms) (blockoddmask ms) vr in
  set_vector a (length basis) i
    (match luts with
     | Some (_, fulllut) => project_using_lut tmp basis fulllut
     | None => project tmp basis
     end).

(** What the pass for the basis vector [ivr] makes of the link [A[q]]. *)
Definition link_written (ivr : nat * ffield) (q : nat) (a : link csite)
  : link csite :=
  match dirdisps !! q with
  | Some d => hop_written (Mdir fmat ivr.2 d.1 d.2) ivr.1 q a
  | None => if decide (q = selflink) then self_written ivr.2 ivr.1 a else a
  end.

(** The column a pass writes into the link [A[q]], as a function of the
    basis vector of the pass: its value at a coarse site and a row. *)
Definition written_value (q : nat) : option (ffield → csite → nat → cplx) :=
  match dirdisps !! q with
  | Some d =>
      match luts with
      | Some (dirluts, _) =>
          match dirluts !! q with
          | Some l => Some (λ vr, project_using_lut (Mdir fmat vr d.1 d.2) basis l)
          | None => None
          end
      | None =>
          match dirmasks ms !! q with
          | Some m =>
              Some (λ vr x j,
                      match basis !! j with
                      | Some vl => masked_inner_product m vl (Mdir fmat vr d.1 d.2) x
                      | None => c_zero
                      end)
          | None => None
          end
      end
  | None =>
      if decide (q = selflink)
      then Some (λ vr,
                   let tmp := self_term fmat (blockevenmask ms) (blockoddmask ms) vr in
                   match luts with
                   | Some (_, fulllut) => project_using_lut tmp basis fulllut
                   | None => project tmp basis
                   end)
      else None
  end.

(** The links after the passes for all the basis vectors. *)
Definition links_written (A : list (link csite)) : list (link csite) :=
  imap (λ q a, foldl (λ acc ivr, link_written ivr q acc) a (enumerate basis)) A.

End link_vocabulary_more.

Section table_vocabulary.
Context `{Ar : Arith} `{!Block}.
Import coarse.

(** The lookup tables [create_links] builds for the directions [dd]. *)
Definition tables_of (c_grid : grid) (ms : masks) (dd : list (nat * Z))
    (u : bool) (luts : option (list lut * lut)) : Prop :=
  match luts with
  | Some (dirluts, fulllut) =>
      u = true ∧ fulllut = lookup_table c_grid (onemask ms)
      ∧ length dd ≤ length dirluts
      ∧ ∀ p d, dd !! p = Some d →
          ∃ m, dirmasks ms !! p = Some m
            ∧ dirluts !! p = Some (lookup_table c_grid m)
  | None => u = false
  end.

End table_vocabulary.

(** * Properties *)

(** ** Loops and array accesses *)

Lemma for_each_app {S X : Type} (body : S → X → result S) (xs ys : list X) (s : S) :
  for_each body (xs ++ ys) s = s' ← for_each body xs s; for_each body ys s'.
Proof.
  revert s. induction xs as [|x xs IH]; intros s; simpl; [done|].
  destruct (body s x) as [s1|e]; simpl; [apply IH|done].
Qed.

Lemma for_each_snoc {S X : Type} (body : S → X → result S) (xs : list X) (x : X) (s : S) :
  for_each body (xs ++ [x]) s = s' ← for_each body xs s; body s' x.
Proof.
  rewrite for_each_app. destruct (for_each body xs s) as [s1|e]; simpl; [|done].
  by destruct (body s1 x).
Qed.

Lemma getitem_Some {A : Type} (l : list A) (j : nat) (x : A) :
  l !! j = Some x → getitem l j = Ok x.
Proof. unfold getitem. by intros ->. Qed.

Lemma getitem_lt {A : Type} (l : list A) (j : nat) :
  j < length l → ∃ x, l !! j = Some x ∧ getitem l j = Ok x.
Proof.
  intros Hj. destruct (lookup_lt_is_Some_2 l j Hj) as [x Hx].
  exists x. split; [done|by apply getitem_Some].
Qed.

Lemma getitem_Ok {A : Type} (l : list A) (j : nat) (x : A) :
  getitem l j = Ok x → l !! j = Some x.
Proof. unfold getitem. destruct (l !! j); [by intros [= ->]|done]. Qed.

Lemma setitem_lt {A : Type} (l : list A) (j : nat) (x : A) :
  j < length l → setitem l j x = Ok (<[j:=x]> l).
Proof. intros Hj. unfold setitem. by rewrite decide_True. Qed.

Lemma setitem_Ok {A : Type} (l l' : list A) (j : nat) (x : A) :
  setitem l j x = Ok l' → j < length l ∧ l' = <[j:=x]> l.
Proof. unfold setitem. case_decide; [by intros [= <-]|done]. Qed.

Lemma slice_length {A : Type} (l : list A) (lo hi : nat) :
  hi ≤ length l → length (slice l lo hi) = hi - lo.
Proof. intros Hhi. unfold slice. rewrite length_take, length_drop. lia. Qed.

(** ** update_psi: backward substitution *)

Section back_substitution.
Context `{Ar : Arith} {F : Type} `{!Lattice F}.
Import fgcr.

Local Abbreviation state := (@state Ar F).

Lemma foldl_zip_slices (k : nat) : ∀ (lo : nat) (a b : list cplx) (acc : cplx),
  lo + k ≤ length a → lo + k ≤ length b →
  foldl (λ acc xy, c_add acc (c_mul xy.1 xy.2)) acc
        (zip (take k (drop lo a)) (take k (drop lo b)))
  = foldl (λ acc l, c_add acc (c_mul (cell a l) (cell b l))) acc (seq lo k).
Proof.
  induction k as [|k IH]; intros lo a b acc Ha Hb; simpl; [done|].
  destruct (lookup_lt_is_Some_2 a lo) as [x Hx]; [lia|].
  destruct (lookup_lt_is_Some_2 b lo) as [y Hy]; [lia|].
  rewrite (drop_S a x lo Hx), (drop_S b y lo Hy). simpl.
  unfold cell at 3 4. rewrite Hx, Hy. simpl.
  apply IH; lia.
Qed.

Lemma np_dot_slices (row dl : list cplx) (n j i : nat) :
  length row = n → length dl = n → j ≤ i → i < n →
  np_dot (slice row (j + 1) (i + 1)) (slice dl (j + 1) (i + 1))
  = Ok (triangular_sum row dl j i).
Proof.
  intros Hr Hd Hji Hin. unfold np_dot.
  rewrite !slice_length by lia. rewrite decide_True by done.
  unfold slice, triangular_sum.
  replace (i + 1 - (j + 1)) with (i - j) by lia.
  f_equal. apply foldl_zip_slices; lia.
Qed.

Lemma triangular_sum_ext (row d1 d2 : list cplx) (j i : nat) :
  (∀ l, j < l → d1 !! l = d2 !! l) →
  triangular_sum row d1 j i = triangular_sum row d2 j i.
Proof.
  intros Heq. unfold triangular_sum.
  assert (Hgen : ∀ k lo acc, j < lo →
    foldl (λ acc l, c_add acc (c_mul (cell row l) (cell d1 l))) acc (seq lo k)
    = foldl (λ acc l, c_add acc (c_mul (cell row l) (cell d2 l))) acc (seq lo k)).
  { induction k as [|k IH]; intros lo acc Hlo; simpl; [done|].
    assert (cell d1 lo = cell d2 lo) as -> by (unfold cell; by rewrite Heq).
    apply IH. lia. }
  apply Hgen. lia.
Qed.


Lemma shaped_with_delta (n : nat) (st : state) (dl : list cplx) :
  shaped n st → length dl = n → shaped n (with_delta st dl).
Proof. intros [] Hdl. by constructor. Qed.

Lemma substitute_step (n i j : nat) (st : state) :
  shaped n st → j ≤ i → i < n →
  ∃ a row g, alpha st !! j = Some a ∧ beta st !! j = Some row
    ∧ gamma st !! j = Some g
    ∧ substitute i st j
      = Ok (with_delta st
              (<[j := c_div_r (c_sub a (triangular_sum row (delta st) j i)) g]>
                 (delta st))).
Proof.
  intros Hst Hji Hin. destruct Hst as [_ _ Ha Hb Hrows Hg Hd].
  destruct (getitem_lt (alpha st) j) as (a & Hla & Hga); [lia|].
  destruct (getitem_lt (beta st) j) as (row & Hlr & Hgr); [lia|].
  destruct (getitem_lt (gamma st) j) as (g & Hlg & Hgg); [lia|].
  exists a, row, g. split_and!; try done.
  assert (length row = n) as Hrow.
  { eapply (Forall_lookup_1 _ _ _ _ Hrows Hlr). }
  unfold substitute. rewrite Hga. simpl. rewrite Hgr. simpl.
  rewrite (np_dot_slices row (delta st) n j i) by done. simpl.
  rewrite Hgg. simpl. rewrite setitem_lt by lia. done.
Qed.

(** The backward loop, after the passes [j = i .. m]: the cells it wrote
    solve their equations, the cells below [m] are still to be written. *)
Lemma substitute_loop (n i : nat) (st : state) (m : nat) :
  shaped n st → m ≤ i + 1 → i < n →
  ∃ dl, for_each (substitute i) (rev (seq 0 m)) st = Ok (with_delta st dl)
    ∧ length dl = n
    ∧ (∀ l, m ≤ l → dl !! l = delta st !! l)
    ∧ (∀ j, j < m → solves st dl i j).
Proof.
  revert st. induction m as [|m IH]; intros st Hst Hm Hin.
  - exists (delta st). simpl. split_and!.
    + by destruct st.
    + by destruct Hst.
    + done.
    + intros j Hj. lia.
  - rewrite seq_S, rev_app_distr. simpl.
    destruct (substitute_step n i m st) as (a & row & g & Ha & Hr & Hg & ->);
      [done|lia|done|]. simpl.
    set (v := c_div_r _ g).
    assert (Hd : length (delta st) = n) by (by destruct Hst).
    assert (Hlen : length (<[m:=v]> (delta st)) = n) by (by rewrite length_insert).
    destruct (IH (with_delta st (<[m:=v]> (delta st)))) as (dl & -> & Hdl & Hhi & Hlo);
      [by apply shaped_with_delta|lia|done|].
    exists dl. simpl in *. split_and!; [done|done| |].
    + intros l Hl. rewrite Hhi by lia. apply list_lookup_insert_ne. lia.
    + intros j Hj. destruct (decide (j = m)) as [->|Hne]; [|apply Hlo; lia].
      exists a, row, g. split_and!; try done.
      rewrite Hhi by lia. rewrite list_lookup_insert_eq by lia.
      unfold v. do 3 f_equal. apply triangular_sum_ext.
      intros l Hl. rewrite Hhi by lia. symmetry. apply list_lookup_insert_ne. lia.
Qed.

(** The forward loop, after the passes [j = 0 .. m - 1]. *)
Lemma accumulate_loop (n : nat) (st : state) (m : nat) :
  shaped n st → m ≤ n →
  for_each accumulate (seq 0 m) st
  = Ok (with_psi st (add_combination (psi st) (delta st) (p st) m)).
Proof.
  intros Hst Hm. induction m as [|m IH].
  - simpl. unfold add_combination. simpl. by destruct st.
  - rewrite seq_S, for_each_snoc, IH by lia. simpl.
    destruct Hst as [Hp _ _ _ _ _ Hd].
    destruct (getitem_lt (delta st) m) as (d & Hld & Hgd); [lia|].
    destruct (getitem_lt (p st) m) as (v & Hlv & Hgv); [lia|].
    unfold accumulate. simpl. rewrite Hgd. simpl. rewrite Hgv. simpl.
    unfold with_psi. simpl. do 2 f_equal.
    unfold add_combination.
    rewrite (take_S_r _ _ (d, v)); [by rewrite foldl_snoc|].
    rewrite lookup_zip_with, Hld. simpl. by rewrite Hlv.
Qed.


(** C1.  For an in-cycle index [i] (below [restartlen], the extent [n] of the
    tensors), [update_psi] returns normally; every [delta[j]] with [j <= i]
    ends up as [(alpha[j] - sum_{l=j+1..i} beta[j,l] * delta[l]) / gamma[j]],
    the [delta[l]] on the right being the final ones (the cells were solved
    from [j = i] down to [0]); the cells of [delta] above [i] are untouched;
    [psi] ends up as [psi + sum_{j=0..i} delta[j] * p[j]]; and [alpha], [beta],
    [gamma] and [p] (and every other field and tensor) are as before. *)
Theorem update_psi_back_substitution (n i : nat) (st : state) :
  shaped n st → i < n →
  ∃ st', update_psi st i = Ok st'
    ∧ (∀ j, j ≤ i →
         ∃ a row g, alpha st !! j = Some a ∧ beta st !! j = Some row
           ∧ gamma st !! j = Some g
           ∧ delta st' !! j
             = Some (c_div_r (c_sub a (triangular_sum row (delta st') j i)) g))
    ∧ (∀ l, i < l → delta st' !! l = delta st !! l)
    ∧ psi st' = add_combination (psi st) (delta st') (p st) (i + 1)
    ∧ alpha st' = alpha st ∧ beta st' = beta st ∧ gamma st' = gamma st
    ∧ p st' = p st
    ∧ r st' = r st ∧ mmpsi st' = mmpsi st ∧ mmp st' = mmp st
    ∧ history st' = history st.
Proof.
  intros Hst Hin.
  destruct (substitute_loop n i st (i + 1)) as (dl & Hloop & Hlen & Hhi & Hlo);
    [done|lia|done|].
  unfold update_psi. rewrite Hloop. simpl.
  rewrite (accumulate_loop n) by (by apply shaped_with_delta || lia).
  eexists. split; [done|]. simpl. split_and!; try done.
  - intros j Hj. apply Hlo. lia.
  - intros l Hl. apply Hhi. lia.
Qed.

End back_substitution.

Section back_substitution_run.
#[local] Existing Instance toy.gauss_arith.
#[local] Existing Instance toy.vec_lattice.

(** A three-step cycle on the Gaussian integers, checked by hand:
    [delta[2] = 6/3], [delta[1] = (8 - 1*2)/2],
    [delta[0] = (10 - (1*3 + 2*2))/2] (floor division), and
    [psi = 1 + 1*1 + 3*i + 2*2]. *)
Example update_psi_cycle :
  (st' ← runs.update_psi runs.cycle_state 2; Ok (fgcr.delta st', fgcr.psi st'))
  = Ok ([(1, 0)%Z; (3, 0)%Z; (2, 0)%Z], [(6, 3)%Z]).
Proof. vm_compute. reflexivity. Qed.

Lemma cycle_state_shaped : shaped 3 runs.cycle_state.
Proof. constructor; try reflexivity. repeat constructor. Defined.

Lemma update_psi_back_substitution_witness :
  shaped 3 runs.cycle_state ∧ 2 < 3
  ∧ ∃ st', runs.update_psi runs.cycle_state 2 = Ok st'
           ∧ fgcr.alpha st' = fgcr.alpha runs.cycle_state.
Proof.
  split; [exact cycle_state_shaped|]. split; [lia|].
  destruct (update_psi_back_substitution 3 2 runs.cycle_state cycle_state_shaped)
    as (st' & Hst' & _ & _ & _ & Ha & _); [lia|].
  by exists st'.
Defined.

End back_substitution_run.

(** ** The solver: restart, set-up and the loop *)

Lemma for_each_invariant {S X : Type} (body : S → X → result S) (P : S → Prop)
    (xs : list X) :
  (∀ s x s', body s x = Ok s' → P s → P s') →
  ∀ s s', for_each body xs s = Ok s' → P s → P s'.
Proof.
  intros Hbody. induction xs as [|x xs IH]; intros s s'; simpl.
  - by intros [= <-].
  - destruct (body s x) as [s1|e] eqn:Hs1; simpl; [|done].
    intros Hrest Hs. eapply IH; [done|]. by eapply Hbody.
Qed.

Lemma getitem_raise {A : Type} (l : list A) (j : nat) (e : exn) :
  getitem l j = Raise e → no_assert e.
Proof. unfold getitem. destruct (l !! j); [done|by intros [= <-]]. Qed.



Lemma for_each_raise {S X : Type} (body : S → X → result S) (xs : list X) :
  (∀ s x e, body s x = Raise e → no_assert e) →
  ∀ s e, for_each body xs s = Raise e → no_assert e.
Proof.
  intros Hbody. induction xs as [|x xs IH]; intros s e; simpl; [done|].
  destruct (body s x) as [s1|e1] eqn:Hs1; simpl; [apply IH|].
  intros [= <-]. by eapply Hbody.
Qed.

Section solver_properties.
Context `{Ar : Arith} {F : Type} `{!Lattice F}.
Import fgcr.
Variable self : @fgcr Ar F.
Variable mat : F → F.
Variable verbose : bool.

Local Abbreviation state := (@state Ar F).

Lemma update_psi_frame (st st' : state) (i : nat) :
  update_psi st i = Ok st' → same_but_psi_delta st st'.
Proof.
  unfold update_psi.
  destruct (for_each (substitute i) _ st) as [st1|e] eqn:H1; simpl; [|done].
  intros H2.
  assert (same_but_psi_delta st st1) as Hs1.
  { eapply (for_each_invariant _ (same_but_psi_delta st)); [|exact H1|by repeat split].
    intros s x s' Hs. unfold substitute in Hs.
    destruct (getitem (alpha s) x); simpl in Hs; [|done].
    destruct (getitem (beta s) x); simpl in Hs; [|done].
    destruct (np_dot _ _); simpl in Hs; [|done].
    destruct (getitem (gamma s) x); simpl in Hs; [|done].
    destruct (setitem _ _ _); simpl in Hs; [|done].
    injection Hs as <-. done. }
  eapply (for_each_invariant _ (same_but_psi_delta st)); [|exact H2|done].
  intros s x s' Hs. unfold accumulate in Hs.
  destruct (getitem (delta s) x); simpl in Hs; [|done].
  destruct (getitem (p s) x); simpl in Hs; [|done].
  injection Hs as <-. done.
Qed.

Lemma calc_res_frame (st : state) (src : F) :
  let st' := (calc_res mat st src).1 in
  psi st' = psi st ∧ delta st' = delta st ∧ history st' = history st.
Proof. done. Qed.

Lemma restart_frame (st : state) (src : F) :
  let st' := (restart self mat st src).1 in
  psi st' = psi st ∧ delta st' = delta st ∧ history st' = history st.
Proof. unfold restart. by destruct (prec self). Qed.

Lemma report_frame (st : state) (src : F) :
  let st' := report self mat verbose st src in
  psi st' = psi st ∧ delta st' = delta st ∧ history st' = history st.
Proof. unfold report. by destruct (verbose && checkres self). Qed.

Lemma krylov_step_frame (i : nat) (st st1 : state) (ip : cplx) :
  krylov_step self mat i st = Ok (st1, ip) →
  psi st1 = psi st ∧ delta st1 = delta st ∧ history st1 = history st.
Proof.
  unfold krylov_step.
  destruct (getitem (p st) i); simpl; [|done].
  destruct (getitem (mmp st) i); simpl; [|done].
  destruct (get_column (beta st) i); simpl; [|done].
  destruct (orthogonalize _ _ _) as [w' col'].
  destruct (setitem _ _ _); simpl; [|done].
  by intros [= <- _].
Qed.

Lemma residual_step_frame (i : nat) (g : real) (ip : cplx) (st st2 : state) (r2 : real) :
  residual_step i g ip st = Ok (st2, r2) →
  psi st2 = psi st ∧ delta st2 = delta st ∧ history st2 = history st ++ [r2].
Proof.
  unfold residual_step.
  destruct (getitem (mmp st) i); simpl; [|done].
  destruct (setitem _ _ _) as [alpha'|]; simpl; [|done].
  destruct (getitem alpha' i); simpl; [|done].
  by intros [= <- <-].
Qed.


(** A pass that goes on to the next one records one residual, and touches
    [psi] and [delta] only at the end of a cycle. *)
Lemma iteration_continue (tg : target) (src : F) (k : nat) (st st' : state) :
  iteration self mat verbose tg src k st = Ok (Continue st') →
  length (history st') = S (length (history st))
  ∧ (k mod rlen self + 1 ≠ rlen self → psi st' = psi st ∧ delta st' = delta st).
Proof.
  unfold iteration. case_decide as Hrlen; [done|].
  destruct (krylov_step _ _ _ _) as [[st1 ip]|] eqn:Hk; simpl; [|done].
  destruct (getitem (gamma st1) _) as [g|]; simpl; [|done].
  destruct (r_eqb g r_zero); [done|].
  destruct (residual_step _ _ _ _) as [[st2 r2]|] eqn:Hr; simpl; [|done].
  apply krylov_step_frame in Hk as (Hk1 & Hk2 & Hk3).
  apply residual_step_frame in Hr as (Hr1 & Hr2 & Hr3).
  assert (Hlen : length (history st2) = S (length (history st))).
  { rewrite Hr3, length_app, Hk3. simpl. lia. }
  destruct (r_leb r2 (rsq tg)) eqn:Hconv; simpl.
  { destruct (update_psi st2 _); simpl; [|done]. by destruct (r_eqb (ssq tg) r_zero). }
  destruct (bool_decide (k mod rlen self + 1 = rlen self)) eqn:Hneed; simpl.
  - apply bool_decide_eq_true in Hneed.
    destruct (update_psi st2 _) as [st3|] eqn:Hu; simpl; [|done].
    destruct (r_eqb (ssq tg) r_zero); [done|].
    destruct (bool_decide (k + 1 = maxiter self)); [done|].
    intros [= <-]. apply update_psi_frame in Hu as (_ & _ & _ & _ & _ & _ & _ & Hh).
    destruct (restart_frame st3 src) as (_ & _ & ->). rewrite Hh. split; [done|lia].
  - destruct (bool_decide (k + 1 = maxiter self)); simpl.
    + destruct (update_psi st2 _); simpl; [|done]. by destruct (r_eqb (ssq tg) r_zero).
    + intros [= <-]. split; [done|]. intros _. by rewrite Hr1, Hr2, Hk1, Hk2.
Qed.

(** The pass in which [gamma[i] == 0.0] holds leaves the loop at once. *)
Lemma iteration_breakdown (tg : target) (src : F) (k : nat) (st : state) :
  breaks_down self mat k st →
  ∃ st1, iteration self mat verbose tg src k st = Ok (Break Breakdown st1)
    ∧ psi st1 = psi st ∧ delta st1 = delta st ∧ history st1 = history st.
Proof.
  intros (Hrlen & st1 & ip & g & Hk & Hg & Hzero).
  exists st1. unfold iteration. rewrite decide_False by done.
  rewrite Hk. simpl. rewrite (getitem_Some _ _ _ Hg). simpl. rewrite Hzero.
  split; [done|]. by apply krylov_step_frame in Hk.
Qed.

Lemma state_at_S (tg : target) (src : F) (st0 st : state) (k : nat) :
  state_at self mat verbose tg src st0 (S k) = Some st →
  ∃ st1, state_at self mat verbose tg src st0 k = Some st1
    ∧ iteration self mat verbose tg src k st1 = Ok (Continue st).
Proof.
  simpl. destruct (state_at _ _ _ _ _ _ k) as [st1|]; [|done].
  destruct (iteration _ _ _ _ _ _ st1) as [[st2|why st2]|] eqn:Hit; [|done|done].
  intros [= <-]. by exists st1.
Qed.

(** Reaching pass [k] is running the first [k] passes of the loop. *)
Lemma iterate_state_at (tg : target) (src : F) (st0 : state) (k : nat) :
  ∀ (n : nat) (st : state),
  state_at self mat verbose tg src st0 k = Some st →
  iterate self mat verbose tg src (k + n) 0 st0
  = iterate self mat verbose tg src n k st.
Proof.
  induction k as [|k IH]; intros n st Hst.
  - simpl in Hst. by injection Hst as <-.
  - apply state_at_S in Hst as (st1 & Hst1 & Hit).
    replace (S k + n) with (k + S n) by lia.
    rewrite (IH (S n) st1 Hst1). simpl. by rewrite Hit.
Qed.

Lemma state_at_history (tg : target) (src : F) (st0 : state) (k : nat) :
  ∀ st, state_at self mat verbose tg src st0 k = Some st →
  length (history st) = length (history st0) + k.
Proof.
  induction k as [|k IH]; intros st Hst.
  - simpl in Hst. injection Hst as <-. lia.
  - apply state_at_S in Hst as (st1 & Hst1 & Hit).
    apply iteration_continue in Hit as [-> _]. rewrite (IH st1 Hst1). lia.
Qed.

(** From the first pass of a cycle to pass [i] of it, [psi] and [delta] stay. *)
Lemma state_at_cycle (tg : target) (src : F) (st0 : state) (k0 i : nat) :
  k0 mod rlen self = 0 → i < rlen self →
  ∀ stc st,
  state_at self mat verbose tg src st0 k0 = Some stc →
  state_at self mat verbose tg src st0 (k0 + i) = Some st →
  psi st = psi stc ∧ delta st = delta stc.
Proof.
  intros Hk0. induction i as [|i IH]; intros Hi stc st Hc Hst.
  - rewrite Nat.add_0_r, Hc in Hst. by injection Hst as <-.
  - replace (k0 + S i) with (S (k0 + i)) in Hst by lia.
    apply state_at_S in Hst as (st1 & Hst1 & Hit).
    destruct (IH ltac:(lia) stc st1 Hc Hst1) as [<- <-].
    apply iteration_continue in Hit as [_ Hsame]. apply Hsame.
    rewrite Nat.Div0.add_mod, Hk0 by lia. simpl.
    rewrite Nat.Div0.mod_mod, Nat.mod_small by lia. lia.
Qed.


(** The pass that ends a cycle (and goes on) leaves in [psi] what
    [update_psi] made of it: the restart does not touch [psi]. *)
Lemma iteration_cycle_end (tg : target) (src : F) (k : nat) (st st' : state) :
  iteration self mat verbose tg src k st = Ok (Continue st') →
  k mod rlen self + 1 = rlen self →
  ∃ st2 st3, psi st2 = psi st
    ∧ update_psi st2 (k mod rlen self) = Ok st3
    ∧ st' = (restart self mat st3 src).1 ∧ psi st' = psi st3.
Proof.
  unfold iteration. case_decide as Hrlen; [done|]. intros Hit Hneed.
  destruct (krylov_step _ _ _ _) as [[st1 ip]|] eqn:Hk; simpl in Hit; [|done].
  destruct (getitem (gamma st1) _) as [g|]; simpl in Hit; [|done].
  destruct (r_eqb g r_zero); [done|].
  destruct (residual_step _ _ _ _) as [[st2 r2]|] eqn:Hr; simpl in Hit; [|done].
  apply krylov_step_frame in Hk as (Hk1 & _).
  apply residual_step_frame in Hr as (Hr1 & _).
  rewrite (bool_decide_eq_true_2 _ Hneed), orb_true_r in Hit. simpl in Hit.
  destruct (update_psi st2 _) as [st3|] eqn:Hu; simpl in Hit; [|done].
  destruct (r_eqb (ssq tg) r_zero); [done|].
  destruct (r_leb r2 (rsq tg)); [done|].
  destruct (bool_decide (k + 1 = maxiter self)); [done|].
  injection Hit as <-. exists st2, st3. split_and!; try done.
  - by rewrite Hr1.
  - by destruct (restart_frame st3 src) as (-> & _).
Qed.

Lemma setup_start (psi0 src : F) (st0 : state) (tg : target) :
  setup self mat psi0 src = Ok (st0, tg) →
  psi st0 = psi0 ∧ history st0 = [].
Proof.
  unfold setup.
  destruct (restart self mat (allocate self psi0 src) src) as [st r2] eqn:Hre.
  destruct (restart_frame (allocate self psi0 src) src) as (Hpsi & _ & Hh).
  rewrite Hre in Hpsi, Hh. simpl in *.
  destruct (r_eqb (norm2 src) r_zero); [destruct (r_eqb r2 r_zero)|]; simpl;
    try done; by intros [= <- _].
Qed.

(** C2.  When [gamma[i] == 0.0] holds in pass [k] of the loop, [inv]
    returns normally (no exception is raised: the breakdown is a soft stop),
    and [self.history] then has [k] entries: one for each of the [k] passes
    completed before, none for the pass that broke down. *)
Theorem breakdown_soft_stop (psi0 src : F) (st0 : state) (tg : target)
    (k : nat) (st : state) :
  setup self mat psi0 src = Ok (st0, tg) →
  state_at self mat verbose tg src st0 k = Some st →
  k < maxiter self →
  breaks_down self mat k st →
  ∃ st', inv self mat verbose psi0 src = Ok (Breakdown, st')
    ∧ length (history st') = k.
Proof.
  intros Hsetup Hst Hk Hbd.
  destruct (iteration_breakdown tg src k st Hbd) as (st1 & Hit & _ & _ & Hh).
  exists st1. unfold inv. rewrite Hsetup. simpl.
  replace (maxiter self) with (k + S (maxiter self - S k)) by lia.
  rewrite (iterate_state_at tg src st0 k _ st Hst). simpl. rewrite Hit. simpl.
  split; [done|]. rewrite Hh, (state_at_history tg src st0 k st Hst).
  apply setup_start in Hsetup as [_ ->]. simpl. lia.
Qed.

(** C10.  When [gamma[i] == 0.0] holds in pass [i] of the cycle that starts
    with pass [k0], [inv] leaves the loop without running [update_psi] for
    that cycle: the [psi] (and the [delta]) it returns are the ones the cycle
    started with.  For the first cycle that [psi] is the caller's; for a later
    one it is the [psi] that [update_psi] produced at the end of the cycle
    before (the restart that follows it does not change [psi]). *)
Theorem breakdown_keeps_cycle_psi (psi0 src : F) (st0 : state) (tg : target)
    (k0 i : nat) (stc st : state) :
  setup self mat psi0 src = Ok (st0, tg) →
  k0 mod rlen self = 0 → i < rlen self → k0 + i < maxiter self →
  state_at self mat verbose tg src st0 k0 = Some stc →
  state_at self mat verbose tg src st0 (k0 + i) = Some st →
  breaks_down self mat (k0 + i) st →
  ∃ st', inv self mat verbose psi0 src = Ok (Breakdown, st')
    ∧ psi st' = psi stc ∧ delta st' = delta stc
    ∧ (k0 = 0 → psi st' = psi0)
    ∧ (∀ k1, k0 = S k1 →
         ∃ st2 st3, update_psi st2 (k1 mod rlen self) = Ok st3
           ∧ stc = (restart self mat st3 src).1 ∧ psi st' = psi st3).
Proof.
  intros Hsetup Hk0 Hi Hmax Hc Hst Hbd.
  destruct (iteration_breakdown tg src (k0 + i) st Hbd) as (st1 & Hit & Hp & Hd & _).
  destruct (state_at_cycle tg src st0 k0 i Hk0 Hi stc st Hc Hst) as [Hpc Hdc].
  exists st1. unfold inv. rewrite Hsetup. simpl.
  replace (maxiter self) with (k0 + i + S (maxiter self - S (k0 + i))) by lia.
  rewrite (iterate_state_at tg src st0 (k0 + i) _ st Hst). simpl. rewrite Hit. simpl.
  split_and!; [done|congruence|congruence| |].
  - intros ->. simpl in Hc. injection Hc as <-.
    apply setup_start in Hsetup as [<- _]. congruence.
  - intros k1 ->. apply state_at_S in Hc as (stp & _ & Hend).
    destruct (iteration_cycle_end tg src k1 stp stc Hend) as (st2 & st3 & _ & Hu & Hre & Hpsi).
    + assert (rlen self ≠ 0) by lia.
      pose proof (Nat.mod_upper_bound k1 (rlen self) ltac:(done)) as Hlt.
      destruct (decide (k1 mod rlen self + 1 = rlen self)) as [|Hne]; [done|].
      exfalso. replace (S k1) with (k1 + 1) in Hk0 by lia.
      rewrite Nat.Div0.add_mod in Hk0 by lia.
      destruct (decide (rlen self = 1)) as [H1|H1]; [lia|].
      rewrite (Nat.mod_small 1) in Hk0 by lia.
      rewrite Nat.mod_small in Hk0 by lia. lia.
    + exists st2, st3. split_and!; [done|done|congruence].
Qed.


(** *** No [assert] fails inside the loop *)







(** *** restart and the set-up of inv *)

(** C3, as amended.  [restart] sets every [p[j]] to zero when a preconditioner
    is set, and leaves [p] as it is when none is; in both cases it recomputes
    [mmpsi] as [mat(psi)] and [r] as [-1.0 * mmpsi + src], returns the norm
    squared of that [r], and does not modify [psi]. *)
Theorem restart_recomputes_residual (st : state) (src : F) :
  let st' := (restart self mat st src).1 in
  p st' = match prec self with
          | Some _ => set_zero <$> p st
          | None => p st
          end
  ∧ mmpsi st' = mat (psi st)
  ∧ r st' = axpy c_m1 (mmpsi st') src
  ∧ (restart self mat st src).2 = norm2 (r st')
  ∧ psi st' = psi st.
Proof. unfold restart. by destruct (prec self). Qed.


End solver_properties.

Section solver_runs.
#[local] Existing Instance toy.gauss_arith.
#[local] Existing Instance toy.vec_lattice.

(** Breakdown in the second pass: the second direction is [(0, 1)], which
    the projection maps to zero. *)
Example inv_breakdown_run :
  (res ← runs.inv 3 runs.zero2 runs.ones2;
   Ok (res.1, fgcr.psi res.2, fgcr.history res.2))
  = Ok (fgcr.Breakdown, runs.zero2, [1%Z]).
Proof. vm_compute. reflexivity. Qed.

Lemma breakdown_soft_stop_witness :
  ∃ st0 tg st,
    runs.setup 3 runs.zero2 runs.ones2 = Ok (st0, tg)
    ∧ runs.state_at 3 tg runs.ones2 st0 1 = Some st
    ∧ 1 < fgcr.maxiter (runs.solver 3)
    ∧ runs.breaks_down 3 1 st
    ∧ ∃ st', runs.inv 3 runs.zero2 runs.ones2 = Ok (fgcr.Breakdown, st')
             ∧ length (fgcr.history st') = 1.
Proof.
  evar (st0 : @fgcr.state toy.gauss_arith toy.vec).
  evar (tg : @fgcr.target toy.gauss_arith).
  evar (st : @fgcr.state toy.gauss_arith toy.vec).
  exists st0, tg, st.
  assert (Hsetup : runs.setup 3 runs.zero2 runs.ones2 = Ok (st0, tg))
    by (cbv; reflexivity).
  assert (Hat : runs.state_at 3 tg runs.ones2 st0 1 = Some st)
    by (cbv; reflexivity).
  assert (Hmax : 1 < fgcr.maxiter (runs.solver 3)) by (simpl; lia).
  assert (Hbd : runs.breaks_down 3 1 st).
  { split; [by simpl|]. eexists _, _, _. split_and!; cbv; reflexivity. }
  split_and!; [exact Hsetup|exact Hat|exact Hmax|exact Hbd|].
  exact (breakdown_soft_stop (runs.solver 3) runs.first_coordinate false
           runs.zero2 runs.ones2 st0 tg 1 st Hsetup Hat Hmax Hbd).
Defined.

(** Breakdown in the second cycle of a solver with [restartlen = 1]: the
    first cycle ends with [psi = (1, 1)], which is what [inv] returns. *)
Example inv_breakdown_second_cycle :
  (res ← runs.inv 1 runs.zero2 runs.ones2;
   Ok (res.1, fgcr.psi res.2, fgcr.history res.2))
  = Ok (fgcr.Breakdown, runs.ones2, [1%Z]).
Proof. vm_compute. reflexivity. Qed.

Lemma breakdown_keeps_cycle_psi_witness :
  ∃ st0 tg stc,
    runs.setup 1 runs.zero2 runs.ones2 = Ok (st0, tg)
    ∧ 1 mod fgcr.rlen (runs.solver 1) = 0
    ∧ 0 < fgcr.rlen (runs.solver 1)
    ∧ 1 + 0 < fgcr.maxiter (runs.solver 1)
    ∧ runs.state_at 1 tg runs.ones2 st0 1 = Some stc
    ∧ runs.breaks_down 1 (1 + 0) stc
    ∧ ∃ st', runs.inv 1 runs.zero2 runs.ones2 = Ok (fgcr.Breakdown, st')
             ∧ fgcr.psi st' = fgcr.psi stc.
Proof.
  evar (st0 : @fgcr.state toy.gauss_arith toy.vec).
  evar (tg : @fgcr.target toy.gauss_arith).
  evar (stc : @fgcr.state toy.gauss_arith toy.vec).
  exists st0, tg, stc.
  assert (Hsetup : runs.setup 1 runs.zero2 runs.ones2 = Ok (st0, tg))
    by (cbv; reflexivity).
  assert (Hk0 : 1 mod fgcr.rlen (runs.solver 1) = 0) by reflexivity.
  assert (Hi : 0 < fgcr.rlen (runs.solver 1)) by (simpl; lia).
  assert (Hmax : 1 + 0 < fgcr.maxiter (runs.solver 1)) by (simpl; lia).
  assert (Hc : runs.state_at 1 tg runs.ones2 st0 1 = Some stc)
    by (cbv; reflexivity).
  assert (Hbd : runs.breaks_down 1 (1 + 0) stc).
  { split; [by simpl|]. eexists _, _, _. split_and!; cbv; reflexivity. }
  split_and!; [exact Hsetup|exact Hk0|exact Hi|exact Hmax|exact Hc|exact Hbd|].
  destruct (breakdown_keeps_cycle_psi (runs.solver 1) runs.first_coordinate false
              runs.zero2 runs.ones2 st0 tg 1 0 stc stc
              Hsetup Hk0 Hi Hmax Hc Hc Hbd) as (st' & Hinv & Hpsi & _).
  by exists st'.
Defined.

(** C3 as stated fails: without a preconditioner [restart] does not touch the
    direction vectors, which here are not zero. *)
Lemma restart_keeps_directions_counterexample :
  let st' := (runs.restart runs.cycle_state [(5, 0)%Z]).1 in
  fgcr.p st' = [[(1, 0)%Z]; [(0, 1)%Z]; [(2, 0)%Z]]
  ∧ fgcr.p st' ≠ @set_zero toy.gauss_arith toy.vec toy.vec_lattice
                   <$> fgcr.p runs.cycle_state.
Proof. split; [reflexivity|]. vm_compute. discriminate. Qed.

End solver_runs.

(** ** The coarse links *)

Section link_properties.
Context `{Ar : Arith} `{!Block}.
Import coarse.

Local Abbreviation links := (list (link csite)).

(** *** recreate_links *)

(** C8: what the code does.  [recreate_links] hands [create_links] three
    arguments for its four positional parameters, so every call of it raises
    [TypeError] before [create_links] runs: it never completes, and it fills
    no link. *)
Theorem recreate_links_raises (A : links) (fmat : fmatrix) (basis : list ffield) :
  recreate_links A fmat basis = Raise TypeError
  ∧ ∀ ps A', create_links A fmat basis ps = Ok A' →
             recreate_links A fmat basis ≠ create_links A fmat basis ps.
Proof. split; [done|]. intros ps A' HA'. unfold recreate_links. simpl. by rewrite HA'. Qed.

(** *** The boundary masks *)

Lemma fill_dirmasks_length (ncols : nat) (fwd bwd : list (list bool))
    (dm dm' : list mask) (mu : nat) :
  fill_dirmasks ncols fwd bwd dm mu = Ok dm' → length dm' = length dm.
Proof.
  unfold fill_dirmasks.
  destruct (getitem dm mu); simpl; [|done].
  destruct (column ncols fwd mu); simpl; [|done].
  destruct (getitem _ (mu + 4)); simpl; [|done].
  destruct (column ncols bwd mu); simpl; [|done].
  intros [= <-]. by rewrite !length_insert.
Qed.

Lemma setup_masks_length (f_grid c_grid : grid) (ms : masks) :
  setup_masks f_grid c_grid = Ok ms → length (dirmasks ms) = 8.
Proof.
  unfold setup_masks.
  destruct (block_size f_grid c_grid) as [block|]; simpl; [|done].
  destruct (for_each _ _ _) as [dm|] eqn:Hdm; simpl; [|done].
  intros [= <-]. simpl.
  assert (Hn : nhops (dirs f_grid) = 8).
  { unfold nhops, dirs. by case_decide. }
  rewrite Hn in Hdm.
  eapply (for_each_invariant _ (λ dm, length dm = 8)); [|exact Hdm|done].
  intros s x s' Hs <-. by eapply fill_dirmasks_length.
Qed.

(** On a four-dimensional fine grid the masks are built, and [dirmasks[p]] is
    the mask of the [p]-th pair of [dirdisps_full]: the forward edge of
    direction [p] for [p < 4], the backward edge of direction [p - 4] after. *)
Lemma setup_masks_4d (f_grid c_grid : grid) :
  nd f_grid = 4 → nd c_grid = 4 →
  ∃ ms block, setup_masks f_grid c_grid = Ok ms
    ∧ block_size f_grid c_grid = Ok block
    ∧ dirdisps_full (dirs f_grid)
      = [(0, 1%Z); (1, 1%Z); (2, 1%Z); (3, 1%Z);
         (0, (-1)%Z); (1, (-1)%Z); (2, (-1)%Z); (3, (-1)%Z)]
    ∧ ∀ mu, mu < 4 →
        dirmasks ms !! mu
        = Some (make_mask (fresh_mask f_grid)
                  ((λ x, default false (forward_edge block x !! mu))
                     <$> coordinates f_grid))
        ∧ dirmasks ms !! (mu + 4)
          = Some (make_mask (fresh_mask f_grid)
                    ((λ x, default false (backward_edge block x !! mu))
                       <$> coordinates f_grid)).
Proof.
  intros Hf Hc. unfold setup_masks, block_size, dirs.
  rewrite Hf, Hc. simpl. unfold column. simpl.
  eexists _, _. split_and!; [done|done|done|].
  intros mu Hmu. rewrite <- !list_fmap_compose.
  destruct mu as [|[|[|[|]]]]; [done..|lia].
Qed.

(** The mask construction on a five-dimensional fine grid.  [dirs] is then
    [[1, 2, 3, 4]] and the masks are stored at [dirmasks[mu]] and
    [dirmasks[mu + 4]]: for [mu = 4] the second index is [8], outside the
    eight masks, and the construction raises [IndexError]. *)
Lemma setup_masks_5d (f_grid c_grid : grid) :
  nd f_grid = 5 → nd c_grid = 5 → setup_masks f_grid c_grid = Raise IndexError.
Proof.
  intros Hf Hc. unfold setup_masks, block_size, dirs.
  rewrite Hf, Hc. simpl. unfold column. by simpl.
Qed.


(** *** comm_links *)

Lemma scale_blocks_entry (l : link csite) (n : nat) (x : csite) (a b : nat) :
  entry (scale_block (scale_block l 0 (n / 2) (n / 2) n c_m1) (n / 2) n 0 (n / 2) c_m1)
        x a b
  = if off_diagonal n a b then c_mul (entry l x a b) c_m1 else entry l x a b.
Proof.
  unfold off_diagonal. simpl.
  destruct (decide (a < n / 2 ∧ n / 2 ≤ b < n)) as [Hur|Hur];
    destruct (decide (n / 2 ≤ a < n ∧ b < n / 2)) as [Hll|Hll].
  - lia.
  - rewrite (bool_decide_eq_true_2 _ Hur), (bool_decide_eq_false_2 _ Hll). simpl.
    rewrite (bool_decide_eq_false_2 (n / 2 ≤ a < n)) by lia. simpl.
    rewrite (bool_decide_eq_true_2 (0 ≤ a < n / 2)) by lia.
    by rewrite (bool_decide_eq_true_2 (n / 2 ≤ b < n)) by lia.
  - rewrite (bool_decide_eq_false_2 _ Hur), (bool_decide_eq_true_2 _ Hll). simpl.
    rewrite (bool_decide_eq_true_2 (n / 2 ≤ a < n)) by lia.
    rewrite (bool_decide_eq_true_2 (0 ≤ b < n / 2)) by lia. simpl.
    by rewrite (bool_decide_eq_false_2 (0 ≤ a < n / 2)) by lia.
  - rewrite (bool_decide_eq_false_2 _ Hur), (bool_decide_eq_false_2 _ Hll). simpl.
    destruct (decide (n / 2 ≤ a < n)) as [Ha|Ha].
    + rewrite (bool_decide_eq_true_2 _ Ha).
      rewrite (bool_decide_eq_false_2 (0 ≤ b < n / 2)) by lia. simpl.
      by rewrite (bool_decide_eq_false_2 (0 ≤ a < n / 2)) by lia.
    + rewrite (bool_decide_eq_false_2 _ Ha). simpl.
      destruct (decide (0 ≤ a < n / 2)) as [Ha'|Ha'].
      * rewrite (bool_decide_eq_true_2 _ Ha').
        by rewrite (bool_decide_eq_false_2 (n / 2 ≤ b < n)) by lia.
      * by rewrite (bool_decide_eq_false_2 _ Ha').
Qed.

Lemma for_each_cons_Ok {S X : Type} (body : S → X → result S) (x : X)
    (xs : list X) (s s' : S) :
  body s x = Ok s' → for_each body (x :: xs) s = for_each body xs s'.
Proof. intros Hs. simpl. by rewrite Hs. Qed.

Lemma comm_link_step (hermitian : bool) (A : links) (p mu : nat) (fb : Z)
    (a_p a_0 dst : link csite) :
  A !! p = Some a_p → A !! 0 = Some a_0 → A !! (p + 4) = Some dst →
  (hermitian = false → shape0 a_0 mod 2 = 0) →
  comm_link hermitian A (p, (mu, fb))
  = Ok (<[p + 4 := adj (cshift (signed_copy hermitian (shape0 a_0) a_p) mu (fb * -1))]> A).
Proof.
  intros Hp H0 Hdst Heven. unfold comm_link, signed_copy.
  rewrite (getitem_Some _ _ _ Hp). simpl.
  destruct hermitian; simpl.
  - by rewrite (getitem_Some _ _ _ Hdst).
  - rewrite (getitem_Some _ _ _ H0). simpl.
    rewrite decide_True by (by apply Heven). simpl.
    by rewrite (getitem_Some _ _ _ Hdst).
Qed.

(** C5.  Called (as [create_links] does when [savelinks] is set) with nine
    links and the four forward directions, and with an even [nbasis] when
    [hermitian] is false, [comm_links] returns normally; for every forward
    index [p] with direction [mu] it leaves [A[p]] as it is and sets
    [A[p + 4]] to [adj(cshift(Atmp, mu, -1))], where [Atmp] is [A[p]] itself
    when [hermitian] is true, and [A[p]] with the entries of the upper right
    and lower left [nbasis/2 × nbasis/2] blocks multiplied by [-1.0], once,
    and all other entries unchanged, when [hermitian] is false. *)
Theorem comm_links_backward (A : links) (ds : list nat) (hermitian : bool)
    (a_0 : link csite) :
  length A = 9 → length ds = 4 → A !! 0 = Some a_0 →
  (hermitian = false → shape0 a_0 mod 2 = 0) →
  ∃ A', comm_links A (dirdisps_forward ds) hermitian = Ok A'
    ∧ A' !! 8 = A !! 8
    ∧ ∀ p mu a_p, ds !! p = Some mu → A !! p = Some a_p →
        ∃ Atmp, A' !! p = Some a_p
          ∧ A' !! (p + 4) = Some (adj (cshift Atmp mu (-1)))
          ∧ (hermitian = true → Atmp = a_p)
          ∧ link_grid Atmp = link_grid a_p ∧ shape0 Atmp = shape0 a_p
          ∧ ∀ x a b, entry Atmp x a b
              = if negb hermitian && off_diagonal (shape0 a_0) a b
                then c_mul (entry a_p x a b) c_m1 else entry a_p x a b.
Proof.
  intros HA Hds H0 Heven.
  destruct ds as [|m0 [|m1 [|m2 [|m3 [|]]]]]; try done.
  destruct A as [|l0 [|l1 [|l2 [|l3 [|l4 [|l5 [|l6 [|l7 [|l8 [|]]]]]]]]]]; try done.
  injection H0 as ->.
  unfold comm_links. rewrite decide_True by done.
  change (enumerate (dirdisps_forward [m0; m1; m2; m3]))
    with [(0, (m0, 1%Z)); (1, (m1, 1%Z)); (2, (m2, 1%Z)); (3, (m3, 1%Z))].
  do 4 (erewrite for_each_cons_Ok;
          [|eapply comm_link_step; [reflexivity|reflexivity|reflexivity|exact Heven]]).
  cbn [for_each].
  eexists. split; [done|]. split; [done|].
  assert (Hcopy : ∀ l, link_grid (signed_copy hermitian (shape0 a_0) l) = link_grid l
    ∧ shape0 (signed_copy hermitian (shape0 a_0) l) = shape0 l
    ∧ ∀ x a b, entry (signed_copy hermitian (shape0 a_0) l) x a b
        = if negb hermitian && off_diagonal (shape0 a_0) a b
          then c_mul (entry l x a b) c_m1 else entry l x a b).
  { intros l. unfold signed_copy. destruct hermitian; [done|].
    split_and!; [done|done|]. intros x a b. apply scale_blocks_entry. }
  intros p mu a_p Hmu Hp.
  exists (signed_copy hermitian (shape0 a_0) a_p).
  destruct (Hcopy a_p) as (Hg & Hs & He).
  assert (Hh : hermitian = true → signed_copy hermitian (shape0 a_0) a_p = a_p)
    by (by intros ->).
  destruct p as [|[|[|[|]]]]; try done;
    injection Hmu as <-; injection Hp as <-; by split_and!.
Qed.

End link_properties.

(** ** create_links: the loop over the basis *)

Lemma for_each_ext_in {S X : Type} (f g : S → X → result S) (xs : list X) :
  (∀ s x, x ∈ xs → f s x = g s x) →
  ∀ s, for_each f xs s = for_each g xs s.
Proof.
  induction xs as [|x xs IH]; intros Hfg s; simpl; [done|].
  rewrite (Hfg s x) by left.
  destruct (g s x) as [s'|e]; simpl; [|done].
  apply IH. intros s0 y Hy. apply Hfg. by right.
Qed.

(** A loop whose passes keep [P] raises only what a pass raises under [P]. *)
Lemma for_each_raise_inv {S X : Type} (body : S → X → result S)
    (P : S → Prop) (Q : exn → Prop) (xs : list X) :
  (∀ s x s', body s x = Ok s' → P s → P s') →
  (∀ s x e, body s x = Raise e → P s → Q e) →
  ∀ s e, for_each body xs s = Raise e → P s → Q e.
Proof.
  intros Hok Hraise. induction xs as [|x xs IH]; intros s e; simpl; [done|].
  destruct (body s x) as [s1|e1] eqn:Hs1; simpl.
  - intros Hrest Hs. eapply IH; [done|]. by eapply Hok.
  - intros [= <-] Hs. by eapply Hraise.
Qed.

Lemma enumerate_lookup {X : Type} (l : list X) (n : nat) :
  coarse.enumerate l !! n = (λ x, (n, x)) <$> l !! n.
Proof. unfold coarse.enumerate. apply list_lookup_imap. Qed.

Lemma enumerate_elem {X : Type} (l : list X) (n : nat) (x : X) :
  (n, x) ∈ coarse.enumerate l → l !! n = Some x.
Proof.
  intros [q Hq]%list_elem_of_lookup_1. rewrite enumerate_lookup in Hq.
  destruct (l !! q) as [y|] eqn:Hy; simpl in Hq; [|done].
  injection Hq as <- <-. done.
Qed.

Lemma enumerate_snoc {X : Type} (l : list X) (x : X) :
  coarse.enumerate (l ++ [x]) = coarse.enumerate l ++ [(length l, x)].
Proof.
  unfold coarse.enumerate. rewrite imap_app. simpl. by rewrite Nat.add_0_r.
Qed.

Lemma enumerate_length {X : Type} (l : list X) :
  length (coarse.enumerate l) = length l.
Proof. apply length_imap. Qed.

(** A loop whose passes all return, keeping [P], returns, with [P]. *)
Lemma for_each_total {S X : Type} (body : S → X → result S) (P : S → Prop)
    (xs : list X) :
  (∀ s x, x ∈ xs → P s → ∃ s', body s x = Ok s' ∧ P s') →
  ∀ s, P s → ∃ s', for_each body xs s = Ok s' ∧ P s'.
Proof.
  induction xs as [|x xs IH]; intros Hbody s Hs; simpl; [by exists s|].
  destruct (Hbody s x) as (s1 & -> & Hs1); [by left|done|]. simpl.
  apply IH; [|done]. intros s0 y Hy. apply Hbody. by right.
Qed.

Section fill_properties.
Context `{Ar : Arith} `{!Block}.
Import coarse.

Local Abbreviation links := (list (link csite)).

Lemma link_eq (l1 l2 : link csite) :
  link_grid l1 = link_grid l2 → shape0 l1 = shape0 l2 →
  (∀ x a b, entry l1 x a b = entry l2 x a b) → l1 = l2.
Proof.
  destruct l1 as [g1 n1 e1], l2 as [g2 n2 e2]. simpl. intros -> -> He.
  f_equal. extensionality x. extensionality a. extensionality b. apply He.
Qed.

Lemma entries_written_frame m v i a0 js :
  link_grid (entries_written m v i a0 js) = link_grid a0
  ∧ shape0 (entries_written m v i a0 js) = shape0 a0.
Proof.
  revert a0. induction js as [|jv js IH]; intros a0; simpl; [done|].
  destruct (IH (set_scalar a0 jv.1 i (masked_inner_product m jv.2 v))) as [-> ->].
  done.
Qed.

Lemma entries_written_entry m v i a0 (bs : list ffield) x a b :
  entry (entries_written m v i a0 (enumerate bs)) x a b
  = match bs !! a with
    | Some vl => if bool_decide (b = i) then masked_inner_product m vl v x
                 else entry a0 x a b
    | None => entry a0 x a b
    end.
Proof.
  induction bs as [|vl bs IH] using rev_ind; [done|].
  rewrite enumerate_snoc. unfold entries_written. rewrite foldl_snoc.
  fold (entries_written m v i a0 (enumerate bs)). simpl.
  destruct (decide (a = length bs)) as [->|Hne].
  - rewrite bool_decide_eq_true_2 by done. simpl.
    rewrite lookup_app_r by lia. rewrite Nat.sub_diag. simpl.
    case_bool_decide; [done|].
    rewrite IH. by rewrite (proj2 (lookup_ge_None bs (length bs))) by lia.
  - rewrite bool_decide_eq_false_2 by done. simpl. rewrite IH.
    destruct (decide (a < length bs)) as [Hlt|Hge].
    + by rewrite lookup_app_l by lia.
    + rewrite (proj2 (lookup_ge_None bs a)) by lia.
      rewrite (proj2 (lookup_ge_None (bs ++ [vl]) a)); [done|].
      rewrite length_app. simpl. lia.
Qed.

Section loop.
Variable fmat : fmatrix.
Variable basis : list ffield.
Variable c_grid : grid.
Variable ms : masks.
Variable dirdisps : list (nat * Z).
Variable selflink : nat.

(** The mask path for one direction: every pass rewrites [A[p]]. *)
Lemma coarsen_hop_entries (Mvr : list ffield) (i p : nat) (m : mask) (v : ffield) :
  dirmasks ms !! p = Some m → Mvr !! p = Some v →
  ∀ (js : list (nat * ffield)) (A : links) (a0 : link csite),
  A !! p = Some a0 →
  for_each (coarsen_hop_entry ms Mvr i p) js A
  = Ok (<[p := entries_written m v i a0 js]> A).
Proof.
  intros Hm Hv. induction js as [|[j vl] js IH]; intros A a0 Ha0; simpl.
  - by rewrite list_insert_id.
  - rewrite (getitem_Some _ _ _ Hm). simpl.
    rewrite (getitem_Some _ _ _ Hv). simpl.
    rewrite (getitem_Some _ _ _ Ha0). simpl.
    rewrite (IH _ (set_scalar a0 j i (masked_inner_product m vl v))).
    + by rewrite list_insert_insert_eq.
    + apply list_lookup_insert_eq. by eapply lookup_lt_Some.
Qed.

Lemma coarsen_hop_mask_Some (Mvr : list ffield) (i p : nat) (d : nat * Z)
    (m : mask) (v : ffield) (A : links) (a0 : link csite) :
  dirmasks ms !! p = Some m → Mvr !! p = Some v → A !! p = Some a0 →
  coarsen_hop_mask basis ms Mvr i A (p, d)
  = Ok (<[p := entries_written m v i a0 (enumerate basis)]> A).
Proof. intros Hm Hv Ha0. by apply coarsen_hop_entries. Qed.

Lemma coarsen_hop_mask_None (Mvr : list ffield) (i p : nat) (d : nat * Z)
    (m : mask) (v : ffield) (A : links) :
  dirmasks ms !! p = Some m → Mvr !! p = Some v → A !! p = None →
  basis ≠ [] →
  coarsen_hop_mask basis ms Mvr i A (p, d) = Raise IndexError.
Proof.
  intros Hm Hv Ha0 Hb. unfold coarsen_hop_mask.
  destruct basis as [|vl bs]; [done|]. simpl.
  rewrite (getitem_Some _ _ _ Hm). simpl.
  rewrite (getitem_Some _ _ _ Hv). simpl.
  unfold getitem. by rewrite Ha0.
Qed.


(** Under the contract of the lookup tables the two paths write the same
    link for a direction. *)
Lemma entries_written_vector (m : mask) (v : ffield) (i : nat) (a0 : link csite) :
  (∀ j vl x, basis !! j = Some vl →
     project_using_lut v basis (lookup_table c_grid m) x j
     = masked_inner_product m vl v x) →
  entries_written m v i a0 (enumerate basis)
  = set_vector a0 (length basis) i (project_using_lut v basis (lookup_table c_grid m)).
Proof.
  intros Hlut. destruct (entries_written_frame m v i a0 (enumerate basis)) as [Hg Hs].
  apply link_eq; [done|done|].
  intros x a b. rewrite entries_written_entry. simpl.
  destruct (basis !! a) as [vl|] eqn:Ha.
  - rewrite (bool_decide_eq_true_2 (a < length basis)) by (by eapply lookup_lt_Some).
    rewrite andb_true_r. case_bool_decide; [|done]. symmetry. by apply Hlut.
  - rewrite (bool_decide_eq_false_2 (a < length basis)); [by rewrite andb_false_r|].
    apply lookup_ge_None in Ha. lia.
Qed.

Lemma coarsen_hop_paths (dirluts : list lut) (Mvr : list ffield) (i p : nat)
    (d : nat * Z) (m : mask) (v : ffield) (A : links) :
  (∀ j vl x, basis !! j = Some vl →
     project_using_lut v basis (lookup_table c_grid m) x j
     = masked_inner_product m vl v x) →
  basis ≠ [] →
  dirmasks ms !! p = Some m → dirluts !! p = Some (lookup_table c_grid m) →
  Mvr !! p = Some v →
  coarsen_hop_lut basis dirluts Mvr i A (p, d)
  = coarsen_hop_mask basis ms Mvr i A (p, d).
Proof.
  intros Hlut Hb Hm Hl Hv. destruct (A !! p) as [a0|] eqn:Ha0.
  - rewrite (coarsen_hop_mask_Some Mvr i p d m v A a0) by done.
    unfold coarsen_hop_lut. simpl.
    rewrite (getitem_Some _ _ _ Hv). simpl.
    rewrite (getitem_Some _ _ _ Hl). simpl.
    rewrite (getitem_Some _ _ _ Ha0). simpl.
    by rewrite entries_written_vector.
  - rewrite (coarsen_hop_mask_None Mvr i p d m v A) by done.
    unfold coarsen_hop_lut. simpl.
    rewrite (getitem_Some _ _ _ Hv). simpl.
    rewrite (getitem_Some _ _ _ Hl). simpl.
    unfold getitem. by rewrite Ha0.
Qed.

(** The lookup tables of the directions, one per pair of [dirdisps]. *)
Lemma make_dirluts_Ok (pds : list (nat * (nat * Z))) :
  (∀ pd, pd ∈ pds → pd.1 < length (dirmasks ms)) →
  ∃ dirluts, make_dirluts c_grid ms pds = Ok dirluts
    ∧ ∀ q pd, pds !! q = Some pd →
        ∃ m, dirmasks ms !! pd.1 = Some m
          ∧ dirluts !! q = Some (lookup_table c_grid m).
Proof.
  induction pds as [|pd pds IH]; intros Hin.
  - by exists [].
  - destruct IH as (ls & Hls & Hlook).
    { intros pd' Hpd'. apply Hin. by right. }
    destruct (getitem_lt (dirmasks ms) pd.1) as (m & Hm & Hgm).
    { apply Hin. by left. }
    exists (lookup_table c_grid m :: ls). simpl. rewrite Hgm. simpl.
    rewrite Hls. simpl. split; [done|].
    intros [|q] pd' Hq; simpl in Hq.
    + injection Hq as <-. by exists m.
    + by apply Hlook.
Qed.

Lemma make_dirluts_raise (pds : list (nat * (nat * Z))) (e : exn) :
  make_dirluts c_grid ms pds = Raise e → no_assert e.
Proof.
  induction pds as [|pd pds IH]; simpl; [done|].
  destruct (getitem (dirmasks ms) pd.1) eqn:Hm; simpl;
    [|intros [= <-]; by eapply getitem_raise].
  destruct (make_dirluts c_grid ms pds); simpl; [done|].
  intros [= <-]. by apply IH.
Qed.

Lemma apply_hop_lookup (vr : ffield) (p : nat) (d : nat * Z) :
  dirdisps !! p = Some d →
  apply_hop fmat dirdisps vr !! p = Some (Mdir fmat vr d.1 d.2).
Proof. intros Hd. unfold apply_hop. by rewrite list_lookup_fmap, Hd. Qed.


Lemma set_vector_ext (a : link csite) (n i : nat) (v1 v2 : csite → nat → cplx) :
  (∀ x j, j < n → v1 x j = v2 x j) → set_vector a n i v1 = set_vector a n i v2.
Proof.
  intros Hv. apply link_eq; [done|done|]. intros x j b. simpl.
  destruct (bool_decide (b = i)); [|done].
  case_bool_decide; [|done]. simpl. by apply Hv.
Qed.

(** Writing a link of the same shape keeps the shapes of the links. *)
Lemma insert_same_shape (A : links) (p : nat) (a a' : link csite) :
  A !! p = Some a → shape0 a' = shape0 a →
  shape0 <$> <[p:=a']> A = shape0 <$> A.
Proof.
  intros Ha Hs. rewrite list_fmap_insert, Hs. apply list_insert_id.
  by rewrite list_lookup_fmap, Ha.
Qed.

Lemma coarsen_hop_lut_shapes (dirluts : list lut) (Mvr : list ffield) (i : nat)
    (A A' : links) (pd : nat * (nat * Z)) :
  coarsen_hop_lut basis dirluts Mvr i A pd = Ok A' →
  shape0 <$> A' = shape0 <$> A.
Proof.
  unfold coarsen_hop_lut.
  destruct (getitem Mvr pd.1); simpl; [|done].
  destruct (getitem dirluts pd.1); simpl; [|done].
  destruct (getitem A pd.1) as [lk|] eqn:Ha; simpl; [|done].
  intros [= <-]. apply getitem_Ok in Ha. by eapply insert_same_shape.
Qed.

Lemma coarsen_hop_mask_shapes (Mvr : list ffield) (i : nat)
    (A A' : links) (pd : nat * (nat * Z)) :
  coarsen_hop_mask basis ms Mvr i A pd = Ok A' →
  shape0 <$> A' = shape0 <$> A.
Proof.
  unfold coarsen_hop_mask. intros Hloop.
  eapply (for_each_invariant _ (λ A', shape0 <$> A' = shape0 <$> A));
    [|exact Hloop|done].
  intros s [j vl] s'. unfold coarsen_hop_entry.
  destruct (getitem (dirmasks ms) pd.1); simpl; [|done].
  destruct (getitem Mvr pd.1); simpl; [|done].
  destruct (getitem s pd.1) as [lk|] eqn:Ha; simpl; [|done].
  intros [= <-] <-. apply getitem_Ok in Ha. by eapply insert_same_shape.
Qed.

Lemma coarsen_vector_shapes (luts : option (list lut * lut))
    (A A' : links) (ivr : nat * ffield) :
  coarsen_vector fmat basis ms dirdisps selflink luts A ivr = Ok A' →
  shape0 <$> A' = shape0 <$> A.
Proof.
  destruct ivr as [i vr]. unfold coarsen_vector.
  destruct (for_each _ (enumerate dirdisps) A) as [A1|] eqn:Hhops; simpl; [|done].
  assert (shape0 <$> A1 = shape0 <$> A) as <-.
  { eapply (for_each_invariant _ (λ A', shape0 <$> A' = shape0 <$> A));
      [|exact Hhops|done].
    intros s pd s' Hs <-. destruct luts as [[dirluts fulllut]|].
    - by eapply coarsen_hop_lut_shapes.
    - by eapply coarsen_hop_mask_shapes. }
  destruct (getitem A1 selflink) as [lk|] eqn:Ha; simpl; [|done].
  intros [= <-]. apply getitem_Ok in Ha. by eapply insert_same_shape.
Qed.

Lemma coarsen_vector_raise (luts : option (list lut * lut))
    (A : links) (ivr : nat * ffield) (e : exn) :
  coarsen_vector fmat basis ms dirdisps selflink luts A ivr = Raise e →
  no_assert e.
Proof.
  destruct ivr as [i vr]. unfold coarsen_vector.
  destruct (for_each _ (enumerate dirdisps) A) as [A1|] eqn:Hhops; simpl.
  - destruct (getitem A1 selflink) eqn:Ha; simpl;
      [done|intros [= <-]; by eapply getitem_raise].
  - intros [= <-]. revert Hhops. apply for_each_raise.
    intros s pd e'. destruct luts as [[dirluts fulllut]|].
    + unfold coarsen_hop_lut.
      destruct (getitem (apply_hop fmat dirdisps vr) pd.1) eqn:H1; simpl;
        [|intros [= <-]; by eapply getitem_raise].
      destruct (getitem dirluts pd.1) eqn:H2; simpl;
        [|intros [= <-]; by eapply getitem_raise].
      destruct (getitem s pd.1) eqn:H3; simpl;
        [done|intros [= <-]; by eapply getitem_raise].
    + unfold coarsen_hop_mask. apply for_each_raise.
      intros s0 [j vl] ex. unfold coarsen_hop_entry.
      destruct (getitem (dirmasks ms) pd.1) eqn:H1; simpl;
        [|intros [= <-]; by eapply getitem_raise].
      destruct (getitem (apply_hop fmat dirdisps vr) pd.1) eqn:H2; simpl;
        [|intros [= <-]; by eapply getitem_raise].
      destruct (getitem s0 pd.1) eqn:H3; simpl;
        [done|intros [= <-]; by eapply getitem_raise].
Qed.

(** With the masks and (on the lookup-table path) the tables of all the
    directions in place, and links for all of them and for the self term,
    the pass for one basis vector returns. *)
Lemma coarsen_vector_Ok (luts : option (list lut * lut))
    (A : links) (ivr : nat * ffield) :
  length dirdisps ≤ length (dirmasks ms) →
  length dirdisps ≤ length A → selflink < length A →
  match luts with
  | Some (dirluts, _) => length dirdisps ≤ length dirluts
  | None => True
  end →
  ∃ A', coarsen_vector fmat basis ms dirdisps selflink luts A ivr = Ok A'.
Proof.
  intros Hdm HA Hself Hluts. destruct ivr as [i vr]. unfold coarsen_vector.
  destruct (for_each_total
    (match luts with
     | Some (dirluts, _) => coarsen_hop_lut basis dirluts (apply_hop fmat dirdisps vr) i
     | None => coarsen_hop_mask basis ms (apply_hop fmat dirdisps vr) i
     end) (λ A', length A' = length A) (enumerate dirdisps)) with A
    as (A1 & -> & HA1); [|done|].
  - intros s [p d] Hpd Hs. apply enumerate_elem in Hpd.
    pose proof (lookup_lt_Some _ _ _ Hpd) as Hp.
    destruct (lookup_lt_is_Some_2 s p) as [a Ha]; [lia|].
    destruct luts as [[dirluts fulllut]|].
    + destruct (lookup_lt_is_Some_2 dirluts p) as [l Hl]; [lia|].
      eexists. unfold coarsen_hop_lut. simpl.
      rewrite (getitem_Some _ _ _ (apply_hop_lookup vr p d Hpd)). simpl.
      rewrite (getitem_Some _ _ _ Hl). simpl.
      rewrite (getitem_Some _ _ _ Ha). simpl.
      split; [done|]. by rewrite length_insert.
    + destruct (lookup_lt_is_Some_2 (dirmasks ms) p) as [m Hm]; [lia|].
      eexists.
      rewrite (coarsen_hop_mask_Some _ i p d m _ s a Hm
                 (apply_hop_lookup vr p d Hpd) Ha).
      split; [done|]. by rewrite length_insert.
  - simpl. destruct (getitem_lt A1 selflink) as (a & _ & ->); [lia|]. simpl.
    by eexists.
Qed.


(** Under the contracts of the lookup tables, the pass for one basis vector
    is the same on the two paths. *)
Lemma coarsen_vector_paths (dirluts : list lut) (A : links) (ivr : nat * ffield) :
  (∀ m v j vl x, basis !! j = Some vl →
     project_using_lut v basis (lookup_table c_grid m) x j
     = masked_inner_product m vl v x) →
  (∀ v x j, j < length basis →
     project_using_lut v basis (lookup_table c_grid (onemask ms)) x j
     = project v basis x j) →
  basis ≠ [] →
  (∀ p d, dirdisps !! p = Some d →
     ∃ m, dirmasks ms !! p = Some m ∧ dirluts !! p = Some (lookup_table c_grid m)) →
  coarsen_vector fmat basis ms dirdisps selflink
    (Some (dirluts, lookup_table c_grid (onemask ms))) A ivr
  = coarsen_vector fmat basis ms dirdisps selflink None A ivr.
Proof.
  intros Hlut Hfull Hb Hdl. destruct ivr as [i vr]. unfold coarsen_vector.
  rewrite (for_each_ext_in _
             (coarsen_hop_mask basis ms (apply_hop fmat dirdisps vr) i)).
  - destruct (for_each _ (enumerate dirdisps) A) as [A1|]; simpl; [|done].
    destruct (getitem A1 selflink) as [lk|]; simpl; [|done].
    f_equal. f_equal. apply set_vector_ext. intros x j Hj. by apply Hfull.
  - intros s [p d] Hpd. apply enumerate_elem in Hpd.
    destruct (Hdl p d Hpd) as (m & Hm & Hl).
    eapply coarsen_hop_paths; [|done|exact Hm|exact Hl|by apply apply_hop_lookup].
    intros j vl x Hj. by apply Hlut.
Qed.

End loop.

(** *** create_links *)

Lemma setup_masks_onemask (f_grid c_grid : grid) (ms : masks) :
  setup_masks f_grid c_grid = Ok ms → onemask ms = ones (fresh_mask f_grid).
Proof.
  unfold setup_masks.
  destruct (block_size f_grid c_grid); simpl; [|done].
  destruct (for_each _ _ _); simpl; [|done].
  by intros [= <-].
Qed.

Lemma setup_masks_raise (f_grid c_grid : grid) (e : exn) :
  setup_masks f_grid c_grid = Raise e → no_assert e.
Proof.
  unfold setup_masks, block_size.
  case_decide; simpl; [|by intros [= <-]].
  destruct (for_each _ _ _) as [dm|] eqn:Hdm; simpl; [done|].
  intros [= <-]. revert Hdm. apply for_each_raise.
  intros s mu e'. unfold fill_dirmasks, column.
  destruct (getitem s mu) eqn:Hg1; simpl;
    [|intros [= <-]; by eapply getitem_raise].
  case_decide; simpl; [|by intros [= <-]].
  destruct (getitem _ (mu + 4)) eqn:Hg2; simpl;
    [done|intros [= <-]; by eapply getitem_raise].
Qed.

Lemma dirdisps_length (ds : list nat) (savelinks : bool) :
  length (if savelinks then dirdisps_forward ds else dirdisps_full ds) ≤ 8.
Proof.
  destruct savelinks; unfold dirdisps_forward, dirdisps_full;
    rewrite length_zip; simpl; lia.
Qed.

Lemma dirluts_of_dirdisps (c_grid : grid) (ms : masks) (dirdisps : list (nat * Z)) :
  length dirdisps ≤ length (dirmasks ms) →
  ∃ dirluts, make_dirluts c_grid ms (enumerate dirdisps) = Ok dirluts
    ∧ ∀ p d, dirdisps !! p = Some d →
        ∃ m, dirmasks ms !! p = Some m
          ∧ dirluts !! p = Some (lookup_table c_grid m).
Proof.
  intros Hlen.
  destruct (make_dirluts_Ok c_grid ms (enumerate dirdisps)) as (dirluts & Hd & Hlook).
  { intros [p d] Hpd. apply enumerate_elem, lookup_lt_Some in Hpd. simpl. lia. }
  exists dirluts. split; [done|]. intros p d Hpd.
  apply (Hlook p (p, d)). by rewrite enumerate_lookup, Hpd.
Qed.

(** C6.  If projecting with the lookup table of a mask gives, component by
    component, the masked inner products with the basis vectors over that
    mask, and with the table of the all-ones mask gives what [project] gives,
    then [create_links] with [uselut=True] and with [uselut=False] (and the
    same [A], [fmat], [basis], [hermitian] and [savelinks]) end alike: with
    the same exception, or with identical links. *)
Theorem create_links_lut_equivalence (A : links) (fmat : fmatrix)
    (basis : list ffield) (h s : bool) :
  (∀ g m v bs j vl x, bs !! j = Some vl →
     project_using_lut v bs (lookup_table g m) x j
     = masked_inner_product m vl v x) →
  (∀ g f v bs j x, j < length bs →
     project_using_lut v bs (lookup_table g (ones (fresh_mask f))) x j
     = project v bs x j) →
  create_links A fmat basis {| hermitian := h; savelinks := s; uselut := true |}
  = create_links A fmat basis {| hermitian := h; savelinks := s; uselut := false |}.
Proof.
  intros Hlut Hfull. unfold create_links. simpl.
  destruct (h && negb s); [done|].
  destruct (getitem basis 0) as [b_0|] eqn:Hb0; simpl; [|done].
  destruct (getitem A 0) as [a_0|] eqn:Ha0; simpl; [|done].
  destruct (setup_masks _ _) as [ms|] eqn:Hms; simpl; [|done].
  pose proof (setup_masks_length _ _ _ Hms) as Hlen.
  pose proof (setup_masks_onemask _ _ _ Hms) as Hone.
  set (dirdisps := if s then _ else _).
  destruct (dirluts_of_dirdisps (link_grid a_0) ms dirdisps) as (dirluts & -> & Hdl).
  { rewrite Hlen. apply dirdisps_length. }
  simpl.
  rewrite (for_each_ext_in _
    (coarsen_vector fmat basis ms dirdisps (nhops (dirs (grid_of b_0))) None)); [done|].
  intros A' ivr _. apply coarsen_vector_paths.
  - intros m v j vl x Hj. by apply Hlut.
  - intros v x j Hj. rewrite Hone. by apply Hfull.
  - apply getitem_Ok in Hb0. by destruct basis.
  - done.
Qed.


(** *** The assertions of create_links *)

Lemma comm_link_first (h : bool) (A A' : links) (pd : nat * (nat * Z)) :
  comm_link h A pd = Ok A' → A' !! 0 = A !! 0.
Proof.
  destruct pd as [p [mu fb]]. unfold comm_link.
  destruct (getitem A p) as [a_p|]; simpl; [|done].
  destruct (if h then _ else _) as [Atmp|]; simpl; [|done].
  destruct (getitem A (p + 4)); simpl; [|done].
  intros [= <-]. apply list_lookup_insert_ne. lia.
Qed.

Lemma comm_link_raise (h : bool) (A : links) (pd : nat * (nat * Z)) (e : exn) :
  comm_link h A pd = Raise e →
  no_assert e
  ∨ (h = false ∧ e = AssertionError assert_even_basis
     ∧ ∃ a_0, A !! 0 = Some a_0 ∧ shape0 a_0 mod 2 ≠ 0).
Proof.
  destruct pd as [p [mu fb]]. unfold comm_link.
  destruct (getitem A p) as [a_p|] eqn:Hp; simpl;
    [|intros [= <-]; left; by eapply getitem_raise].
  destruct h.
  - simpl. destruct (getitem A (p + 4)) eqn:Hd; simpl;
      [done|intros [= <-]; left; by eapply getitem_raise].
  - destruct (getitem A 0) as [a_0|] eqn:H0; simpl;
      [|intros [= <-]; left; by eapply getitem_raise].
    case_decide as Hpar; simpl.
    + destruct (getitem A (p + 4)) eqn:Hd; simpl;
        [done|intros [= <-]; left; by eapply getitem_raise].
    + intros [= <-]. right. split_and!; [done|done|].
      exists a_0. split; [by apply getitem_Ok|done].
Qed.

Lemma comm_links_raise (h : bool) (A : links) (dd : list (nat * Z)) (e : exn) :
  comm_links A dd h = Raise e →
  no_assert e
  ∨ e = AssertionError assert_link_count
  ∨ (h = false ∧ e = AssertionError assert_even_basis
     ∧ ∃ a_0, A !! 0 = Some a_0 ∧ shape0 a_0 mod 2 ≠ 0).
Proof.
  unfold comm_links. case_decide; [|intros [= <-]; by right; left].
  intros Hloop.
  assert (no_assert e ∨ (h = false ∧ e = AssertionError assert_even_basis
     ∧ ∃ a_0, A !! 0 = Some a_0 ∧ shape0 a_0 mod 2 ≠ 0)) as [?|?];
    [|by left|by right; right].
  eapply (for_each_raise_inv (comm_link h) (λ s, s !! 0 = A !! 0)
            (λ e, no_assert e ∨ (h = false ∧ e = AssertionError assert_even_basis
               ∧ ∃ a_0, A !! 0 = Some a_0 ∧ shape0 a_0 mod 2 ≠ 0)));
    [| |exact Hloop|done].
  - intros s pd s' Hs <-. by eapply comm_link_first.
  - intros s pd e' He' <-. by eapply comm_link_raise.
Qed.

(** With nine links and four forward directions, an odd [nbasis] stops
    [comm_links] at its first pass when [hermitian] is false. *)
Lemma comm_links_odd (A : links) (ds : list nat) (a_0 : link csite) :
  length A = 9 → length ds = 4 → A !! 0 = Some a_0 → shape0 a_0 mod 2 ≠ 0 →
  comm_links A (dirdisps_forward ds) false
  = Raise (AssertionError assert_even_basis).
Proof.
  intros HA Hds H0 Hodd.
  destruct ds as [|m0 [|m1 [|m2 [|m3 [|]]]]]; try done.
  unfold comm_links. rewrite decide_True by (by rewrite HA).
  change (enumerate (dirdisps_forward [m0; m1; m2; m3]))
    with [(0, (m0, 1%Z)); (1, (m1, 1%Z)); (2, (m2, 1%Z)); (3, (m3, 1%Z))].
  assert (Hfirst : comm_link false A (0, (m0, 1%Z))
                   = Raise (AssertionError assert_even_basis)).
  { unfold comm_link. rewrite (getitem_Some _ _ _ H0). simpl.
    by rewrite decide_False. }
  cbn [for_each]. by rewrite Hfirst.
Qed.

Lemma dirs_length (f_grid : grid) : length (dirs f_grid) = 4.
Proof. unfold dirs. by case_decide. Qed.

(** Every way [create_links] can raise: the precondition, an exception that
    is no assertion, or one of the two assertions of [comm_links]. *)
Lemma create_links_raise (A : links) (fmat : fmatrix) (basis : list ffield)
    (ps : params) (e : exn) :
  create_links A fmat basis ps = Raise e →
  (e = AssertionError assert_precondition
   ∧ hermitian ps = true ∧ savelinks ps = false)
  ∨ no_assert e
  ∨ (savelinks ps = true ∧ e = AssertionError assert_link_count)
  ∨ (savelinks ps = true ∧ hermitian ps = false
     ∧ e = AssertionError assert_even_basis
     ∧ ∃ a_0, A !! 0 = Some a_0 ∧ shape0 a_0 mod 2 ≠ 0).
Proof.
  unfold create_links.
  destruct (hermitian ps && negb (savelinks ps)) eqn:Hpre.
  { intros [= <-]. left. apply andb_true_iff in Hpre as [-> Hs].
    apply negb_true_iff in Hs. done. }
  destruct (getitem basis 0) as [b_0|] eqn:Hb0; simpl;
    [|intros [= <-]; right; left; by eapply getitem_raise].
  destruct (getitem A 0) as [a_0|] eqn:Ha0; simpl;
    [|intros [= <-]; right; left; by eapply getitem_raise].
  destruct (setup_masks _ _) as [ms|] eqn:Hms; simpl;
    [|intros [= <-]; right; left; by eapply setup_masks_raise].
  set (dirdisps := if savelinks ps then _ else _).
  destruct (if uselut ps then _ else _) as [luts|] eqn:Hluts; simpl.
  2:{ intros [= <-]. right; left. destruct (uselut ps); [|done].
      destruct (make_dirluts _ _ _) eqn:Hd; simpl in Hluts; [done|].
      injection Hluts as <-. by eapply make_dirluts_raise. }
  destruct (for_each _ (enumerate basis) A) as [A1|] eqn:Hfill; simpl.
  2:{ intros [= <-]. right; left. revert Hfill. apply for_each_raise.
      intros s ivr e'. apply coarsen_vector_raise. }
  assert (Hshapes : shape0 <$> A1 = shape0 <$> A).
  { eapply (for_each_invariant _ (λ A', shape0 <$> A' = shape0 <$> A));
      [|exact Hfill|done].
    intros s ivr s' Hs <-. by eapply coarsen_vector_shapes. }
  destruct (savelinks ps); [|done].
  intros Hcomm. apply comm_links_raise in Hcomm as [?|[->|(Hh & -> & a_1 & Ha1 & Hodd)]].
  - by right; left.
  - by right; right; left.
  - right; right; right. split_and!; try done.
    exists a_0. split; [by apply getitem_Ok|].
    apply getitem_Ok in Ha0.
    assert ((shape0 <$> A1) !! 0 = (shape0 <$> A) !! 0) as Heq by (by rewrite Hshapes).
    rewrite !list_lookup_fmap, Ha1, Ha0 in Heq. simpl in Heq.
    injection Heq as <-. done.
Qed.

(** On four-dimensional grids, with a basis and nine links, the loop over
    the basis returns, and [comm_links] gets links of the shapes of [A]. *)
Lemma create_links_reaches_comm (A : links) (fmat : fmatrix)
    (basis : list ffield) (ps : params) (b_0 : ffield) (a_0 : link csite) :
  hermitian ps && negb (savelinks ps) = false →
  basis !! 0 = Some b_0 → A !! 0 = Some a_0 →
  nd (grid_of b_0) = 4 → nd (link_grid a_0) = 4 → length A = 9 →
  ∃ A1, shape0 <$> A1 = shape0 <$> A
    ∧ create_links A fmat basis ps
      = if savelinks ps
        then comm_links A1 (dirdisps_forward (dirs (grid_of b_0))) (hermitian ps)
        else Ok A1.
Proof.
  intros Hpre Hb0 Ha0 Hf Hc HA. unfold create_links. rewrite Hpre.
  rewrite (getitem_Some _ _ _ Hb0), (getitem_Some _ _ _ Ha0). simpl.
  destruct (setup_masks_4d (grid_of b_0) (link_grid a_0) Hf Hc)
    as (ms & block & Hms & _). rewrite Hms. simpl.
  pose proof (setup_masks_length _ _ _ Hms) as Hlen.
  set (dirdisps := if savelinks ps then _ else _).
  assert (Hdd : length dirdisps ≤ 8) by apply dirdisps_length.
  assert (Hself : nhops (dirs (grid_of b_0)) = 8).
  { unfold nhops, dirs. by case_decide. }
  assert (∃ luts,
    (if uselut ps
     then dirluts ← make_dirluts (link_grid a_0) ms (enumerate dirdisps);
          Ok (Some (dirluts, lookup_table (link_grid a_0) (onemask ms)))
     else Ok None) = Ok luts
    ∧ match luts with
      | Some (dirluts, _) => length dirdisps ≤ length dirluts
      | None => True
      end) as (luts & -> & Hluts).
  { destruct (uselut ps); [|by exists None].
    destruct (dirluts_of_dirdisps (link_grid a_0) ms dirdisps) as (dl & -> & Hdl);
      [lia|].
    eexists. split; [done|]. simpl.
    destruct (decide (length dirdisps ≤ length dl)) as [|Hn]; [done|].
    destruct (lookup_lt_is_Some_2 dirdisps (length dl)) as [d Hd]; [lia|].
    destruct (Hdl _ _ Hd) as (m & _ & Hl). apply lookup_lt_Some in Hl. lia. }
  simpl.
  destruct (for_each_total
    (coarsen_vector fmat basis ms dirdisps (nhops (dirs (grid_of b_0))) luts)
    (λ A', shape0 <$> A' = shape0 <$> A) (enumerate basis)) with A
    as (A1 & -> & HA1); [|done|].
  - intros s ivr _ Hs.
    assert (length s = 9) as Hs9.
    { rewrite <- (length_fmap shape0 s), Hs, length_fmap. done. }
    destruct (coarsen_vector_Ok fmat basis ms dirdisps
                (nhops (dirs (grid_of b_0))) luts s ivr) as (s' & Hs');
      [lia|lia|lia|done|].
    exists s'. split; [done|]. rewrite <- Hs. by eapply coarsen_vector_shapes.
  - simpl. by exists A1.
Qed.

End fill_properties.

Section create_links_properties.
Context `{Ar : Arith} `{!Block}.
Import coarse.

Local Abbreviation links := (list (link csite)).

(** C7, as amended.  [create_links] fails with the assertion of its
    precondition for every call with [hermitian=True] and [savelinks=False].
    It fails with the assertion [nbasis % 2 == 0] for every call with
    [hermitian=False], [savelinks=True] and an odd [nbasis] that gets as far
    as [comm_links] (four-dimensional fine and coarse grids, a basis that is
    not empty, nine links); with [savelinks=False], [comm_links] is not
    called and that assertion is never evaluated.  For all other
    combinations neither of the two assertions fires. *)
Theorem create_links_assertions (A : links) (fmat : fmatrix)
    (basis : list ffield) (ps : params) :
  (hermitian ps = true ∧ savelinks ps = false →
   create_links A fmat basis ps = Raise (AssertionError assert_precondition))
  ∧ (hermitian ps = false ∧ savelinks ps = true →
     ∀ b_0 a_0, basis !! 0 = Some b_0 → A !! 0 = Some a_0 →
       nd (grid_of b_0) = 4 → nd (link_grid a_0) = 4 → length A = 9 →
       shape0 a_0 mod 2 ≠ 0 →
       create_links A fmat basis ps = Raise (AssertionError assert_even_basis))
  ∧ (savelinks ps = false →
     create_links A fmat basis ps ≠ Raise (AssertionError assert_even_basis))
  ∧ (¬ (hermitian ps = true ∧ savelinks ps = false) →
     create_links A fmat basis ps ≠ Raise (AssertionError assert_precondition))
  ∧ (hermitian ps = true ∨ (∀ a_0, A !! 0 = Some a_0 → shape0 a_0 mod 2 = 0) →
     create_links A fmat basis ps ≠ Raise (AssertionError assert_even_basis)).
Proof.
  split_and!.
  - intros [Hh Hs]. unfold create_links. by rewrite Hh, Hs.
  - intros [Hh Hs] b_0 a_0 Hb0 Ha0 Hf Hc HA Hodd.
    destruct (create_links_reaches_comm A fmat basis ps b_0 a_0)
      as (A1 & Hshapes & ->); try done.
    { by rewrite Hh. }
    rewrite Hs, Hh.
    assert ((shape0 <$> A1) !! 0 = (shape0 <$> A) !! 0) as Heq by (by rewrite Hshapes).
    rewrite !list_lookup_fmap, Ha0 in Heq.
    destruct (A1 !! 0) as [a_1|] eqn:Ha1; [|done].
    simpl in Heq. injection Heq as Heq.
    apply (comm_links_odd A1 _ a_1); [|apply dirs_length|done|by rewrite Heq].
    rewrite <- (length_fmap shape0 A1), Hshapes, length_fmap. done.
  - intros Hs Hraise.
    apply create_links_raise in Hraise
      as [(? & _)|[?|[(Hs' & _)|(Hs' & _)]]]; try done; congruence.
  - intros Hpre Hraise.
    apply create_links_raise in Hraise
      as [(_ & ? & ?)|[?|[(_ & ?)|(_ & _ & ? & _)]]]; try done. by apply Hpre.
  - intros Hok Hraise.
    apply create_links_raise in Hraise
      as [(? & _)|[?|[(_ & ?)|(_ & Hh & _ & a_0 & Ha0 & Hodd)]]]; try done.
    destruct Hok as [Hh'|Heven]; [congruence|]. by apply Hodd, Heven.
Qed.

(** C9: what the code does on a five-dimensional fine grid.  With
    [f_grid.nd == 5] the directions are [[1, 2, 3, 4]], and the masks of
    direction [mu] are stored at [dirmasks[mu]] and [dirmasks[mu + 4]]: for
    [mu = 4] the index [8] is outside the eight masks, so every call that
    passes the precondition raises [IndexError] while it builds the masks. *)
Theorem create_links_5d_raises (A : links) (fmat : fmatrix)
    (basis : list ffield) (ps : params) (b_0 : ffield) (a_0 : link csite) :
  hermitian ps && negb (savelinks ps) = false →
  basis !! 0 = Some b_0 → A !! 0 = Some a_0 →
  nd (grid_of b_0) = 5 → nd (link_grid a_0) = 5 →
  create_links A fmat basis ps = Raise IndexError.
Proof.
  intros Hpre Hb0 Ha0 Hf Hc. unfold create_links. rewrite Hpre.
  rewrite (getitem_Some _ _ _ Hb0), (getitem_Some _ _ _ Ha0). simpl.
  by rewrite (setup_masks_5d _ _ Hf Hc).
Qed.

End create_links_properties.

(** *** Runs on the ring of coarse sites *)

Section link_runs.
#[local] Existing Instance toy.gauss_arith.
#[local] Existing Instance toy.ring_block.
Import blocks.

Lemma comm_links_backward_witness :
  length (links_of coarse4 2) = 9 ∧ length [0; 1; 2; 3] = 4
  ∧ links_of coarse4 2 !! 0 = Some (link0 coarse4 2 0)
  ∧ (false = false → shape0 (link0 coarse4 2 0) mod 2 = 0)
  ∧ ∃ A', comm_links (links_of coarse4 2)
            (coarse.dirdisps_forward [0; 1; 2; 3]) false = Ok A'
          ∧ A' !! 8 = links_of coarse4 2 !! 8.
Proof.
  assert (H9 : length (links_of coarse4 2) = 9) by reflexivity.
  assert (H4 : length [0; 1; 2; 3] = 4) by reflexivity.
  assert (H0 : links_of coarse4 2 !! 0 = Some (link0 coarse4 2 0)) by reflexivity.
  assert (Heven : false = false → shape0 (link0 coarse4 2 0) mod 2 = 0)
    by (intros _; reflexivity).
  split_and!; [exact H9|exact H4|exact H0|exact Heven|].
  destruct (@comm_links_backward toy.gauss_arith toy.ring_block (links_of coarse4 2) [0; 1; 2; 3] false
              (link0 coarse4 2 0) H9 H4 H0 Heven) as (A' & HA' & H8 & _).
  exists A'. by split.
Defined.

(** The toy lookup table of a mask is the mask, and projecting with it sums
    over the mask: both contracts hold by computation. *)
Lemma create_links_lut_equivalence_witness :
  (∀ g m v bs j vl x, bs !! j = Some vl →
     project_using_lut v bs (lookup_table g m) x j
     = masked_inner_product m vl v x)
  ∧ (∀ g f v bs j x, j < length bs →
       project_using_lut v bs (lookup_table g (ones (fresh_mask f))) x j
       = project v bs x j)
  ∧ create_links (links_of coarse4 2) (2, 1)%Z (basis_of fine4 2)
      (params_of false true true)
    = create_links (links_of coarse4 2) (2, 1)%Z (basis_of fine4 2)
        (params_of false true false).
Proof.
  assert (Hlut : ∀ g m v bs j vl x, bs !! j = Some vl →
     project_using_lut v bs (lookup_table g m) x j
     = masked_inner_product m vl v x).
  { intros g m v bs j vl x Hj.
    change (toy.ring_project_using_lut v bs m x j = toy.masked_sum m vl.2 v.2).
    unfold toy.ring_project_using_lut.
    cbv [ffield toy.ring_block] in Hj. by rewrite Hj. }
  assert (Hfull : ∀ g f v bs j x, j < length bs →
     project_using_lut v bs (lookup_table g (ones (fresh_mask f))) x j
     = project v bs x j) by reflexivity.
  split_and!; [exact Hlut|exact Hfull|].
  exact (@create_links_lut_equivalence toy.gauss_arith toy.ring_block
           (links_of coarse4 2) (2, 1)%Z
           (basis_of fine4 2) false true Hlut Hfull).
Defined.

(** C7 as stated fails: with [hermitian=False] and [savelinks=False] an odd
    [nbasis] (three here) raises no assertion, [create_links] returns. *)
Lemma odd_basis_without_savelinks_counterexample :
  shape0 (link0 coarse4 3 0) mod 2 = 1
  ∧ ∃ A', create_links (links_of coarse4 3) (2, 1)%Z (basis_of fine4 3)
            (params_of false false false) = Ok A'.
Proof.
  split; [reflexivity|].
  destruct (@create_links_reaches_comm toy.gauss_arith toy.ring_block
              (links_of coarse4 3) (2, 1)%Z
              (basis_of fine4 3) (params_of false false false)
              (ramp fine4 1) (link0 coarse4 3 0)) as (A1 & _ & HA1);
    try reflexivity.
  by exists A1.
Qed.

(** With [savelinks=True] the same odd [nbasis] does stop [comm_links]. *)
Example odd_basis_with_savelinks :
  create_links (links_of coarse4 3) (2, 1)%Z (basis_of fine4 3)
    (params_of false true false)
  = Raise (AssertionError assert_even_basis).
Proof. vm_compute. reflexivity. Qed.

Lemma create_links_5d_raises_witness :
  coarse.hermitian (params_of false false true)
    && negb (coarse.savelinks (params_of false false true)) = false
  ∧ basis_of fine5 2 !! 0 = Some (ramp fine5 1)
  ∧ links_of coarse5 2 !! 0 = Some (link0 coarse5 2 0)
  ∧ nd (grid_of (ramp fine5 1)) = 5 ∧ nd (link_grid (link0 coarse5 2 0)) = 5
  ∧ create_links (links_of coarse5 2) (2, 1)%Z (basis_of fine5 2)
      (params_of false false true) = Raise IndexError.
Proof.
  split_and!; [reflexivity|reflexivity|reflexivity|reflexivity|reflexivity|].
  exact (@create_links_5d_raises toy.gauss_arith toy.ring_block
           (links_of coarse5 2) (2, 1)%Z (basis_of fine5 2)
           (params_of false false true) (ramp fine5 1) (link0 coarse5 2 0)
           eq_refl eq_refl eq_refl eq_refl eq_refl).
Defined.

(** On the four-dimensional grid the same call returns. *)
Example create_links_4d_returns :
  match create_links (links_of coarse4 2) (2, 1)%Z (basis_of fine4 2)
          (params_of false false true) with
  | Ok A' => length A' = 9
  | Raise _ => False
  end.
Proof. vm_compute. reflexivity. Qed.

Example recreate_links_run :
  recreate_links (links_of coarse4 2) (2, 1)%Z (basis_of fine4 2)
  = Raise TypeError.
Proof. reflexivity. Qed.

End link_runs.

(** * Further properties of the code

    As everywhere in this development, what gpt and numpy supply (fields,
    inner products, projections, shifts) are the total operations of
    [Arith], [Lattice] and [Block]: an exception, below, is one the two
    files raise themselves, by an [assert], an index or a division.  The
    links hold matrices of the size of the basis, so that the slice
    assignments of [create_links] fit. *)

(** ** The solver: exceptions, stop reasons and invariants *)

Section solver_safety.
Context `{Ar : Arith} {F : Type} `{!Lattice F}.
Import fgcr.
Variable self : @fgcr Ar F.
Variable mat : F → F.
Variable verbose : bool.

Local Abbreviation state := (@state Ar F).

Lemma allocate_shaped (psi0 src : F) : shaped (rlen self) (allocate self psi0 src).
Proof.
  constructor; simpl; rewrite ?length_replicate; try done.
  apply Forall_replicate. by rewrite length_replicate.
Qed.

Lemma restart_shaped (n : nat) (st : state) (src : F) :
  shaped n st → shaped n (restart self mat st src).1.
Proof.
  intros [? ? ? ? ? ? ?]. unfold restart.
  destruct (prec self); constructor; simpl; rewrite ?length_fmap; done.
Qed.

Lemma report_shaped (n : nat) (st : state) (src : F) :
  shaped n st → shaped n (report self mat verbose st src).
Proof.
  intros Hs. unfold report. destruct (verbose && checkres self); [|done].
  destruct Hs. by constructor.
Qed.

Lemma get_column_total (b : list (list cplx)) (i n : nat) :
  Forall (λ row, length row = n) b → i < n → ∃ col, get_column b i = Ok col.
Proof.
  intros Hb Hi. induction Hb as [|row b Hrow _ IH]; [by exists []|].
  destruct IH as (col & Hcol).
  destruct (getitem_lt row i) as (c & _ & Hc); [lia|].
  exists (c :: col). simpl. by rewrite Hc, Hcol.
Qed.

Lemma set_column_shaped (b : list (list cplx)) (i n : nat) (col : list cplx) :
  length b = n → Forall (λ row, length row = n) b →
  length (set_column b i col) = n
  ∧ Forall (λ row, length row = n) (set_column b i col).
Proof.
  intros Hlen Hrows. unfold set_column. split; [by rewrite length_imap|].
  apply Forall_lookup. intros j row Hj. rewrite list_lookup_imap in Hj.
  destruct (b !! j) as [row0|] eqn:Hb; [|done]. simpl in Hj. injection Hj as <-.
  rewrite Forall_lookup in Hrows. specialize (Hrows j row0 Hb).
  destruct (col !! j); [by rewrite length_insert|done].
Qed.

Lemma krylov_step_total (n i : nat) (st : state) :
  shaped n st → i < n →
  ∃ st1 ip, krylov_step self mat i st = Ok (st1, ip) ∧ shaped n st1.
Proof.
  intros [Hp Hm Ha Hb Hrows Hg Hd] Hi. unfold krylov_step.
  destruct (getitem_lt (p st) i) as (p_i & _ & ->); [lia|]. simpl.
  destruct (getitem_lt (mmp st) i) as (m_i & _ & ->); [lia|]. simpl.
  destruct (get_column_total (beta st) i n Hrows Hi) as (col & ->). simpl.
  destruct (orthogonalize _ _ _) as [w' col'].
  rewrite setitem_lt by lia. simpl.
  eexists _, _. split; [done|].
  destruct (set_column_shaped (beta st) i n col' Hb Hrows).
  constructor; simpl; rewrite ?length_insert; done.
Qed.

Lemma residual_step_total (n i : nat) (g : real) (ip : cplx) (st : state) :
  shaped n st → i < n →
  ∃ st2 r2, residual_step i g ip st = Ok (st2, r2) ∧ shaped n st2.
Proof.
  intros [Hp Hm Ha Hb Hrows Hg Hd] Hi. unfold residual_step.
  destruct (getitem_lt (mmp st) i) as (w & _ & ->); [lia|]. simpl.
  rewrite setitem_lt by lia. simpl.
  destruct (getitem_lt (<[i:=c_div_r ip g]> (alpha st)) i) as (a & _ & ->);
    [rewrite length_insert; lia|]. simpl.
  eexists _, _. split; [done|].
  constructor; simpl; rewrite ?length_insert; done.
Qed.

Lemma update_psi_total (n i : nat) (st : state) :
  shaped n st → i < n → ∃ st3, update_psi st i = Ok st3 ∧ shaped n st3.
Proof.
  intros Hs Hi. unfold update_psi.
  destruct (substitute_loop n i st (i + 1) Hs ltac:(lia) Hi) as (dl & -> & Hdl & _).
  simpl. pose proof (shaped_with_delta n st dl Hs Hdl) as Hs1.
  rewrite (accumulate_loop n _ (i + 1) Hs1) by lia.
  eexists. split; [done|]. destruct Hs1. by constructor.
Qed.



(** The set-up either fails its assertion or returns the state [restart]
    leaves, with a source norm [ssq] that is not zero. *)
Lemma setup_cases (psi0 src : F) :
  let r2 := norm2 (axpy c_m1 (mat psi0) src) in
  setup self mat psi0 src
  = if r_eqb (norm2 src) r_zero && r_eqb r2 r_zero
    then Raise (AssertionError assert_source_or_guess)
    else Ok ((restart self mat (allocate self psi0 src) src).1,
             {| ssq := if r_eqb (norm2 src) r_zero then r2 else norm2 src;
                rsq := r_mul (r_pow2 (eps self))
                         (if r_eqb (norm2 src) r_zero then r2 else norm2 src) |}).
Proof.
  intros r2.
  assert (Hre : restart self mat (allocate self psi0 src) src
                = ((restart self mat (allocate self psi0 src) src).1, r2)).
  { unfold restart. by destruct (prec self). }
  unfold setup. rewrite Hre.
  destruct (r_eqb (norm2 src) r_zero); [destruct (r_eqb r2 r_zero)|]; done.
Qed.

Lemma setup_Ok (psi0 src : F) (st0 : state) (tg : target) :
  setup self mat psi0 src = Ok (st0, tg) →
  st0 = (restart self mat (allocate self psi0 src) src).1
  ∧ r_eqb (ssq tg) r_zero = false
  ∧ shaped (rlen self) st0.
Proof.
  rewrite setup_cases.
  destruct (r_eqb (norm2 src) r_zero) eqn:H1;
    [destruct (r_eqb (norm2 (axpy c_m1 (mat psi0) src)) r_zero) eqn:H2|];
    simpl; [done| |]; intros [= <- <-]; simpl;
    (split_and!; [done|done|apply restart_shaped, allocate_shaped]).
Qed.


(** X2.  [inv] keeps the extents of its work arrays: whatever the loop did, on
    return [p], [mmp], [alpha], [gamma] and [delta] have [restartlen] entries
    and [beta] is [restartlen] by [restartlen]. *)
Theorem inv_keeps_extents (psi0 src : F) (why : stop) (st : state) :
  inv self mat verbose psi0 src = Ok (why, st) → shaped (restartlen self) st.
Proof.
  unfold inv.
  destruct (setup self mat psi0 src) as [[st0 tg]|] eqn:Hsetup; simpl; [|done].
  apply setup_Ok in Hsetup as (_ & _ & Hs0).
  revert Hs0. generalize 0 at 1. generalize st0. clear st0.
  induction (maxiter self) as [|n IH]; intros st0 k Hs0; simpl.
  - by intros [= _ <-].
  - destruct (iteration self mat verbose tg src k st0) as [s|] eqn:Hit; simpl; [|done].
    assert (shaped (rlen self) (match s with Continue st' => st' | Break _ st' => st' end))
      as Hs.
    { revert Hit. unfold iteration. case_decide as Hrlen; [done|].
      pose proof (Nat.mod_upper_bound k (rlen self) Hrlen) as Hi.
      destruct (krylov_step_total _ _ st0 Hs0 Hi) as (st1 & ip & -> & Hs1). simpl.
      destruct (getitem (gamma st1) _) as [g|]; simpl; [|done].
      destruct (r_eqb g r_zero); [by intros [= <-]|].
      destruct (residual_step_total _ _ g ip st1 Hs1 Hi) as (st2 & r2 & -> & Hs2). simpl.
      destruct (_ || _ || _); [|by intros [= <-]].
      destruct (update_psi_total _ _ st2 Hs2 Hi) as (st3 & -> & Hs3). simpl.
      destruct (r_eqb (ssq tg) r_zero); [done|].
      destruct (r_leb r2 (rsq tg)); [intros [= <-]; by apply report_shaped|].
      destruct (bool_decide (k + 1 = maxiter self));
        [intros [= <-]; by apply report_shaped|].
      destruct (bool_decide (_ = rlen self)); intros [= <-]; [|done].
      by apply restart_shaped. }
    destruct s as [st'|why' st']; [by apply IH|]. by intros [= _ <-].
Qed.

End solver_safety.

Section solver_stops.
Context `{Ar : Arith} {F : Type} `{!Lattice F}.
Import fgcr.
Variable self : @fgcr Ar F.
Variable mat : F → F.
Variable verbose : bool.

Local Abbreviation state := (@state Ar F).

(** How a pass leaves the loop. *)
Lemma iteration_break (tg : target) (src : F) (k : nat) (st st' : state) (why : stop) :
  iteration self mat verbose tg src k st = Ok (Break why st') →
  match why with
  | Converged =>
      ∃ r2, history st' = history st ++ [r2] ∧ r_leb r2 (rsq tg) = true
  | NotConverged =>
      k + 1 = maxiter self
      ∧ ∃ r2, history st' = history st ++ [r2] ∧ r_leb r2 (rsq tg) = false
  | Breakdown => history st' = history st
  | RangeExhausted => False
  end.
Proof.
  unfold iteration. case_decide as Hrlen; [done|].
  destruct (krylov_step _ _ _ _) as [[st1 ip]|] eqn:Hk; simpl; [|done].
  destruct (getitem (gamma st1) _) as [g|]; simpl; [|done].
  apply krylov_step_frame in Hk as (_ & _ & Hk3).
  destruct (r_eqb g r_zero); [by intros [= <- <-]|].
  destruct (residual_step _ _ _ _) as [[st2 r2]|] eqn:Hr; simpl; [|done].
  apply residual_step_frame in Hr as (_ & _ & Hr3).
  destruct (_ || _ || _); [|done].
  destruct (update_psi st2 _) as [st3|] eqn:Hu; simpl; [|done].
  apply update_psi_frame in Hu as (_ & _ & _ & _ & _ & _ & _ & Hh).
  destruct (r_eqb (ssq tg) r_zero); [done|].
  destruct (r_leb r2 (rsq tg)) eqn:Hconv.
  { intros [= <- <-]. exists r2.
    destruct (report_frame self mat verbose st3 src) as (_ & _ & ->).
    by rewrite Hh, Hr3, Hk3. }
  destruct (bool_decide (k + 1 = maxiter self)) eqn:Hmax.
  { intros [= <- <-]. apply bool_decide_eq_true in Hmax. split; [done|]. exists r2.
    destruct (report_frame self mat verbose st3 src) as (_ & _ & ->).
    by rewrite Hh, Hr3, Hk3. }
  by destruct (bool_decide (_ = rlen self)).
Qed.

(** The last pass of the range never goes on. *)
Lemma iteration_continue_range (tg : target) (src : F) (k : nat) (st st' : state) :
  iteration self mat verbose tg src k st = Ok (Continue st') →
  k + 1 ≠ maxiter self.
Proof.
  unfold iteration. case_decide as Hrlen; [done|].
  destruct (krylov_step _ _ _ _) as [[st1 ip]|]; simpl; [|done].
  destruct (getitem (gamma st1) _) as [g|]; simpl; [|done].
  destruct (r_eqb g r_zero); [done|].
  destruct (residual_step _ _ _ _) as [[st2 r2]|]; simpl; [|done].
  destruct (bool_decide (k + 1 = maxiter self)) eqn:Hmax;
    [|by apply bool_decide_eq_false in Hmax].
  rewrite orb_true_r.
  destruct (update_psi st2 _) as [st3|]; simpl; [|done].
  destruct (r_eqb (ssq tg) r_zero); [done|].
  by destruct (r_leb r2 (rsq tg)).
Qed.

Lemma iterate_stop (tg : target) (src : F) (n : nat) :
  ∀ k st why st',
  k + n = maxiter self → length (history st) = k →
  iterate self mat verbose tg src n k st = Ok (why, st') →
  match why with
  | Converged =>
      length (history st') ≤ maxiter self
      ∧ ∃ r2, last (history st') = Some r2 ∧ r_leb r2 (rsq tg) = true
  | NotConverged =>
      length (history st') = maxiter self
      ∧ ∃ r2, last (history st') = Some r2 ∧ r_leb r2 (rsq tg) = false
  | Breakdown => length (history st') < maxiter self
  | RangeExhausted => n = 0 ∧ st' = st
  end.
Proof.
  induction n as [|n IH]; intros k st why st' Hkn Hlen; simpl.
  - by intros [= <- <-].
  - destruct (iteration self mat verbose tg src k st) as [[st1|why1 st1]|] eqn:Hit;
      simpl; [| |done].
    + intros Hrest. pose proof (iteration_continue_range _ _ _ _ _ Hit) as Hne.
      apply iteration_continue in Hit as [Hh _].
      specialize (IH (S k) st1 why st' ltac:(lia) ltac:(lia) Hrest).
      destruct why; try done. destruct IH as [-> _]. lia.
    + intros [= <- <-]. apply iteration_break in Hit.
      destruct why1.
      * destruct Hit as (r2 & Hh & Hconv). split.
        -- rewrite Hh, length_app. simpl. lia.
        -- exists r2. by rewrite Hh, last_snoc.
      * destruct Hit as (Hmax & r2 & Hh & Hconv). split.
        -- rewrite Hh, length_app. simpl. lia.
        -- exists r2. by rewrite Hh, last_snoc.
      * rewrite Hit. lia.
      * done.
Qed.

(** X3.  What [inv] returns with.  After [Converged] the last entry of
    [self.history] is at most the target [rsq]; after [NotConverged] the
    history has [maxiter] entries and the last one is above the target; after
    a breakdown it has fewer than [maxiter] entries; and the loop runs out of
    its range only when [maxiter] is zero, the state then being the one the
    set-up left ([psi] untouched, empty history). *)
Theorem inv_stop_reasons (psi0 src : F) (why : stop) (st : state) :
  inv self mat verbose psi0 src = Ok (why, st) →
  ∃ st0 tg, setup self mat psi0 src = Ok (st0, tg)
    ∧ match why with
      | Converged =>
          0 < length (history st) ≤ maxiter self
          ∧ ∃ r2, last (history st) = Some r2 ∧ r_leb r2 (rsq tg) = true
      | NotConverged =>
          length (history st) = maxiter self
          ∧ ∃ r2, last (history st) = Some r2 ∧ r_leb r2 (rsq tg) = false
      | Breakdown => length (history st) < maxiter self
      | RangeExhausted =>
          maxiter self = 0 ∧ st = st0 ∧ psi st = psi0 ∧ history st = []
      end.
Proof.
  unfold inv.
  destruct (setup self mat psi0 src) as [[st0 tg]|] eqn:Hsetup; simpl; [|done].
  intros Hit. exists st0, tg. split; [done|].
  apply setup_start in Hsetup as [Hpsi Hh0].
  apply iterate_stop in Hit; [|lia|by rewrite Hh0].
  destruct why; try done.
  - destruct Hit as (Hle & r2 & Hlast & Hconv). split; [|by exists r2].
    split; [|done]. destruct (history st); [done|simpl; lia].
  - destruct Hit as [Hmax ->]. done.
Qed.

(** X7.  [update_psi] past the arrays: with [i] at or beyond their extent the
    first read, [alpha[i]], is out of range. *)
Theorem update_psi_out_of_range (n i : nat) (st : state) :
  shaped n st → n ≤ i → update_psi st i = Raise IndexError.
Proof.
  intros Hs Hi. unfold update_psi.
  assert (Hsub : substitute i st i = Raise IndexError).
  { unfold substitute, getitem.
    rewrite (proj2 (lookup_ge_None (alpha st) i)); [done|].
    rewrite (shaped_alpha _ _ Hs). lia. }
  replace (rev (seq 0 (i + 1))) with (i :: rev (seq 0 i)).
  - cbn [for_each]. by rewrite Hsub.
  - replace (i + 1) with (S i) by lia. by rewrite seq_S, rev_app_distr.
Qed.

(** X5.  Every Krylov cycle starts from the true residual: in the pass that opens
    a cycle, [mmpsi] is [mat(psi)] and [r] is [src - mat(psi)] for the [psi]
    of that moment; with a preconditioner the directions are all zeroed. *)
Theorem cycle_starts_from_true_residual (psi0 src : F) (st0 : state) (tg : target)
    (k : nat) (st : state) :
  setup self mat psi0 src = Ok (st0, tg) →
  state_at self mat verbose tg src st0 k = Some st →
  k mod rlen self = 0 →
  mmpsi st = mat (psi st) ∧ r st = axpy c_m1 (mat (psi st)) src
  ∧ (prec self ≠ None → Forall (λ v, ∃ v0, v = set_zero v0) (p st)).
Proof.
  intros Hsetup Hst Hk.
  assert (Hre : ∀ s, let s' := (restart self mat s src).1 in
            mmpsi s' = mat (psi s') ∧ r s' = axpy c_m1 (mat (psi s')) src
            ∧ (prec self ≠ None → Forall (λ v, ∃ v0, v = set_zero v0) (p s'))).
  { intros s. unfold restart. destruct (prec self); simpl; split_and!; try done.
    intros _. apply Forall_fmap, Forall_true. intros v. by exists v. }
  destruct k as [|k].
  - simpl in Hst. injection Hst as <-.
    apply setup_Ok in Hsetup as (-> & _). apply Hre.
  - apply state_at_S in Hst as (st1 & _ & Hit).
    destruct (iteration_cycle_end self mat verbose tg src k st1 st Hit)
      as (st2 & st3 & _ & _ & -> & _); [|apply Hre].
    assert (rlen self ≠ 0) as Hnz.
    { intros Hz. revert Hit. unfold iteration. by rewrite decide_True. }
    pose proof (Nat.mod_upper_bound k (rlen self) Hnz) as Hlt.
    destruct (decide (k mod rlen self + 1 = rlen self)) as [|Hne]; [done|].
    exfalso. replace (S k) with (k + 1) in Hk by lia.
    rewrite Nat.Div0.add_mod in Hk by lia.
    destruct (decide (rlen self = 1)) as [H1|H1]; [lia|].
    rewrite (Nat.mod_small 1) in Hk by lia.
    rewrite Nat.mod_small in Hk by lia. lia.
Qed.

Lemma set_column_other (b : list (list cplx)) (i j a : nat) (col : list cplx) :
  j ≠ i → (set_column b i col !! a) ≫= (.!! j) = (b !! a) ≫= (.!! j).
Proof.
  intros Hne. unfold set_column. rewrite list_lookup_imap.
  destruct (b !! a) as [row|]; [|done]. simpl.
  destruct (col !! a); [|done]. by rewrite list_lookup_insert_ne.
Qed.

(** X6.  A pass inside a cycle writes one slot: pass [k] (not the last of its
    cycle, and going on) changes [p], [mmp], [alpha] and [gamma] only at
    [i = k % rlen] and [beta] only in column [i]; [psi], [delta] and [mmpsi]
    stay as they are. *)
Theorem pass_writes_slot (tg : target) (src : F) (k : nat) (st st' : state) :
  iteration self mat verbose tg src k st = Ok (Continue st') →
  k mod rlen self + 1 ≠ rlen self →
  psi st' = psi st ∧ delta st' = delta st ∧ mmpsi st' = mmpsi st
  ∧ ∀ j, j ≠ k mod rlen self →
      p st' !! j = p st !! j ∧ mmp st' !! j = mmp st !! j
      ∧ alpha st' !! j = alpha st !! j ∧ gamma st' !! j = gamma st !! j
      ∧ ∀ a, (beta st' !! a) ≫= (.!! j) = (beta st !! a) ≫= (.!! j).
Proof.
  unfold iteration. case_decide as Hrlen; [done|]. intros Hit Hne.
  unfold krylov_step in Hit.
  destruct (getitem (p st) _) as [p_i|]; simpl in Hit; [|done].
  destruct (getitem (mmp st) _) as [m_i|]; simpl in Hit; [|done].
  destruct (get_column (beta st) _) as [col|]; simpl in Hit; [|done].
  destruct (orthogonalize _ _ _) as [w' col'].
  destruct (setitem (gamma st) _ _) as [gamma'|] eqn:Hg; simpl in Hit; [|done].
  apply setitem_Ok in Hg as [_ ->].
  destruct (getitem (<[_:=_]> (gamma st)) _) as [g|]; simpl in Hit; [|done].
  destruct (r_eqb g r_zero); [done|].
  unfold residual_step in Hit. simpl in Hit.
  destruct (getitem (<[_:=w']> (mmp st)) _) as [w|]; simpl in Hit; [|done].
  destruct (setitem (alpha st) _ _) as [alpha'|] eqn:Ha; simpl in Hit; [|done].
  apply setitem_Ok in Ha as [_ ->].
  destruct (getitem (<[_:=_]> (alpha st)) _) as [a|]; simpl in Hit; [|done].
  rewrite (bool_decide_eq_false_2 _ Hne) in Hit.
  destruct (r_leb _ (rsq tg)); simpl in Hit.
  { destruct (update_psi _ _); simpl in Hit; [|done].
    by destruct (r_eqb (ssq tg) r_zero). }
  destruct (bool_decide (k + 1 = maxiter self)); simpl in Hit.
  { destruct (update_psi _ _); simpl in Hit; [|done].
    by destruct (r_eqb (ssq tg) r_zero). }
  injection Hit as <-. simpl. split_and!; try done.
  intros j Hj. rewrite !list_lookup_insert_ne by done. split_and!; try done.
  intros a0. by apply set_column_other.
Qed.

End solver_stops.

Section solver_verbosity.
Context `{Ar : Arith} {F : Type} `{!Lattice F}.
Import fgcr.
Variable self : @fgcr Ar F.
Variable mat : F → F.

Local Abbreviation state := (@state Ar F).

Lemma report_quiet (st : state) (src : F) : report self mat false st src = st.
Proof. done. Qed.

Lemma report_same (v : bool) (st : state) (src : F) :
  same_but_residual st (report self mat v st src)
  ∧ (checkres self = false → report self mat v st src = st).
Proof.
  unfold report. destruct v, (checkres self); simpl; split; try done.
Qed.

(** The verbose pass is the quiet one, followed by the report when the pass
    leaves the loop converged or at [maxiter]. *)
Lemma iteration_verbose (tg : target) (src : F) (k : nat) (st : state) :
  iteration self mat true tg src k st
  = s ← iteration self mat false tg src k st;
    Ok (match s with
        | Break Converged st' => Break Converged (report self mat true st' src)
        | Break NotConverged st' => Break NotConverged (report self mat true st' src)
        | _ => s
        end).
Proof.
  unfold iteration. case_decide; [done|].
  destruct (krylov_step _ _ _ _) as [[st1 ip]|]; simpl; [|done].
  destruct (getitem (gamma st1) _) as [g|]; simpl; [|done].
  destruct (r_eqb g r_zero); [done|].
  destruct (residual_step _ _ _ _) as [[st2 r2]|]; simpl; [|done].
  destruct (_ || _ || _); [|done].
  destruct (update_psi st2 _) as [st3|]; simpl; [|done].
  destruct (r_eqb (ssq tg) r_zero); [done|].
  destruct (r_leb r2 (rsq tg)); [done|].
  destruct (bool_decide (k + 1 = maxiter self)); [done|].
  by destruct (bool_decide (_ = rlen self)).
Qed.

Lemma iterate_verbose (tg : target) (src : F) (n : nat) : ∀ k st,
  match iterate self mat false tg src n k st with
  | Ok (why, st1) =>
      ∃ st2, iterate self mat true tg src n k st = Ok (why, st2)
        ∧ same_but_residual st1 st2
        ∧ (checkres self = false → st2 = st1)
  | Raise e => iterate self mat true tg src n k st = Raise e
  end.
Proof.
  induction n as [|n IH]; intros k st; simpl.
  - exists st. by repeat split.
  - rewrite iteration_verbose.
    destruct (iteration self mat false tg src k st) as [[st1|why st1]|]; simpl;
      [apply IH| |done].
    destruct why.
    + eexists. split; [done|]. apply report_same.
    + eexists. split; [done|]. apply report_same.
    + exists st1. by repeat split.
    + exists st1. by repeat split.
Qed.

(** X4.  Verbosity does not change the solve.  A verbose call of [inv] raises
    what the quiet call raises, or returns for the same reason with the same
    [psi], [self.history], [delta] and Krylov data; only the work fields [r]
    and [mmpsi] can differ (the report recomputes the residual when
    [checkres] is set), and not even those when [checkres] is off. *)
Theorem inv_verbosity (psi0 src : F) :
  match inv self mat false psi0 src with
  | Ok (why, st) =>
      ∃ st', inv self mat true psi0 src = Ok (why, st')
        ∧ same_but_residual st st'
        ∧ (checkres self = false → st' = st)
  | Raise e => inv self mat true psi0 src = Raise e
  end.
Proof.
  unfold inv. destruct (setup self mat psi0 src) as [[st0 tg]|]; simpl; [|done].
  apply iterate_verbose.
Qed.

End solver_verbosity.

Section solver_solution.
Context `{Ar : Arith} {F : Type} `{!Lattice F}.
Import fgcr.
Variable self : @fgcr Ar F.
Variable mat : F → F.
Variable verbose : bool.

Local Abbreviation state := (@state Ar F).

Lemma iteration_shaped (tg : target) (src : F) (k : nat) (st : state) (s : step) :
  shaped (rlen self) st →
  iteration self mat verbose tg src k st = Ok s →
  shaped (rlen self) (match s with Continue st' => st' | Break _ st' => st' end).
Proof.
  intros Hs0. unfold iteration. case_decide as Hrlen; [done|].
  pose proof (Nat.mod_upper_bound k (rlen self) Hrlen) as Hi.
  destruct (krylov_step_total self mat _ _ st Hs0 Hi) as (st1 & ip & -> & Hs1). simpl.
  destruct (getitem (gamma st1) _) as [g|]; simpl; [|done].
  destruct (r_eqb g r_zero); [by intros [= <-]|].
  destruct (residual_step_total _ _ g ip st1 Hs1 Hi) as (st2 & r2 & -> & Hs2). simpl.
  destruct (_ || _ || _); [|by intros [= <-]].
  destruct (update_psi_total _ _ st2 Hs2 Hi) as (st3 & -> & Hs3). simpl.
  destruct (r_eqb (ssq tg) r_zero); [done|].
  destruct (r_leb r2 (rsq tg)); [intros [= <-]; by apply report_shaped|].
  destruct (bool_decide (k + 1 = maxiter self));
    [intros [= <-]; by apply report_shaped|].
  destruct (bool_decide (_ = rlen self)); intros [= <-]; [|done].
  by apply restart_shaped.
Qed.

Lemma state_at_shaped (psi0 src : F) (st0 : state) (tg : target) (k : nat) :
  setup self mat psi0 src = Ok (st0, tg) →
  ∀ st, state_at self mat verbose tg src st0 k = Some st → shaped (rlen self) st.
Proof.
  intros Hsetup. apply setup_Ok in Hsetup as (_ & _ & Hs0).
  induction k as [|k IH]; intros st Hst.
  - simpl in Hst. by injection Hst as <-.
  - apply state_at_S in Hst as (st1 & Hst1 & Hit).
    exact (iteration_shaped tg src k st1 (Continue st) (IH st1 Hst1) Hit).
Qed.

Lemma state_at_earlier (tg : target) (src : F) (st0 : state) (k : nat) :
  ∀ st, state_at self mat verbose tg src st0 k = Some st →
  ∀ k', k' ≤ k → ∃ st', state_at self mat verbose tg src st0 k' = Some st'.
Proof.
  induction k as [|k IH]; intros st Hst k' Hk'.
  - replace k' with 0 by lia. by exists st.
  - destruct (decide (k' = S k)) as [->|Hne]; [by exists st|].
    apply state_at_S in Hst as (st1 & Hst1 & _).
    apply (IH st1 Hst1). lia.
Qed.

(** The pass in which the loop is left. *)
Lemma iterate_last_pass (tg : target) (src : F) (st0 : state) (n : nat) :
  ∀ k st why st_f,
  state_at self mat verbose tg src st0 k = Some st →
  iterate self mat verbose tg src n k st = Ok (why, st_f) →
  why ≠ RangeExhausted →
  ∃ k' st', k ≤ k' < k + n
    ∧ state_at self mat verbose tg src st0 k' = Some st'
    ∧ iteration self mat verbose tg src k' st' = Ok (Break why st_f).
Proof.
  induction n as [|n IH]; intros k st why st_f Hst; simpl.
  - by intros [= <- _].
  - destruct (iteration self mat verbose tg src k st) as [[st1|why1 st1]|] eqn:Hit;
      simpl; [| |done].
    + intros Hrest Hwhy.
      assert (Hst1 : state_at self mat verbose tg src st0 (S k) = Some st1)
        by (simpl; by rewrite Hst, Hit).
      destruct (IH (S k) st1 why st_f Hst1 Hrest Hwhy) as (k' & st' & Hk' & ? & ?).
      exists k', st'. split_and!; [lia|lia|done|done].
    + intros [= <- <-] _. exists k, st. split_and!; [lia|lia|done|done].
Qed.

(** A pass that leaves the loop converged or at [maxiter] has run
    [update_psi] on the state its residual step left. *)
Lemma iteration_stop_update (tg : target) (src : F) (k : nat) (st st_f : state)
    (why : stop) :
  shaped (rlen self) st →
  iteration self mat verbose tg src k st = Ok (Break why st_f) →
  why = Converged ∨ why = NotConverged →
  ∃ st2 st3 r2, psi st2 = psi st ∧ history st2 = history st ++ [r2]
    ∧ shaped (rlen self) st2 ∧ k mod rlen self < rlen self
    ∧ update_psi st2 (k mod rlen self) = Ok st3
    ∧ st_f = report self mat verbose st3 src.
Proof.
  intros Hs0. unfold iteration. case_decide as Hrlen; [done|].
  pose proof (Nat.mod_upper_bound k (rlen self) Hrlen) as Hi.
  destruct (krylov_step_total self mat _ _ st Hs0 Hi) as (st1 & ip & Hk & Hs1).
  rewrite Hk. simpl. apply krylov_step_frame in Hk as (Hk1 & _ & Hk3).
  destruct (getitem (gamma st1) _) as [g|]; simpl; [|done].
  destruct (r_eqb g r_zero); [by intros [= <- _] [?|?]|].
  destruct (residual_step_total _ _ g ip st1 Hs1 Hi) as (st2 & r2 & Hr & Hs2).
  rewrite Hr. simpl. apply residual_step_frame in Hr as (Hr1 & _ & Hr3).
  destruct (_ || _ || _); [|done].
  destruct (update_psi st2 _) as [st3|] eqn:Hu; simpl; [|done].
  destruct (r_eqb (ssq tg) r_zero); [done|].
  assert (Hres : ∀ w, Ok (Break w (report self mat verbose st3 src))
                      = Ok (Break why st_f) →
    ∃ st2 st3 r2, psi st2 = psi st ∧ history st2 = history st ++ [r2]
      ∧ shaped (rlen self) st2 ∧ k mod rlen self < rlen self
      ∧ update_psi st2 (k mod rlen self) = Ok st3
      ∧ st_f = report self mat verbose st3 src).
  { intros w [= _ <-]. exists st2, st3, r2. split_and!; try done.
    - by rewrite Hr1.
    - by rewrite Hr3, Hk3. }
  destruct (r_leb r2 (rsq tg)); [intros ? _; by eapply Hres|].
  destruct (bool_decide (k + 1 = maxiter self)); [intros ? _; by eapply Hres|].
  by destruct (bool_decide (_ = rlen self)).
Qed.

(** X17.  What [inv] returns when it converged or reached [maxiter].  With
    [k + 1] entries in [self.history], the last pass was pass [k], slot
    [i = k % restartlen] of a cycle that started in pass [k - i]; the [psi]
    returned is the [psi] that cycle started with plus
    [sum_{j=0..i} delta[j] * p[j]], and the [delta[j]] solve the triangular
    system [delta[j] = (alpha[j] - sum_{l=j+1..i} beta[j,l] * delta[l]) / gamma[j]]
    of the coefficients returned. *)
Theorem inv_returns_combination (psi0 src : F) (why : stop) (st : state) :
  inv self mat verbose psi0 src = Ok (why, st) →
  why = Converged ∨ why = NotConverged →
  ∃ st0 tg k stc,
    setup self mat psi0 src = Ok (st0, tg)
    ∧ length (history st) = k + 1
    ∧ state_at self mat verbose tg src st0 (k - k mod rlen self) = Some stc
    ∧ psi st = add_combination (psi stc) (delta st) (p st) (k mod rlen self + 1)
    ∧ ∀ j, j ≤ k mod rlen self → solves st (delta st) (k mod rlen self) j.
Proof.
  unfold inv.
  destruct (setup self mat psi0 src) as [[st0 tg]|] eqn:Hsetup; simpl; [|done].
  intros Hit Hwhy.
  destruct (iterate_last_pass tg src st0 (maxiter self) 0 st0 why st eq_refl Hit)
    as (k & st_k & Hk & Hst_k & Hlast).
  { by destruct Hwhy as [-> | ->]. }
  pose proof (state_at_shaped psi0 src st0 tg k Hsetup st_k Hst_k) as Hs_k.
  destruct (iteration_stop_update tg src k st_k st why Hs_k Hlast Hwhy)
    as (st2 & st3 & r2 & Hpsi2 & Hh2 & Hs2 & Hi & Hu & ->).
  set (i := k mod rlen self) in *.
  destruct (state_at_earlier tg src st0 k st_k Hst_k (k - i) ltac:(lia))
    as (stc & Hstc).
  assert (Hk0 : (k - i) mod rlen self = 0).
  { assert (rlen self ≠ 0) as Hnz by lia.
    pose proof (Nat.div_mod_eq k (rlen self)) as Hdm. fold i in Hdm.
    replace (k - i) with (k `div` rlen self * rlen self) by lia.
    apply Nat.Div0.mod_mul. }
  destruct (state_at_cycle self mat verbose tg src st0 (k - i) i Hk0 Hi stc st_k Hstc)
    as [Hpsic _].
  { by replace (k - i + i) with k by (unfold i; pose proof (Nat.Div0.mod_le k (rlen self)); lia). }
  destruct (substitute_loop (rlen self) i st2 (i + 1) Hs2 ltac:(lia) Hi)
    as (dl & Hloop & Hdl & _ & Hsolve).
  unfold update_psi in Hu. rewrite Hloop in Hu. simpl in Hu.
  rewrite (accumulate_loop (rlen self) _ (i + 1)
             (shaped_with_delta _ st2 dl Hs2 Hdl)) in Hu by lia.
  injection Hu as Hst3.
  assert (Hf3 : psi st3 = add_combination (psi st2) dl (p st2) (i + 1)
                ∧ delta st3 = dl ∧ p st3 = p st2 ∧ alpha st3 = alpha st2
                ∧ beta st3 = beta st2 ∧ gamma st3 = gamma st2
                ∧ history st3 = history st2)
    by (by rewrite <- Hst3).
  destruct Hf3 as (Hp3 & Hd3 & Hpp3 & Ha3 & Hb3 & Hg3 & Hh3).
  destruct (report_same self mat verbose st3 src)
    as [(Hrp & Hrpp & _ & Hra & Hrb & Hrg & Hrd & Hrh) _].
  exists st0, tg, k, stc. split_and!; [done| |done| |].
  - rewrite Hrh, Hh3, Hh2, length_app.
    rewrite (state_at_history self mat verbose tg src st0 k st_k Hst_k).
    apply setup_start in Hsetup as [_ ->]. simpl. lia.
  - rewrite Hrp, Hrd, Hrpp, Hp3, Hd3, Hpp3, Hpsi2, Hpsic. done.
  - intros j Hj. destruct (Hsolve j ltac:(lia)) as (a & row & g & Ha & Hb & Hg & Hd).
    exists a, row, g. rewrite Hra, Hrb, Hrg, Hrd, Ha3, Hb3, Hg3, Hd3. by split_and!.
Qed.

Lemma iteration_appends (tg : target) (src : F) (k : nat) (st : state) (s : step) :
  iteration self mat verbose tg src k st = Ok s →
  history st `prefix_of`
    history (match s with Continue st' => st' | Break _ st' => st' end).
Proof.
  unfold iteration. case_decide as Hrlen; [done|].
  destruct (krylov_step _ _ _ _) as [[st1 ip]|] eqn:Hk; simpl; [|done].
  apply krylov_step_frame in Hk as (_ & _ & Hk3).
  destruct (getitem (gamma st1) _) as [g|]; simpl; [|done].
  destruct (r_eqb g r_zero); [intros [= <-]; by rewrite Hk3|].
  destruct (residual_step _ _ _ _) as [[st2 r2]|] eqn:Hr; simpl; [|done].
  apply residual_step_frame in Hr as (_ & _ & Hr3).
  assert (Hpre : history st `prefix_of` history st2)
    by (rewrite Hr3, Hk3; by apply prefix_app_r).
  destruct (_ || _ || _); [|by intros [= <-]].
  destruct (update_psi st2 _) as [st3|] eqn:Hu; simpl; [|done].
  apply update_psi_frame in Hu as (_ & _ & _ & _ & _ & _ & _ & Hh).
  destruct (r_eqb (ssq tg) r_zero); [done|].
  destruct (report_frame self mat verbose st3 src) as (_ & _ & Hrep).
  destruct (restart_frame self mat st3 src) as (_ & _ & Hres).
  destruct (r_leb r2 (rsq tg)); [intros [= <-]; by rewrite Hrep, Hh|].
  destruct (bool_decide (k + 1 = maxiter self)); [intros [= <-]; by rewrite Hrep, Hh|].
  destruct (bool_decide (_ = rlen self)); intros [= <-]; [by rewrite Hres, Hh|by rewrite Hh].
Qed.

Lemma iterate_appends (tg : target) (src : F) (n : nat) :
  ∀ k st why st_f,
  iterate self mat verbose tg src n k st = Ok (why, st_f) →
  history st `prefix_of` history st_f.
Proof.
  induction n as [|n IH]; intros k st why st_f; simpl.
  - by intros [= _ <-].
  - destruct (iteration self mat verbose tg src k st) as [s|] eqn:Hit; simpl; [|done].
    apply iteration_appends in Hit. destruct s as [st1|why1 st1].
    + intros Hrest. etrans; [exact Hit|]. by eapply IH.
    + by intros [= _ <-].
Qed.

(** X18.  [self.history] only grows.  The state in which pass [k] starts has
    recorded [k] residuals, and they are the first [k] entries of the history
    [inv] returns with: a restart does not reset the history, and no entry
    is rewritten. *)
Theorem history_only_grows (psi0 src : F) (st0 : state) (tg : target)
    (k : nat) (st : state) (why : stop) (st_f : state) :
  setup self mat psi0 src = Ok (st0, tg) →
  state_at self mat verbose tg src st0 k = Some st →
  k ≤ maxiter self →
  inv self mat verbose psi0 src = Ok (why, st_f) →
  history st = take k (history st_f).
Proof.
  intros Hsetup Hst Hk. unfold inv. rewrite Hsetup. simpl.
  replace (maxiter self) with (k + (maxiter self - k)) by lia.
  rewrite (iterate_state_at self mat verbose tg src st0 k _ st Hst).
  intros Hit. apply iterate_appends in Hit as [rest ->].
  rewrite take_app_length'; [done|].
  rewrite (state_at_history self mat verbose tg src st0 k st Hst).
  apply setup_start in Hsetup as [_ ->]. done.
Qed.

End solver_solution.

(** ** The links: masks, inputs out of range, and what the loop writes *)

Lemma for_each_invariant_in {S X : Type} (body : S → X → result S) (P : S → Prop)
    (xs : list X) :
  (∀ s x s', x ∈ xs → body s x = Ok s' → P s → P s') →
  ∀ s s', for_each body xs s = Ok s' → P s → P s'.
Proof.
  induction xs as [|x xs IH]; intros Hbody s s'; simpl.
  - by intros [= <-].
  - destruct (body s x) as [s1|] eqn:Hs1; simpl; [|done].
    intros Hrest Hs. apply (IH ltac:(intros s0 y s0' Hy; apply Hbody; by right)
                              s1 s' Hrest).
    eapply Hbody; [by left|done|done].
Qed.

(** A loop over [enumerate(dd)] whose pass [p] rewrites the entry [p] of a
    list rewrites the first [len(dd)] entries, each once. *)
Lemma for_each_indexed {X L : Type} (W : nat → X → L → L)
    (body : list L → nat * X → result (list L)) (dd : list X) :
  (∀ s p d a, dd !! p = Some d → s !! p = Some a →
     body s (p, d) = Ok (<[p := W p d a]> s)) →
  ∀ A, length dd ≤ length A →
  for_each body (coarse.enumerate dd) A
  = Ok (imap (λ q a, match dd !! q with Some d => W q d a | None => a end) A).
Proof.
  induction dd as [|d dd IH] using rev_ind; intros Hbody A Hlen.
  - simpl. f_equal. apply list_eq. intros q. rewrite list_lookup_imap.
    by destruct (A !! q).
  - rewrite length_app in Hlen. simpl in Hlen.
    rewrite enumerate_snoc, for_each_snoc, IH; [|
      intros s p d0 a Hp; apply Hbody; by apply lookup_app_l_Some | lia].
    simpl.
    destruct (lookup_lt_is_Some_2 A (length dd)) as [a Ha]; [lia|].
    rewrite (Hbody _ (length dd) d a).
    + f_equal. apply list_eq. intros q. rewrite list_lookup_imap.
      destruct (decide (q = length dd)) as [->|Hne].
      * rewrite list_lookup_insert_eq by (rewrite length_imap; lia).
        rewrite Ha. simpl. by rewrite list_lookup_middle.
      * rewrite list_lookup_insert_ne by done. rewrite list_lookup_imap.
        destruct (A !! q) as [aq|]; [|done]. simpl.
        destruct (decide (q < length dd)) as [Hlt|Hge].
        -- by rewrite lookup_app_l.
        -- rewrite (lookup_ge_None_2 dd q) by lia.
           rewrite (lookup_ge_None_2 (dd ++ [d]) q); [done|].
           rewrite length_app. simpl. lia.
    + by rewrite list_lookup_middle.
    + rewrite list_lookup_imap, Ha. simpl.
      by rewrite (lookup_ge_None_2 dd (length dd)).
Qed.

(** Two loops over the same list that keep a relation between their states. *)
Lemma for_each_related {S1 S2 X : Type} (f : S1 → X → result S1)
    (g : S2 → X → result S2) (R : S1 → S2 → Prop) (xs : list X) :
  (∀ s1 s2 x, x ∈ xs → R s1 s2 →
     ∃ s1' s2', f s1 x = Ok s1' ∧ g s2 x = Ok s2' ∧ R s1' s2') →
  ∀ s1 s2, R s1 s2 →
  ∃ s1' s2', for_each f xs s1 = Ok s1' ∧ for_each g xs s2 = Ok s2' ∧ R s1' s2'.
Proof.
  induction xs as [|x xs IH]; intros Hstep s1 s2 HR; simpl.
  - by exists s1, s2.
  - destruct (Hstep s1 s2 x) as (t1 & t2 & -> & -> & HR'); [by left|done|]. simpl.
    apply IH; [|done]. intros u1 u2 y Hy. apply Hstep. by right.
Qed.

Section link_inputs.
Context `{Ar : Arith} `{!Block}.
Import coarse.

Local Abbreviation links := (list (link csite)).

(** *** comm_links: the count of the links *)

Lemma comm_link_loop_raise (h : bool) (dd : list (nat * (nat * Z))) (A : links)
    (e : exn) :
  for_each (comm_link h) dd A = Raise e →
  e ≠ AssertionError assert_link_count.
Proof.
  intros Hloop.
  assert (no_assert e ∨ e = AssertionError assert_even_basis) as [Hn| ->];
    [|by intros ->|done].
  eapply (for_each_raise_inv (comm_link h) (λ _, True)
            (λ e, no_assert e ∨ e = AssertionError assert_even_basis));
    [done| |exact Hloop|done].
  intros s pd e' He' _. apply comm_link_raise in He' as [?|(_ & -> & _)]; auto.
Qed.

(** X16.  [comm_links] fails the assertion on the number of links exactly when
    [len(A)] is not [2 * len(dirdisps_forward) + 1]; the check comes before
    any link is read or written. *)
Theorem comm_links_link_count (A : links) (dd : list (nat * Z)) (h : bool) :
  comm_links A dd h = Raise (AssertionError assert_link_count)
  ↔ length A ≠ 2 * length dd + 1.
Proof.
  unfold comm_links. case_decide as Hlen.
  - split; [|done]. intros Hloop. by apply comm_link_loop_raise in Hloop.
  - done.
Qed.

(** *** The masks on a four-dimensional grid *)


(** *** Blocks, their edges and their parity *)




(** *** create_links without a basis or without links *)

(** X12.  [create_links] reads [basis[0]] and then [A[0]] for the grids: past the
    assertion on the parameters, an empty basis raises [IndexError], and so
    does an empty list of links. *)
Theorem create_links_empty_input (A : links) (fmat : fmatrix)
    (basis : list ffield) (ps : params) :
  hermitian ps && negb (savelinks ps) = false →
  basis = [] ∨ A = [] →
  create_links A fmat basis ps = Raise IndexError.
Proof.
  intros Hpre Hempty. unfold create_links. rewrite Hpre.
  destruct basis as [|b_0 bs]; [done|]. simpl.
  destruct Hempty as [?| ->]; done.
Qed.

End link_inputs.

Lemma for_each_imap {X L : Type} (g : X → nat → L → L)
    (body : list L → X → result (list L)) (xs : list X) (n : nat) :
  (∀ s x, length s = n → body s x = Ok (imap (g x) s)) →
  ∀ A, length A = n →
  for_each body xs A = Ok (imap (λ q a, foldl (λ acc x, g x q acc) a xs) A).
Proof.
  intros Hbody. induction xs as [|x xs IH]; intros A HA; simpl.
  - f_equal. apply list_eq. intros q. rewrite list_lookup_imap.
    by destruct (A !! q).
  - rewrite (Hbody A x HA). simpl. rewrite IH by (by rewrite length_imap).
    f_equal. apply list_eq. intros q. rewrite !list_lookup_imap.
    by destruct (A !! q).
Qed.

Lemma getitem_raise_index {A : Type} (l : list A) (j : nat) (e : exn) :
  getitem l j = Raise e → e = IndexError.
Proof. unfold getitem. destruct (l !! j); [done|]. by intros [= <-]. Qed.

Section link_loop.
Context `{Ar : Arith} `{!Block}.
Import coarse.

Local Abbreviation links := (list (link csite)).

Section passes.
Variable fmat : fmatrix.
Variable basis : list ffield.
Variable ms : masks.
Variable dirdisps : list (nat * Z).
Variable selflink : nat.
Variable luts : option (list lut * lut).

(** With links, masks and tables for all the directions, and the self link
    behind them, the pass for one basis vector rewrites every link on its
    own. *)
Lemma coarsen_vector_written (A : links) (ivr : nat * ffield) :
  length dirdisps ≤ selflink → selflink < length A →
  match luts with
  | Some (dirluts, _) => length dirdisps ≤ length dirluts
  | None => length dirdisps ≤ length (dirmasks ms)
  end →
  coarsen_vector fmat basis ms dirdisps selflink luts A ivr
  = Ok (imap (link_written fmat basis ms dirdisps selflink luts ivr) A).
Proof.
  intros Hself HA Hluts. destruct ivr as [i vr]. unfold coarsen_vector.
  rewrite (for_each_indexed
    (λ q d a, hop_written basis ms luts (Mdir fmat vr d.1 d.2) i q a)); [| |lia].
  - simpl.
    destruct (lookup_lt_is_Some_2 A selflink HA) as [a Ha].
    unfold getitem. rewrite list_lookup_imap, Ha. simpl.
    rewrite (lookup_ge_None_2 dirdisps selflink) by lia. simpl.
    f_equal. apply list_eq. intros q. rewrite list_lookup_imap.
    destruct (decide (q = selflink)) as [->|Hne].
    + rewrite list_lookup_insert_eq by (rewrite length_imap; lia).
      rewrite Ha. simpl. unfold link_written.
      rewrite (lookup_ge_None_2 dirdisps selflink) by lia.
      by rewrite decide_True.
    + rewrite list_lookup_insert_ne by done. rewrite list_lookup_imap.
      destruct (A !! q) as [aq|]; [|done]. simpl. unfold link_written.
      destruct (dirdisps !! q); [done|]. by rewrite decide_False.
  - intros s p d a Hd Hs. pose proof (lookup_lt_Some _ _ _ Hd) as Hp.
    destruct luts as [[dirluts fulllut]|].
    + destruct (lookup_lt_is_Some_2 dirluts p) as [l Hl]; [lia|].
      unfold coarsen_hop_lut, hop_written. simpl.
      rewrite (getitem_Some _ _ _ (apply_hop_lookup fmat dirdisps vr p d Hd)). simpl.
      rewrite (getitem_Some _ _ _ Hl). simpl.
      rewrite (getitem_Some _ _ _ Hs). simpl. by rewrite Hl.
    + destruct (lookup_lt_is_Some_2 (dirmasks ms) p) as [m Hm]; [lia|].
      rewrite (coarsen_hop_mask_Some basis ms _ i p d m _ s a Hm
                 (apply_hop_lookup fmat dirdisps vr p d Hd) Hs).
      unfold hop_written. by rewrite Hm.
Qed.

(** The loop over the basis rewrites every link on its own, pass by pass. *)
Lemma basis_loop_written (A : links) :
  length dirdisps ≤ selflink → selflink < length A →
  match luts with
  | Some (dirluts, _) => length dirdisps ≤ length dirluts
  | None => length dirdisps ≤ length (dirmasks ms)
  end →
  for_each (coarsen_vector fmat basis ms dirdisps selflink luts) (enumerate basis) A
  = Ok (links_written fmat basis ms dirdisps selflink luts A).
Proof.
  intros Hself HA Hluts. unfold links_written.
  apply (for_each_imap (link_written fmat basis ms dirdisps selflink luts) _ _ (length A));
    [|done].
  intros s x Hs. apply coarsen_vector_written; [done|lia|done].
Qed.

Lemma coarsen_vector_self (A A' : links) (ivr : nat * ffield) :
  coarsen_vector fmat basis ms dirdisps selflink luts A ivr = Ok A' →
  selflink < length A.
Proof.
  destruct ivr as [i vr]. unfold coarsen_vector.
  destruct (for_each _ (enumerate dirdisps) A) as [A1|] eqn:Hhops; simpl; [|done].
  assert (length A1 = length A) as Hlen.
  { rewrite <- (length_fmap shape0 A1), <- (length_fmap shape0 A). f_equal.
    eapply (for_each_invariant _ (λ A', shape0 <$> A' = shape0 <$> A));
      [|exact Hhops|done].
    intros s pd s' Hs <-. destruct luts as [[dirluts fulllut]|].
    - by eapply coarsen_hop_lut_shapes.
    - by eapply coarsen_hop_mask_shapes. }
  destruct (getitem A1 selflink) as [lk|] eqn:Ha; simpl; [|done].
  intros _. apply getitem_Ok, lookup_lt_Some in Ha. lia.
Qed.

Lemma coarsen_vector_raise_index (A : links) (ivr : nat * ffield) (e : exn) :
  coarsen_vector fmat basis ms dirdisps selflink luts A ivr = Raise e →
  e = IndexError.
Proof.
  destruct ivr as [i vr]. unfold coarsen_vector.
  destruct (for_each _ (enumerate dirdisps) A) as [A1|] eqn:Hhops; simpl.
  - destruct (getitem A1 selflink) eqn:Ha; simpl;
      [done|intros [= <-]; by eapply getitem_raise_index].
  - intros [= <-].
    eapply (for_each_raise_inv _ (λ _, True) (λ e, e = IndexError));
      [done| |exact Hhops|done].
    intros s pd e' He' _. revert He'. destruct luts as [[dirluts fulllut]|].
    + unfold coarsen_hop_lut.
      destruct (getitem (apply_hop fmat dirdisps vr) pd.1) eqn:H1; simpl;
        [|intros [= <-]; by eapply getitem_raise_index].
      destruct (getitem dirluts pd.1) eqn:H2; simpl;
        [|intros [= <-]; by eapply getitem_raise_index].
      destruct (getitem s pd.1) eqn:H3; simpl;
        [done|intros [= <-]; by eapply getitem_raise_index].
    + unfold coarsen_hop_mask. intros Hentries.
      eapply (for_each_raise_inv _ (λ _, True) (λ e, e = IndexError));
        [done| |exact Hentries|done].
      intros s0 [j vl] ex Hex _. revert Hex. unfold coarsen_hop_entry.
      destruct (getitem (dirmasks ms) pd.1) eqn:H1; simpl;
        [|intros [= <-]; by eapply getitem_raise_index].
      destruct (getitem (apply_hop fmat dirdisps vr) pd.1) eqn:H2; simpl;
        [|intros [= <-]; by eapply getitem_raise_index].
      destruct (getitem s0 pd.1) eqn:H3; simpl;
        [done|intros [= <-]; by eapply getitem_raise_index].
Qed.

End passes.

End link_loop.

Section create_links_runs.
Context `{Ar : Arith} `{!Block}.
Import coarse.

Local Abbreviation links := (list (link csite)).

Lemma dirs_4d (g : grid) : nd g = 4 → dirs g = [0; 1; 2; 3].
Proof. intros Hg. unfold dirs. rewrite decide_False; [done|lia]. Qed.

(** On four-dimensional grids [create_links] gets as far as the loop over
    the basis. *)
Lemma create_links_unfold (A : links) (fmat : fmatrix) (basis : list ffield)
    (ps : params) (b_0 : ffield) (a_0 : link csite) :
  hermitian ps && negb (savelinks ps) = false →
  basis !! 0 = Some b_0 → A !! 0 = Some a_0 →
  nd (grid_of b_0) = 4 → nd (link_grid a_0) = 4 →
  let dd := if savelinks ps then dirdisps_forward [0; 1; 2; 3]
            else dirdisps_full [0; 1; 2; 3] in
  ∃ ms luts,
    setup_masks (grid_of b_0) (link_grid a_0) = Ok ms
    ∧ length (dirmasks ms) = 8
    ∧ tables_of (link_grid a_0) ms dd (uselut ps) luts
    ∧ create_links A fmat basis ps
      = A1 ← for_each (coarsen_vector fmat basis ms dd 8 luts) (enumerate basis) A;
        if savelinks ps
        then comm_links A1 (dirdisps_forward [0; 1; 2; 3]) (hermitian ps)
        else Ok A1.
Proof.
  intros Hpre Hb0 Ha0 Hf Hc dd. unfold create_links. rewrite Hpre.
  rewrite (getitem_Some _ _ _ Hb0), (getitem_Some _ _ _ Ha0). simpl.
  destruct (setup_masks_4d (grid_of b_0) (link_grid a_0) Hf Hc)
    as (ms & block & Hms & _). rewrite Hms. simpl.
  pose proof (setup_masks_length _ _ _ Hms) as Hlen.
  rewrite (dirs_4d _ Hf). fold dd.
  assert (Hdd : length dd ≤ 8) by apply dirdisps_length.
  exists ms. destruct (uselut ps) eqn:Hu.
  - destruct (dirluts_of_dirdisps (link_grid a_0) ms dd) as (dl & -> & Hdl); [lia|].
    exists (Some (dl, lookup_table (link_grid a_0) (onemask ms))). simpl.
    split_and!; try done.
    destruct (decide (length dd ≤ length dl)) as [|Hn]; [done|].
    destruct (lookup_lt_is_Some_2 dd (length dl)) as [d Hd]; [lia|].
    destruct (Hdl _ _ Hd) as (m & _ & Hl). apply lookup_lt_Some in Hl. lia.
  - exists None. by split_and!.
Qed.

Lemma tables_of_length (c_grid : grid) (ms : masks) (dd : list (nat * Z))
    (u : bool) (luts : option (list lut * lut)) :
  length dd ≤ length (dirmasks ms) → tables_of c_grid ms dd u luts →
  match luts with
  | Some (dirluts, _) => length dd ≤ length dirluts
  | None => length dd ≤ length (dirmasks ms)
  end.
Proof. destruct luts as [[dl fl]|]; [|done]. by intros _ (_ & _ & ? & _). Qed.

(** *** Frames of the passes *)

Lemma link_written_frame fmat basis ms dd selflink luts ivr q (a : link csite) :
  link_grid (link_written fmat basis ms dd selflink luts ivr q a) = link_grid a
  ∧ shape0 (link_written fmat basis ms dd selflink luts ivr q a) = shape0 a.
Proof.
  unfold link_written, hop_written, self_written.
  destruct (dd !! q) as [d|].
  - destruct luts as [[dl fl]|].
    + by destruct (dl !! q).
    + destruct (dirmasks ms !! q); [|done]. apply entries_written_frame.
  - by case_decide.
Qed.

Lemma fold_written_frame fmat basis ms dd selflink luts (l : list (nat * ffield)) q :
  ∀ a : link csite,
  link_grid (foldl (λ acc ivr, link_written fmat basis ms dd selflink luts ivr q acc) a l)
  = link_grid a
  ∧ shape0 (foldl (λ acc ivr, link_written fmat basis ms dd selflink luts ivr q acc) a l)
    = shape0 a.
Proof.
  induction l as [|ivr l IH]; intros a; simpl; [done|].
  destruct (IH (link_written fmat basis ms dd selflink luts ivr q a)) as [-> ->].
  apply link_written_frame.
Qed.

Lemma fold_written_other fmat basis ms dd selflink luts (l : list (nat * ffield)) q :
  dd !! q = None → q ≠ selflink →
  ∀ a : link csite,
  foldl (λ acc ivr, link_written fmat basis ms dd selflink luts ivr q acc) a l = a.
Proof.
  intros Hd Hq. induction l as [|ivr l IH]; intros a; simpl; [done|].
  rewrite IH. unfold link_written. rewrite Hd. by rewrite decide_False.
Qed.

Lemma links_written_lookup fmat basis ms dd selflink luts (A : links) (q : nat) :
  links_written fmat basis ms dd selflink luts A !! q
  = (λ a, foldl (λ acc ivr, link_written fmat basis ms dd selflink luts ivr q acc)
                a (enumerate basis)) <$> A !! q.
Proof. unfold links_written. by rewrite list_lookup_imap. Qed.

Lemma links_written_shapes fmat basis ms dd selflink luts (A : links) :
  shape0 <$> links_written fmat basis ms dd selflink luts A = shape0 <$> A.
Proof.
  apply list_eq. intros q. rewrite !list_lookup_fmap, links_written_lookup.
  destruct (A !! q) as [a|]; [|done]. simpl. f_equal. apply fold_written_frame.
Qed.

(** *** The entries the mask path writes *)

Lemma fold_hop_entries fmat basis ms dd selflink (q : nat) (d : nat * Z) (m : mask)
    (a : link csite) (bs : list ffield) (x : csite) (j i : nat) :
  dd !! q = Some d → dirmasks ms !! q = Some m →
  entry (foldl (λ acc ivr, link_written fmat basis ms dd selflink None ivr q acc)
               a (enumerate bs)) x j i
  = match basis !! j, bs !! i with
    | Some vl, Some vr => masked_inner_product m vl (Mdir fmat vr d.1 d.2) x
    | _, _ => entry a x j i
    end.
Proof.
  intros Hd Hm. induction bs as [|vr bs IH] using rev_ind.
  - simpl. by destruct (basis !! j).
  - rewrite enumerate_snoc, foldl_snoc. unfold link_written at 1.
    rewrite Hd. unfold hop_written. rewrite Hm. simpl.
    rewrite entries_written_entry, IH.
    destruct (basis !! j) as [vl|]; [|done].
    case_bool_decide as Hi.
    + subst i. by rewrite list_lookup_middle.
    + destruct (decide (i < length bs)) as [Hlt|Hge].
      * by rewrite lookup_app_l.
      * rewrite (lookup_ge_None_2 bs i) by lia.
        rewrite (lookup_ge_None_2 (bs ++ [vr]) i); [done|].
        rewrite length_app. simpl. lia.
Qed.

Lemma fold_self_entries fmat basis ms dd selflink (a : link csite)
    (bs : list ffield) (x : csite) (j i : nat) :
  dd !! selflink = None →
  entry (foldl (λ acc ivr, link_written fmat basis ms dd selflink None ivr selflink acc)
               a (enumerate bs)) x j i
  = match bs !! i with
    | Some vr =>
        if bool_decide (j < length basis)
        then project (self_term fmat (blockevenmask ms) (blockoddmask ms) vr) basis x j
        else entry a x j i
    | None => entry a x j i
    end.
Proof.
  intros Hd. induction bs as [|vr bs IH] using rev_ind; [done|].
  rewrite enumerate_snoc, foldl_snoc. unfold link_written at 1.
  rewrite Hd, decide_True by done. unfold self_written. simpl. rewrite IH.
  destruct (decide (i = length bs)) as [->|Hi].
  - rewrite bool_decide_eq_true_2 by done. simpl.
    rewrite list_lookup_middle by done.
    rewrite (lookup_ge_None_2 bs (length bs)) by lia. done.
  - rewrite (bool_decide_eq_false_2 (i = length bs)) by done. simpl.
    destruct (decide (i < length bs)) as [Hlt|Hge].
    + by rewrite lookup_app_l.
    + rewrite (lookup_ge_None_2 bs i) by lia.
      rewrite (lookup_ge_None_2 (bs ++ [vr]) i); [done|].
      rewrite length_app. simpl. lia.
Qed.

(** *** comm_links on nine links *)

Lemma comm_links_run (A : links) (ds : list nat) (h : bool) (a_0 : link csite) :
  length A = 9 → length ds = 4 → A !! 0 = Some a_0 →
  (h = false → shape0 a_0 mod 2 = 0) →
  ∃ A', comm_links A (dirdisps_forward ds) h = Ok A'
    ∧ length A' = 9
    ∧ (∀ q, q < 4 ∨ q = 8 → A' !! q = A !! q)
    ∧ ∀ p mu a_p, ds !! p = Some mu → A !! p = Some a_p →
        A' !! (p + 4)
        = Some (adj (cshift (signed_copy h (shape0 a_0) a_p) mu (-1))).
Proof.
  intros HA Hds H0 Heven.
  destruct ds as [|m0 [|m1 [|m2 [|m3 [|]]]]]; try done.
  destruct A as [|l0 [|l1 [|l2 [|l3 [|l4 [|l5 [|l6 [|l7 [|l8 [|]]]]]]]]]]; try done.
  injection H0 as ->.
  unfold comm_links. rewrite decide_True by done.
  change (enumerate (dirdisps_forward [m0; m1; m2; m3]))
    with [(0, (m0, 1%Z)); (1, (m1, 1%Z)); (2, (m2, 1%Z)); (3, (m3, 1%Z))].
  do 4 (erewrite for_each_cons_Ok;
          [|eapply comm_link_step; [reflexivity|reflexivity|reflexivity|exact Heven]]).
  cbn [for_each].
  eexists. split; [done|]. split; [done|]. split.
  - intros q [Hq| ->]; [|done]. by destruct q as [|[|[|[|]]]]; try lia.
  - intros p mu a_p Hmu Hp.
    destruct p as [|[|[|[|]]]]; try done;
      injection Hmu as <-; injection Hp as <-; done.
Qed.

(** *** When create_links returns *)

(** X10.  Which calls of [create_links] return, on four-dimensional grids with a
    basis and links to read the grids from.  Without [savelinks] the call
    returns when [A] has the nine links the loop writes (or more, which it
    leaves alone); with [savelinks] it returns when [A] has exactly nine links
    and, unless [hermitian] is set, [nbasis] is even.  Every other call
    raises. *)
Theorem create_links_returns (A : links) (fmat : fmatrix)
    (basis : list ffield) (ps : params) (b_0 : ffield) (a_0 : link csite) :
  basis !! 0 = Some b_0 → A !! 0 = Some a_0 →
  nd (grid_of b_0) = 4 → nd (link_grid a_0) = 4 →
  (∃ A', create_links A fmat basis ps = Ok A')
  ↔ (if savelinks ps
     then length A = 9 ∧ (hermitian ps = false → shape0 a_0 mod 2 = 0)
     else hermitian ps = false ∧ 9 ≤ length A).
Proof.
  intros Hb0 Ha0 Hf Hc.
  destruct (hermitian ps && negb (savelinks ps)) eqn:Hpre.
  { unfold create_links. rewrite Hpre.
    apply andb_true_iff in Hpre as [Hh Hs]. apply negb_true_iff in Hs.
    rewrite Hs, Hh. split; [by intros [A' ?]|by intros [? _]]. }
  destruct (create_links_unfold A fmat basis ps b_0 a_0 Hpre Hb0 Ha0 Hf Hc)
    as (ms & luts & Hms & Hlen & Htab & ->).
  set (dd := if savelinks ps then _ else _) in *.
  assert (Hdd : length dd ≤ 8) by apply dirdisps_length.
  destruct (decide (9 ≤ length A)) as [HA|HA].
  - rewrite (basis_loop_written fmat basis ms dd 8 luts A); [|lia|lia|].
    2:{ eapply tables_of_length; [|exact Htab]. lia. }
    simpl.
    set (A1 := links_written fmat basis ms dd 8 luts A).
    assert (HA1 : length A1 = length A) by (unfold A1, links_written; by rewrite length_imap).
    assert (H01 : ∃ a_1, A1 !! 0 = Some a_1 ∧ shape0 a_1 = shape0 a_0).
    { unfold A1. rewrite links_written_lookup, Ha0. simpl. eexists. split; [done|].
      apply fold_written_frame. }
    destruct (savelinks ps) eqn:Hs.
    + destruct H01 as (a_1 & Ha1 & Hshape). split.
      * intros [A' Hcomm].
        assert (Hcount : length A1 = 9).
        { destruct (decide (length A1 = 9)) as [|Hne]; [done|].
          unfold comm_links in Hcomm. rewrite decide_False in Hcomm; [done|].
          simpl. lia. }
        split; [lia|].
        intros Hh. destruct (decide (shape0 a_0 mod 2 = 0)) as [|Hodd]; [done|].
        rewrite Hh in Hcomm.
        rewrite (comm_links_odd A1 [0; 1; 2; 3] a_1) in Hcomm; try done.
        by rewrite Hshape.
      * intros [H9 Heven].
        destruct (comm_links_run A1 [0; 1; 2; 3] (hermitian ps) a_1)
          as (A' & -> & _); [lia|done|done|by rewrite Hshape|].
        by exists A'.
    + simpl in Hpre. rewrite andb_true_r in Hpre.
      split; [done|]. intros _. by eexists.
  - assert (length A < 9) as Hlt by lia.
    destruct basis as [|b bs]; [done|]. injection Hb0 as ->.
    change (enumerate (b_0 :: bs))
      with ((0, b_0) :: imap ((λ n x, (n, x)) ∘ S) bs).
    cbn [for_each].
    destruct (coarsen_vector fmat (b_0 :: bs) ms dd 8 luts A (0, b_0)) as [A1|e] eqn:Hv.
    + apply coarsen_vector_self in Hv. lia.
    + split; [by intros [A' ?]|].
      destruct (savelinks ps); [intros [? _]; lia|intros [_ ?]; lia].
Qed.

End create_links_runs.

Section create_links_results.
Context `{Ar : Arith} `{!Block}.
Import coarse.

Local Abbreviation links := (list (link csite)).

(** X11.  The number of links [create_links] is given, on four-dimensional grids.
    With fewer than nine the first pass of the loop over the basis reads a
    link that is not there and raises [IndexError].  With more than nine and
    [savelinks] set, all the coarsening is done before [comm_links] fails its
    assertion on the count.  With nine or more and [savelinks] off the call
    returns, and the links from index nine on are left as they were. *)
Theorem create_links_link_count (A : links) (fmat : fmatrix)
    (basis : list ffield) (ps : params) (b_0 : ffield) (a_0 : link csite) :
  hermitian ps && negb (savelinks ps) = false →
  basis !! 0 = Some b_0 → A !! 0 = Some a_0 →
  nd (grid_of b_0) = 4 → nd (link_grid a_0) = 4 →
  (length A < 9 → create_links A fmat basis ps = Raise IndexError)
  ∧ (9 < length A → savelinks ps = true →
     create_links A fmat basis ps = Raise (AssertionError assert_link_count))
  ∧ (9 ≤ length A → savelinks ps = false →
     ∃ A', create_links A fmat basis ps = Ok A'
       ∧ length A' = length A
       ∧ ∀ q, 9 ≤ q → A' !! q = A !! q).
Proof.
  intros Hpre Hb0 Ha0 Hf Hc.
  destruct (create_links_unfold A fmat basis ps b_0 a_0 Hpre Hb0 Ha0 Hf Hc)
    as (ms & luts & Hms & Hlen & Htab & ->).
  set (dd := if savelinks ps then _ else _) in *.
  assert (Hdd : length dd ≤ 8) by apply dirdisps_length.
  assert (Hloop : 9 ≤ length A →
    for_each (coarsen_vector fmat basis ms dd 8 luts) (enumerate basis) A
    = Ok (links_written fmat basis ms dd 8 luts A)).
  { intros HA. apply basis_loop_written; [lia|lia|].
    eapply tables_of_length; [|exact Htab]. lia. }
  split_and!.
  - intros HA. destruct basis as [|b bs]; [done|]. injection Hb0 as ->.
    change (enumerate (b_0 :: bs))
      with ((0, b_0) :: imap ((λ n x, (n, x)) ∘ S) bs).
    cbn [for_each].
    destruct (coarsen_vector fmat (b_0 :: bs) ms dd 8 luts A (0, b_0)) as [A1|e] eqn:Hv.
    + apply coarsen_vector_self in Hv. lia.
    + apply coarsen_vector_raise_index in Hv as ->. done.
  - intros HA Hs. rewrite Hloop by lia. simpl. rewrite Hs.
    unfold comm_links. rewrite decide_False; [done|].
    unfold links_written. rewrite length_imap. simpl. lia.
  - intros HA Hs. rewrite Hloop by lia. simpl. rewrite Hs.
    eexists. split; [done|]. split.
    + unfold links_written. by rewrite length_imap.
    + intros q Hq. rewrite links_written_lookup.
      destruct (A !! q) as [a|]; [|done]. simpl. f_equal.
      apply fold_written_other; [|lia]. apply lookup_ge_None_2. lia.
Qed.

(** X13.  What [create_links] computes (on the mask path, without [savelinks], on
    four-dimensional grids).  For the [p]-th pair [(mu, fb)] of directions
    and displacements, with mask [dirmasks[p]], the entry [(j, i)] of the
    link [A[p]] becomes the masked inner product of [basis[j]] with the hop
    [Mdir(basis[i], mu, fb)]; the entry [(j, i)] of the self link [A[8]]
    becomes component [j] of the projection of the block-diagonal part of
    [fmat * basis[i]].  Entries outside the [nbasis × nbasis] block, the
    grids and shapes of the links, and links past the ninth stay as they
    were. *)
Theorem create_links_contents (A : links) (fmat : fmatrix)
    (basis : list ffield) (b_0 : ffield) (a_0 : link csite) :
  basis !! 0 = Some b_0 → A !! 0 = Some a_0 →
  nd (grid_of b_0) = 4 → nd (link_grid a_0) = 4 → 9 ≤ length A →
  ∃ A' ms,
    setup_masks (grid_of b_0) (link_grid a_0) = Ok ms
    ∧ create_links A fmat basis
        {| hermitian := false; savelinks := false; uselut := false |} = Ok A'
    ∧ length A' = length A
    ∧ (∀ p mu fb m a,
         dirdisps_full [0; 1; 2; 3] !! p = Some (mu, fb) →
         dirmasks ms !! p = Some m → A !! p = Some a →
         ∃ a', A' !! p = Some a'
           ∧ link_grid a' = link_grid a ∧ shape0 a' = shape0 a
           ∧ ∀ x j i, entry a' x j i
               = match basis !! j, basis !! i with
                 | Some vl, Some vr =>
                     masked_inner_product m vl (Mdir fmat vr mu fb) x
                 | _, _ => entry a x j i
                 end)
    ∧ (∀ a, A !! 8 = Some a →
         ∃ a', A' !! 8 = Some a'
           ∧ link_grid a' = link_grid a ∧ shape0 a' = shape0 a
           ∧ ∀ x j i, entry a' x j i
               = match basis !! i with
                 | Some vr =>
                     if bool_decide (j < length basis)
                     then project (self_term fmat (blockevenmask ms)
                                     (blockoddmask ms) vr) basis x j
                     else entry a x j i
                 | None => entry a x j i
                 end)
    ∧ (∀ q, 9 ≤ q → A' !! q = A !! q).
Proof.
  intros Hb0 Ha0 Hf Hc HA.
  destruct (create_links_unfold A fmat basis
              {| hermitian := false; savelinks := false; uselut := false |}
              b_0 a_0 eq_refl Hb0 Ha0 Hf Hc)
    as (ms & luts & Hms & Hlen & Htab & ->).
  simpl in Htab. destruct luts as [[dl fl]|]; [by destruct Htab|]. simpl.
  set (dd := dirdisps_full [0; 1; 2; 3]).
  rewrite (basis_loop_written fmat basis ms dd 8 None A); [|done|lia|by rewrite Hlen].
  simpl. eexists _, ms. split_and!; [done|done| | | |].
  - unfold links_written. by rewrite length_imap.
  - intros p mu fb m a Hp Hm Ha. rewrite links_written_lookup, Ha. simpl.
    eexists. split; [done|].
    destruct (fold_written_frame fmat basis ms dd 8 None (enumerate basis) p a)
      as [Hg Hs].
    split_and!; [done|done|]. intros x j i.
    by rewrite (fold_hop_entries fmat basis ms dd 8 p (mu, fb) m a basis x j i Hp Hm).
  - intros a Ha. rewrite links_written_lookup, Ha. simpl.
    eexists. split; [done|].
    destruct (fold_written_frame fmat basis ms dd 8 None (enumerate basis) 8 a)
      as [Hg Hs].
    split_and!; [done|done|]. intros x j i.
    by rewrite (fold_self_entries fmat basis ms dd 8 a basis x j i).
  - intros q Hq. rewrite links_written_lookup.
    destruct (A !! q) as [a|]; [|done]. simpl. f_equal.
    apply fold_written_other; [|lia]. apply lookup_ge_None_2. simpl. lia.
Qed.

Lemma link_written_forward fmat basis ms (c_grid : grid) (u : bool)
    (luts_s luts_f : option (list lut * lut)) ivr (q : nat) (a : link csite) :
  q < 4 ∨ q = 8 → length (dirmasks ms) = 8 →
  tables_of c_grid ms (dirdisps_forward [0; 1; 2; 3]) u luts_s →
  tables_of c_grid ms (dirdisps_full [0; 1; 2; 3]) u luts_f →
  link_written fmat basis ms (dirdisps_forward [0; 1; 2; 3]) 8 luts_s ivr q a
  = link_written fmat basis ms (dirdisps_full [0; 1; 2; 3]) 8 luts_f ivr q a.
Proof.
  intros Hq Hlen Hs Hf. unfold link_written.
  destruct luts_s as [[dl_s fl_s]|], luts_f as [[dl_f fl_f]|]; simpl in Hs, Hf.
  - destruct Hs as (_ & -> & _ & Hs), Hf as (_ & -> & _ & Hf).
    destruct Hq as [Hq| ->]; [|done].
    assert (∃ d, dirdisps_forward [0; 1; 2; 3] !! q = Some d
                 ∧ dirdisps_full [0; 1; 2; 3] !! q = Some d) as (d & Hd1 & Hd2).
    { destruct q as [|[|[|[|]]]]; try lia; by eexists. }
    rewrite Hd1, Hd2. unfold hop_written.
    destruct (Hs q d Hd1) as (m1 & Hm1 & ->).
    destruct (Hf q d Hd2) as (m2 & Hm2 & ->). congruence.
  - destruct Hs as (-> & _). done.
  - destruct Hf as (-> & _). done.
  - destruct Hq as [Hq| ->]; [|done].
    by destruct q as [|[|[|[|]]]]; try lia.
Qed.

(** X14.  [savelinks] only changes where the backward links come from.  With nine
    links on four-dimensional grids (and an even [nbasis] unless [hermitian]
    is set), the call with [savelinks] computes the four forward links and
    the self link exactly as the call without it does, and it takes each
    backward link [A[p + 4]] from the forward link [A[p]] of that full
    computation: conjugate transpose of the link shifted by [-1] in
    direction [p], after the sign flip of the off-diagonal blocks when
    [hermitian] is off. *)
Theorem savelinks_forward_and_self (A : links) (fmat : fmatrix)
    (basis : list ffield) (h u : bool) (b_0 : ffield) (a_0 : link csite) :
  basis !! 0 = Some b_0 → A !! 0 = Some a_0 →
  nd (grid_of b_0) = 4 → nd (link_grid a_0) = 4 → length A = 9 →
  (h = false → shape0 a_0 mod 2 = 0) →
  ∃ A_full A_save,
    create_links A fmat basis
      {| hermitian := false; savelinks := false; uselut := u |} = Ok A_full
    ∧ create_links A fmat basis
        {| hermitian := h; savelinks := true; uselut := u |} = Ok A_save
    ∧ (∀ q, q < 4 ∨ q = 8 → A_save !! q = A_full !! q)
    ∧ ∀ p a_p, p < 4 → A_full !! p = Some a_p →
        A_save !! (p + 4)
        = Some (adj (cshift (signed_copy h (shape0 a_0) a_p) p (-1))).
Proof.
  intros Hb0 Ha0 Hf Hc HA Heven.
  destruct (create_links_unfold A fmat basis
              {| hermitian := false; savelinks := false; uselut := u |}
              b_0 a_0 eq_refl Hb0 Ha0 Hf Hc)
    as (ms & luts_f & Hms & Hlen & Htab_f & ->).
  destruct (create_links_unfold A fmat basis
              {| hermitian := h; savelinks := true; uselut := u |}
              b_0 a_0 ltac:(by destruct h) Hb0 Ha0 Hf Hc)
    as (ms' & luts_s & Hms' & _ & Htab_s & ->).
  rewrite Hms in Hms'. injection Hms' as <-. simpl in Htab_f, Htab_s. simpl.
  rewrite (basis_loop_written fmat basis ms _ 8 luts_f A);
    [|done|lia|eapply tables_of_length; [|exact Htab_f]; by rewrite Hlen].
  rewrite (basis_loop_written fmat basis ms _ 8 luts_s A);
    [|simpl; lia|lia|eapply tables_of_length; [|exact Htab_s]; rewrite Hlen; simpl; lia].
  simpl.
  set (A1_f := links_written fmat basis ms (dirdisps_full [0; 1; 2; 3]) 8 luts_f A).
  set (A1_s := links_written fmat basis ms (dirdisps_forward [0; 1; 2; 3]) 8 luts_s A).
  assert (Hsame : ∀ q, q < 4 ∨ q = 8 → A1_s !! q = A1_f !! q).
  { intros q Hq. unfold A1_s, A1_f. rewrite !links_written_lookup.
    destruct (A !! q) as [a|]; [|done]. simpl. f_equal. f_equal.
    extensionality acc. extensionality ivr.
    by eapply link_written_forward. }
  assert (H01 : ∃ a_1, A1_s !! 0 = Some a_1 ∧ shape0 a_1 = shape0 a_0).
  { unfold A1_s. rewrite links_written_lookup, Ha0. simpl. eexists. split; [done|].
    apply fold_written_frame. }
  destruct H01 as (a_1 & Ha1 & Hshape).
  destruct (comm_links_run A1_s [0; 1; 2; 3] h a_1) as (A' & -> & _ & Hkeep & Hback);
    [unfold A1_s, links_written; by rewrite length_imap|done|done|by rewrite Hshape|].
  exists A1_f, A'. split_and!; [done|done| |].
  - intros q Hq. rewrite (Hkeep q Hq). by apply Hsame.
  - intros p a_p Hp Hap. rewrite <- Hshape. apply Hback.
    + by destruct p as [|[|[|[|]]]]; try lia.
    + rewrite Hsame by lia. done.
Qed.

End create_links_results.

Section create_links_again.
Context `{Ar : Arith} `{!Block}.
Import coarse.

Local Abbreviation links := (list (link csite)).

Section columns.
Variable fmat : fmatrix.
Variable basis : list ffield.
Variable ms : masks.
Variable dd : list (nat * Z).
Variable selflink : nat.
Variable luts : option (list lut * lut).

(** A pass writes one column of the [nbasis] rows, whatever the link held. *)
Lemma link_written_entry (ivr : nat * ffield) (q : nat) (a : link csite)
    (x : csite) (j i : nat) :
  entry (link_written fmat basis ms dd selflink luts ivr q a) x j i
  = match written_value fmat basis ms dd selflink luts q with
    | Some val =>
        if bool_decide (i = ivr.1) && bool_decide (j < length basis)
        then val ivr.2 x j else entry a x j i
    | None => entry a x j i
    end.
Proof.
  unfold link_written, written_value, hop_written, self_written.
  destruct (dd !! q) as [d|].
  - destruct luts as [[dl fl]|].
    + by destruct (dl !! q).
    + destruct (dirmasks ms !! q) as [m|]; [|done].
      rewrite entries_written_entry.
      destruct (basis !! j) as [vl|] eqn:Hj.
      * rewrite (bool_decide_eq_true_2 (j < length basis))
          by (by eapply lookup_lt_Some).
        by rewrite andb_true_r.
      * rewrite (bool_decide_eq_false_2 (j < length basis));
          [by rewrite andb_false_r|].
        apply lookup_ge_None in Hj. lia.
  - case_decide; done.
Qed.

Lemma fold_written_entry (q : nat) (a : link csite) (bs : list ffield)
    (x : csite) (j i : nat) :
  entry (foldl (λ acc ivr, link_written fmat basis ms dd selflink luts ivr q acc)
               a (enumerate bs)) x j i
  = match written_value fmat basis ms dd selflink luts q, bs !! i with
    | Some val, Some vr =>
        if bool_decide (j < length basis) then val vr x j else entry a x j i
    | _, _ => entry a x j i
    end.
Proof.
  induction bs as [|vr bs IH] using rev_ind.
  - simpl. by destruct (written_value _ _ _ _ _ _ _).
  - rewrite enumerate_snoc, foldl_snoc, link_written_entry, IH. simpl.
    destruct (written_value _ _ _ _ _ _ _) as [val|]; [|done].
    destruct (decide (i = length bs)) as [->|Hi].
    + rewrite bool_decide_eq_true_2 by done. simpl.
      rewrite list_lookup_middle by done.
      rewrite (lookup_ge_None_2 bs (length bs)) by lia. done.
    + rewrite (bool_decide_eq_false_2 (i = length bs)) by done. simpl.
      destruct (decide (i < length bs)) as [Hlt|Hge].
      * by rewrite lookup_app_l.
      * rewrite (lookup_ge_None_2 bs i) by lia.
        rewrite (lookup_ge_None_2 (bs ++ [vr]) i); [done|].
        rewrite length_app. simpl. lia.
Qed.

(** Running the passes on links they have already written changes nothing. *)
Lemma fold_written_twice (q : nat) (a : link csite) :
  let f := foldl (λ acc ivr, link_written fmat basis ms dd selflink luts ivr q acc) in
  f (f a (enumerate basis)) (enumerate basis) = f a (enumerate basis).
Proof.
  intros f. unfold f.
  destruct (fold_written_frame fmat basis ms dd selflink luts (enumerate basis) q
              (foldl (λ acc ivr, link_written fmat basis ms dd selflink luts ivr q acc)
                     a (enumerate basis))) as [Hg Hs].
  apply link_eq; [done|done|]. intros x j i.
  rewrite !fold_written_entry.
  destruct (written_value _ _ _ _ _ _ _) as [val|]; [|done].
  destruct (basis !! i); [|done]. by case_bool_decide.
Qed.

Lemma links_written_twice (A : links) :
  links_written fmat basis ms dd selflink luts
    (links_written fmat basis ms dd selflink luts A)
  = links_written fmat basis ms dd selflink luts A.
Proof.
  apply list_eq. intros q. rewrite !links_written_lookup.
  destruct (A !! q) as [a|]; [|done]. simpl. f_equal. apply fold_written_twice.
Qed.

End columns.

(** The tables of two calls on the same grids write the same links. *)
Lemma links_written_tables fmat basis ms (c_grid : grid) (dd : list (nat * Z))
    (selflink : nat) (u : bool) (luts1 luts2 : option (list lut * lut)) (A : links) :
  tables_of c_grid ms dd u luts1 → tables_of c_grid ms dd u luts2 →
  links_written fmat basis ms dd selflink luts1 A
  = links_written fmat basis ms dd selflink luts2 A.
Proof.
  intros H1 H2. apply list_eq. intros q. rewrite !links_written_lookup.
  destruct (A !! q) as [a|]; [|done]. simpl. f_equal. f_equal.
  extensionality acc. extensionality ivr. unfold link_written.
  destruct luts1 as [[dl1 fl1]|], luts2 as [[dl2 fl2]|]; simpl in H1, H2.
  - destruct H1 as (_ & -> & _ & H1), H2 as (_ & -> & _ & H2).
    destruct (dd !! q) as [d|] eqn:Hd; [|done]. unfold hop_written.
    destruct (H1 q d Hd) as (m1 & Hm1 & ->).
    destruct (H2 q d Hd) as (m2 & Hm2 & ->). congruence.
  - destruct H1 as (-> & _). done.
  - destruct H2 as (-> & _). done.
  - done.
Qed.

(** X15.  [create_links] can be run again on its own result: a call that returned
    links [A'] returns the same [A'] when it is given [A'] (same operator,
    basis and parameters, four-dimensional grids).  What the links held
    before does not enter the entries the loop writes. *)
Theorem create_links_idempotent (A A' : links) (fmat : fmatrix)
    (basis : list ffield) (ps : params) (b_0 : ffield) (a_0 : link csite) :
  basis !! 0 = Some b_0 → A !! 0 = Some a_0 →
  nd (grid_of b_0) = 4 → nd (link_grid a_0) = 4 →
  create_links A fmat basis ps = Ok A' →
  create_links A' fmat basis ps = Ok A'.
Proof.
  intros Hb0 Ha0 Hf Hc Hrun.
  destruct (hermitian ps && negb (savelinks ps)) eqn:Hpre.
  { unfold create_links in Hrun. by rewrite Hpre in Hrun. }
  destruct (create_links_unfold A fmat basis ps b_0 a_0 Hpre Hb0 Ha0 Hf Hc)
    as (ms & luts & Hms & Hlen & Htab & Hcall).
  rewrite Hcall in Hrun. clear Hcall.
  set (dd := if savelinks ps then _ else _) in *.
  assert (Hdd : length dd ≤ 8) by apply dirdisps_length.
  assert (HA : 9 ≤ length A).
  { destruct (decide (9 ≤ length A)) as [|Hn]; [done|]. exfalso.
    destruct basis as [|b bs]; [done|].
    change (enumerate (b :: bs))
      with ((0, b) :: imap ((λ n x, (n, x)) ∘ S) bs) in Hrun.
    cbn [for_each] in Hrun.
    destruct (coarsen_vector fmat (b :: bs) ms dd 8 luts A (0, b)) as [A1|e] eqn:Hv;
      [|done].
    apply coarsen_vector_self in Hv. lia. }
  assert (Hloop : ∀ B luts', length B = length A →
    tables_of (link_grid a_0) ms dd (uselut ps) luts' →
    for_each (coarsen_vector fmat basis ms dd 8 luts') (enumerate basis) B
    = Ok (links_written fmat basis ms dd 8 luts B)).
  { intros B luts' HB Htab'. rewrite basis_loop_written; [|lia|lia|].
    - f_equal. by eapply links_written_tables.
    - eapply tables_of_length; [|exact Htab']. lia. }
  rewrite (Hloop A luts eq_refl Htab) in Hrun. simpl in Hrun.
  set (A1 := links_written fmat basis ms dd 8 luts A) in *.
  assert (HA1 : length A1 = length A)
    by (unfold A1, links_written; by rewrite length_imap).
  assert (H01 : ∃ a_1, A1 !! 0 = Some a_1 ∧ link_grid a_1 = link_grid a_0
                       ∧ shape0 a_1 = shape0 a_0).
  { unfold A1. rewrite links_written_lookup, Ha0. simpl. eexists. split; [done|].
    apply fold_written_frame. }
  destruct H01 as (a_1 & Ha1 & Hgrid & Hshape).
  assert (Hagain : links_written fmat basis ms dd 8 luts A1 = A1)
    by apply links_written_twice.
  assert (Hs : savelinks ps = true ∨ savelinks ps = false)
    by (destruct (savelinks ps); auto).
  destruct Hs as [Hs|Hs]; rewrite Hs in Hrun.
  - (* the forward links and comm_links *)
    assert (H9 : length A1 = 9).
    { destruct (decide (length A1 = 9)) as [|Hne]; [done|].
      unfold comm_links in Hrun. rewrite decide_False in Hrun; [done|]. simpl. lia. }
    assert (Heven : hermitian ps = false → shape0 a_1 mod 2 = 0).
    { intros Hh. destruct (decide (shape0 a_1 mod 2 = 0)) as [|Hodd]; [done|].
      rewrite Hh in Hrun.
      rewrite (comm_links_odd A1 [0; 1; 2; 3] a_1) in Hrun; done. }
    destruct (comm_links_run A1 [0; 1; 2; 3] (hermitian ps) a_1 H9 eq_refl Ha1 Heven)
      as (A2 & HA2 & HA2len & Hkeep & Hback).
    rewrite HA2 in Hrun. injection Hrun as <-.
    assert (Ha2 : A2 !! 0 = Some a_1) by (rewrite Hkeep by lia; done).
    destruct (create_links_unfold A2 fmat basis ps b_0 a_1 Hpre Hb0 Ha2 Hf
                ltac:(by rewrite Hgrid))
      as (ms' & luts' & Hms' & _ & Htab' & ->).
    rewrite Hgrid, Hms in Hms'. injection Hms' as <-.
    fold dd. fold dd in Htab'. rewrite Hgrid in Htab'.
    rewrite (Hloop A2 luts' ltac:(lia) Htab'). simpl. rewrite Hs.
    assert (Hfix : links_written fmat basis ms dd 8 luts A2 = A2).
    { apply list_eq. intros q. rewrite links_written_lookup.
      destruct (decide (q < 4 ∨ q = 8)) as [Hq|Hq].
      - rewrite (Hkeep q Hq). rewrite <- Hagain at 2.
        by rewrite links_written_lookup.
      - destruct (A2 !! q) as [a|]; [|done]. simpl. f_equal.
        apply fold_written_other; [|lia].
        apply lookup_ge_None_2. unfold dd. rewrite Hs. simpl. lia. }
    rewrite Hfix.
    destruct (comm_links_run A2 [0; 1; 2; 3] (hermitian ps) a_1 HA2len eq_refl Ha2 Heven)
      as (A3 & -> & HA3len & Hkeep3 & Hback3).
    f_equal. apply list_eq. intros q.
    destruct (decide (q < 4 ∨ q = 8)) as [Hq|Hq]; [by apply Hkeep3|].
    destruct (decide (q < 9)) as [Hq9|Hq9].
    + assert (∃ p, p < 4 ∧ q = p + 4) as (p & Hp & ->) by (exists (q - 4); lia).
      destruct (lookup_lt_is_Some_2 A1 p) as [a_p Hap]; [lia|].
      rewrite (Hback p p a_p); [|by destruct p as [|[|[|[|]]]]; try lia|done].
      apply (Hback3 p p a_p); [by destruct p as [|[|[|[|]]]]; try lia|].
      rewrite Hkeep by lia. done.
    + rewrite !lookup_ge_None_2 by lia. done.
  - injection Hrun as <-.
    destruct (create_links_unfold A1 fmat basis ps b_0 a_1 Hpre Hb0 Ha1 Hf
                ltac:(by rewrite Hgrid))
      as (ms' & luts' & Hms' & _ & Htab' & ->).
    rewrite Hgrid, Hms in Hms'. injection Hms' as <-.
    fold dd. fold dd in Htab'. rewrite Hgrid in Htab'.
    rewrite (Hloop A1 luts' HA1 Htab'). simpl. by rewrite Hs, Hagain.
Qed.

End create_links_again.

Section link_edges.
Context `{Ar : Arith} `{!Block}.
Import coarse.

Local Abbreviation links := (list (link csite)).

Lemma dirs_not_5d (g : grid) : nd g ≠ 5 → dirs g = [0; 1; 2; 3].
Proof. intros Hg. unfold dirs. by rewrite decide_False. Qed.

(** X19.  The dimensions the mask construction of [create_links] accepts (no
    grid having a single dimension, which numpy would broadcast).  Grids of
    different dimensions raise [ValueError] when the block extents are
    divided.  Grids of fewer than four dimensions raise [IndexError] at the
    column [mu] of the coordinates that is not there, and grids of five
    dimensions raise it at [dirmasks[mu + 4]] for [mu = 4].  With four
    dimensions, or six and more, the eight masks are built. *)
Theorem mask_construction_dimensions (f_grid c_grid : grid) :
  nd f_grid ≠ 1 → nd c_grid ≠ 1 →
  (nd f_grid ≠ nd c_grid → setup_masks f_grid c_grid = Raise ValueError)
  ∧ (nd f_grid = nd c_grid → nd f_grid < 4 ∨ nd f_grid = 5 →
     setup_masks f_grid c_grid = Raise IndexError)
  ∧ (nd f_grid = nd c_grid → 4 ≤ nd f_grid → nd f_grid ≠ 5 →
     ∃ ms, setup_masks f_grid c_grid = Ok ms ∧ length (dirmasks ms) = 8).
Proof.
  intros Hf1 Hc1. split_and!.
  - intros Hne. unfold setup_masks, block_size. by rewrite decide_False.
  - intros Heq [Hlt|H5]; [|apply setup_masks_5d; congruence].
    assert (Hc : nd c_grid = nd f_grid) by done.
    destruct (decide (nd f_grid = 0)) as [H0|H0];
      [|destruct (decide (nd f_grid = 2)) as [H2|H2];
        [|assert (nd f_grid = 3) as H3 by lia]];
      unfold setup_masks, block_size, dirs; rewrite Hc;
      [rewrite H0|rewrite H2|rewrite H3]; simpl; unfold column; by simpl.
  - intros Heq H4 H5. unfold setup_masks, block_size.
    rewrite decide_True by done. simpl. rewrite (dirs_not_5d _ H5).
    set (block := zip_with Z.div _ _).
    destruct (for_each_total
      (fill_dirmasks (nd f_grid) (forward_edge block <$> coordinates f_grid)
         (backward_edge block <$> coordinates f_grid))
      (λ s, length s = 8) [0; 1; 2; 3]) with (replicate 8 (fresh_mask f_grid))
      as (dm & Hdm & Hlen); [|done|].
    + intros s mu Hmu Hs.
      assert (mu < 4) as Hmu4.
      { apply list_elem_of_lookup_1 in Hmu as [j Hj].
        destruct j as [|[|[|[|]]]]; simpl in Hj; try done;
          injection Hj as <-; lia. }
      unfold fill_dirmasks.
      destruct (getitem_lt s mu) as (m & _ & ->); [lia|]. simpl.
      unfold column. rewrite !decide_True by lia. simpl.
      destruct (getitem_lt (<[mu:=make_mask m
          ((λ row, default false (row !! mu))
             <$> (forward_edge block <$> coordinates f_grid))]> s) (mu + 4))
        as (m' & _ & ->); [rewrite length_insert; lia|]. simpl.
      eexists. split; [done|]. by rewrite !length_insert.
    + change (nhops [0; 1; 2; 3]) with 8. rewrite Hdm. simpl.
      by eexists.
Qed.

(** X20.  [comm_links] writes backward links only.  Whatever the number of
    forward directions, a call that returns has kept the number of links,
    the links [A[0 .. 3]] and every link from index [len(dirdisps_forward) + 4]
    on: pass [p] writes [A[p + 4]] and nothing else. *)
Theorem comm_links_writes_backward_only (A A' : links) (dd : list (nat * Z))
    (h : bool) :
  comm_links A dd h = Ok A' →
  length A' = length A
  ∧ ∀ q, q < 4 ∨ length dd + 4 ≤ q → A' !! q = A !! q.
Proof.
  unfold comm_links. case_decide as Hcount; [|done]. intros Hloop.
  eapply (for_each_invariant_in (comm_link h)
            (λ s, length s = length A
                  ∧ ∀ q, q < 4 ∨ length dd + 4 ≤ q → s !! q = A !! q));
    [|exact Hloop|done].
  intros s [p [mu fb]] s' Hin Hs [Hlen Hkeep].
  apply enumerate_elem, lookup_lt_Some in Hin.
  revert Hs. unfold comm_link.
  destruct (getitem s p) as [a_p|]; simpl; [|done].
  destruct (if h then _ else _) as [Atmp|]; simpl; [|done].
  destruct (getitem s (p + 4)); simpl; [|done].
  intros [= <-]. split; [by rewrite length_insert|].
  intros q Hq. rewrite list_lookup_insert_ne by lia. by apply Hkeep.
Qed.

End link_edges.

(** *** Runs of the solver *)

Section solver_more_runs.
#[local] Existing Instance toy.gauss_arith.
#[local] Existing Instance toy.vec_lattice.

(** A source on the first coordinate: the first pass solves the system. *)
Example inv_converges_run :
  (res ← runs.inv 3 runs.zero2 [(1, 0)%Z; (0, 0)%Z];
   Ok (res.1, fgcr.psi res.2, fgcr.history res.2))
  = Ok (fgcr.Converged, [(1, 0)%Z; (0, 0)%Z], [0%Z]).
Proof. vm_compute. reflexivity. Qed.

Lemma inv_keeps_extents_witness :
  ∃ st, runs.inv 3 runs.zero2 runs.ones2 = Ok (fgcr.Breakdown, st)
    ∧ shaped 3 st.
Proof.
  evar (st : @fgcr.state toy.gauss_arith toy.vec).
  exists st.
  assert (Hinv : runs.inv 3 runs.zero2 runs.ones2 = Ok (fgcr.Breakdown, st))
    by (cbv; reflexivity).
  split; [exact Hinv|].
  exact (inv_keeps_extents (runs.solver 3) runs.first_coordinate false
           runs.zero2 runs.ones2 fgcr.Breakdown st Hinv).
Defined.

Lemma inv_stop_reasons_witness :
  ∃ st, runs.inv 3 runs.zero2 [(1, 0)%Z; (0, 0)%Z] = Ok (fgcr.Converged, st)
    ∧ 0 < length (fgcr.history st) ≤ fgcr.maxiter (runs.solver 3).
Proof.
  evar (st : @fgcr.state toy.gauss_arith toy.vec).
  exists st.
  assert (Hinv : runs.inv 3 runs.zero2 [(1, 0)%Z; (0, 0)%Z] = Ok (fgcr.Converged, st))
    by (cbv; reflexivity).
  split; [exact Hinv|].
  destruct (inv_stop_reasons (runs.solver 3) runs.first_coordinate false
              runs.zero2 [(1, 0)%Z; (0, 0)%Z] fgcr.Converged st Hinv)
    as (st0 & tg & _ & Hlen & _).
  exact Hlen.
Defined.

Lemma update_psi_out_of_range_witness :
  shaped 3 runs.cycle_state ∧ 3 ≤ 3
  ∧ runs.update_psi runs.cycle_state 3 = Raise IndexError.
Proof.
  split_and!; [exact cycle_state_shaped|lia|].
  exact (update_psi_out_of_range 3 3 runs.cycle_state cycle_state_shaped
           ltac:(lia)).
Defined.

Lemma cycle_starts_from_true_residual_witness :
  ∃ st0 tg stc,
    runs.setup 1 runs.zero2 runs.ones2 = Ok (st0, tg)
    ∧ runs.state_at 1 tg runs.ones2 st0 1 = Some stc
    ∧ 1 mod fgcr.rlen (runs.solver 1) = 0
    ∧ fgcr.mmpsi stc = runs.first_coordinate (fgcr.psi stc).
Proof.
  evar (st0 : @fgcr.state toy.gauss_arith toy.vec).
  evar (tg : @fgcr.target toy.gauss_arith).
  evar (stc : @fgcr.state toy.gauss_arith toy.vec).
  exists st0, tg, stc.
  assert (Hsetup : runs.setup 1 runs.zero2 runs.ones2 = Ok (st0, tg))
    by (cbv; reflexivity).
  assert (Hc : runs.state_at 1 tg runs.ones2 st0 1 = Some stc)
    by (cbv; reflexivity).
  assert (Hk : 1 mod fgcr.rlen (runs.solver 1) = 0) by reflexivity.
  split_and!; [exact Hsetup|exact Hc|exact Hk|].
  destruct (cycle_starts_from_true_residual (runs.solver 1) runs.first_coordinate
              false runs.zero2 runs.ones2 st0 tg 1 stc Hsetup Hc Hk)
    as (Hmm & _).
  exact Hmm.
Defined.

Lemma pass_writes_slot_witness :
  ∃ st0 tg st',
    runs.setup 3 runs.zero2 runs.ones2 = Ok (st0, tg)
    ∧ @fgcr.iteration toy.gauss_arith toy.vec toy.vec_lattice (runs.solver 3)
        runs.first_coordinate false tg runs.ones2 0 st0 = Ok (fgcr.Continue st')
    ∧ 0 mod fgcr.rlen (runs.solver 3) + 1 ≠ fgcr.rlen (runs.solver 3)
    ∧ fgcr.psi st' = fgcr.psi st0
    ∧ fgcr.p st' !! 1 = fgcr.p st0 !! 1.
Proof.
  evar (st0 : @fgcr.state toy.gauss_arith toy.vec).
  evar (tg : @fgcr.target toy.gauss_arith).
  evar (st' : @fgcr.state toy.gauss_arith toy.vec).
  exists st0, tg, st'.
  assert (Hsetup : runs.setup 3 runs.zero2 runs.ones2 = Ok (st0, tg))
    by (cbv; reflexivity).
  assert (Hit : @fgcr.iteration toy.gauss_arith toy.vec toy.vec_lattice
                  (runs.solver 3) runs.first_coordinate false tg runs.ones2 0 st0
                = Ok (fgcr.Continue st'))
    by (cbv; reflexivity).
  assert (Hne : 0 mod fgcr.rlen (runs.solver 3) + 1 ≠ fgcr.rlen (runs.solver 3))
    by (simpl; lia).
  split_and!; [exact Hsetup|exact Hit|exact Hne| |].
  - exact (proj1 (pass_writes_slot (runs.solver 3) runs.first_coordinate false
                    tg runs.ones2 0 st0 st' Hit Hne)).
  - destruct (pass_writes_slot (runs.solver 3) runs.first_coordinate false
                tg runs.ones2 0 st0 st' Hit Hne) as (_ & _ & _ & Hslots).
    exact (proj1 (Hslots 1 ltac:(simpl; lia))).
Defined.

End solver_more_runs.

(** *** Runs of the link builder *)

Section link_more_runs.
#[local] Existing Instance toy.gauss_arith.
#[local] Existing Instance toy.ring_block.
Import blocks.



Lemma create_links_empty_input_witness :
  coarse.hermitian (params_of false false true)
    && negb (coarse.savelinks (params_of false false true)) = false
  ∧ (([] : list (grid * toy.vec)) = [] ∨ links_of coarse4 2 = [])
  ∧ create_links (links_of coarse4 2) (2, 1)%Z [] (params_of false false true)
    = Raise IndexError.
Proof.
  split_and!; [reflexivity|by left|].
  exact (@create_links_empty_input toy.gauss_arith toy.ring_block
           (links_of coarse4 2) (2, 1)%Z [] (params_of false false true)
           eq_refl (or_introl eq_refl)).
Defined.

Lemma create_links_returns_witness :
  basis_of fine4 2 !! 0 = Some (ramp fine4 1)
  ∧ links_of coarse4 2 !! 0 = Some (link0 coarse4 2 0)
  ∧ nd (grid_of (ramp fine4 1)) = 4 ∧ nd (link_grid (link0 coarse4 2 0)) = 4
  ∧ ∃ A', create_links (links_of coarse4 2) (2, 1)%Z (basis_of fine4 2)
            (params_of false true true) = Ok A'.
Proof.
  split_and!; [reflexivity|reflexivity|reflexivity|reflexivity|].
  apply (@create_links_returns toy.gauss_arith toy.ring_block
           (links_of coarse4 2) (2, 1)%Z (basis_of fine4 2)
           (params_of false true true) (ramp fine4 1) (link0 coarse4 2 0)
           eq_refl eq_refl eq_refl eq_refl).
  split; [reflexivity|]. intros _. reflexivity.
Defined.

Lemma create_links_link_count_witness :
  coarse.hermitian (params_of false true true)
    && negb (coarse.savelinks (params_of false true true)) = false
  ∧ basis_of fine4 2 !! 0 = Some (ramp fine4 1)
  ∧ take 5 (links_of coarse4 2) !! 0 = Some (link0 coarse4 2 0)
  ∧ nd (grid_of (ramp fine4 1)) = 4 ∧ nd (link_grid (link0 coarse4 2 0)) = 4
  ∧ create_links (take 5 (links_of coarse4 2)) (2, 1)%Z (basis_of fine4 2)
      (params_of false true true) = Raise IndexError.
Proof.
  split_and!; [reflexivity|reflexivity|reflexivity|reflexivity|reflexivity|].
  apply (@create_links_link_count toy.gauss_arith toy.ring_block
           (take 5 (links_of coarse4 2)) (2, 1)%Z (basis_of fine4 2)
           (params_of false true true) (ramp fine4 1) (link0 coarse4 2 0)
           eq_refl eq_refl eq_refl eq_refl eq_refl).
  simpl. lia.
Defined.

Lemma create_links_contents_witness :
  basis_of fine4 2 !! 0 = Some (ramp fine4 1)
  ∧ links_of coarse4 2 !! 0 = Some (link0 coarse4 2 0)
  ∧ nd (grid_of (ramp fine4 1)) = 4 ∧ nd (link_grid (link0 coarse4 2 0)) = 4
  ∧ 9 ≤ length (links_of coarse4 2)
  ∧ ∃ A', create_links (links_of coarse4 2) (2, 1)%Z (basis_of fine4 2)
            (params_of false false false) = Ok A'
          ∧ length A' = length (links_of coarse4 2).
Proof.
  assert (H9 : 9 ≤ length (links_of coarse4 2)) by (simpl; lia).
  split_and!; [reflexivity|reflexivity|reflexivity|reflexivity|exact H9|].
  destruct (@create_links_contents toy.gauss_arith toy.ring_block
              (links_of coarse4 2) (2, 1)%Z (basis_of fine4 2)
              (ramp fine4 1) (link0 coarse4 2 0)
              eq_refl eq_refl eq_refl eq_refl H9)
    as (A' & ms & _ & Hrun & Hlen & _).
  exists A'. split; [exact Hrun|exact Hlen].
Defined.

Lemma savelinks_forward_and_self_witness :
  basis_of fine4 2 !! 0 = Some (ramp fine4 1)
  ∧ links_of coarse4 2 !! 0 = Some (link0 coarse4 2 0)
  ∧ nd (grid_of (ramp fine4 1)) = 4 ∧ nd (link_grid (link0 coarse4 2 0)) = 4
  ∧ length (links_of coarse4 2) = 9
  ∧ (false = false → shape0 (link0 coarse4 2 0) mod 2 = 0)
  ∧ ∃ A_full A_save,
      create_links (links_of coarse4 2) (2, 1)%Z (basis_of fine4 2)
        (params_of false false true) = Ok A_full
      ∧ create_links (links_of coarse4 2) (2, 1)%Z (basis_of fine4 2)
          (params_of false true true) = Ok A_save
      ∧ A_save !! 0 = A_full !! 0.
Proof.
  assert (Heven : false = false → shape0 (link0 coarse4 2 0) mod 2 = 0)
    by (intros _; reflexivity).
  split_and!; [reflexivity|reflexivity|reflexivity|reflexivity|reflexivity|exact Heven|].
  destruct (@savelinks_forward_and_self toy.gauss_arith toy.ring_block
              (links_of coarse4 2) (2, 1)%Z (basis_of fine4 2) false true
              (ramp fine4 1) (link0 coarse4 2 0)
              eq_refl eq_refl eq_refl eq_refl eq_refl Heven)
    as (A_full & A_save & Hfull & Hsave & Hsame & _).
  exists A_full, A_save. split_and!; [exact Hfull|exact Hsave|].
  apply Hsame. left. lia.
Defined.

Lemma create_links_idempotent_witness :
  basis_of fine4 2 !! 0 = Some (ramp fine4 1)
  ∧ links_of coarse4 2 !! 0 = Some (link0 coarse4 2 0)
  ∧ nd (grid_of (ramp fine4 1)) = 4 ∧ nd (link_grid (link0 coarse4 2 0)) = 4
  ∧ ∃ A', create_links (links_of coarse4 2) (2, 1)%Z (basis_of fine4 2)
            (params_of false true true) = Ok A'
          ∧ create_links A' (2, 1)%Z (basis_of fine4 2)
              (params_of false true true) = Ok A'.
Proof.
  split_and!; [reflexivity|reflexivity|reflexivity|reflexivity|].
  destruct (create_links (links_of coarse4 2) (2, 1)%Z (basis_of fine4 2)
              (params_of false true true)) as [A'|e] eqn:Hrun.
  - exists A'. split; [reflexivity|].
    exact (@create_links_idempotent toy.gauss_arith toy.ring_block
             (links_of coarse4 2) A' (2, 1)%Z (basis_of fine4 2)
             (params_of false true true) (ramp fine4 1) (link0 coarse4 2 0)
             eq_refl eq_refl eq_refl eq_refl Hrun).
  - exfalso.
    destruct (@create_links_reaches_comm toy.gauss_arith toy.ring_block
                (links_of coarse4 2) (2, 1)%Z (basis_of fine4 2)
                (params_of false true true) (ramp fine4 1) (link0 coarse4 2 0)
                eq_refl eq_refl eq_refl eq_refl eq_refl eq_refl)
      as (A1 & Hshapes & Hcall).
    assert (H9 : length A1 = 9)
      by (rewrite <- (length_fmap shape0 A1), Hshapes; reflexivity).
    destruct (lookup_lt_is_Some_2 A1 0) as [a_1 Ha1]; [lia|].
    assert (Hs1 : shape0 a_1 = 2).
    { assert ((shape0 <$> A1) !! 0 = Some 2) as H0 by (rewrite Hshapes; reflexivity).
      rewrite list_lookup_fmap, Ha1 in H0. by injection H0. }
    destruct (@comm_links_run toy.gauss_arith toy.ring_block A1 [0; 1; 2; 3] false
                a_1 H9 eq_refl Ha1 ltac:(intros _; by rewrite Hs1))
      as (A' & HA' & _).
    change (create_links (links_of coarse4 2) (2, 1)%Z (basis_of fine4 2)
              (params_of false true true)
            = @coarse.comm_links toy.gauss_arith toy.ring_block A1
                (coarse.dirdisps_forward [0; 1; 2; 3]) false) in Hcall.
    rewrite Hcall, HA' in Hrun. discriminate.
Defined.

End link_more_runs.

Section solver_solution_runs.
#[local] Existing Instance toy.gauss_arith.
#[local] Existing Instance toy.vec_lattice.

Lemma inv_returns_combination_witness :
  ∃ st, runs.inv 3 runs.zero2 [(1, 0)%Z; (0, 0)%Z] = Ok (fgcr.Converged, st)
    ∧ (fgcr.Converged = fgcr.Converged ∨ fgcr.Converged = fgcr.NotConverged)
    ∧ ∃ k, length (fgcr.history st) = k + 1.
Proof.
  evar (st : @fgcr.state toy.gauss_arith toy.vec).
  exists st.
  assert (Hinv : runs.inv 3 runs.zero2 [(1, 0)%Z; (0, 0)%Z] = Ok (fgcr.Converged, st))
    by (cbv; reflexivity).
  split_and!; [exact Hinv|by left|].
  destruct (inv_returns_combination (runs.solver 3) runs.first_coordinate false
              runs.zero2 [(1, 0)%Z; (0, 0)%Z] fgcr.Converged st Hinv
              (or_introl eq_refl))
    as (st0 & tg & k & stc & _ & Hlen & _).
  by exists k.
Defined.

Lemma history_only_grows_witness :
  ∃ st0 tg st st_f,
    runs.setup 3 runs.zero2 runs.ones2 = Ok (st0, tg)
    ∧ runs.state_at 3 tg runs.ones2 st0 1 = Some st
    ∧ 1 ≤ fgcr.maxiter (runs.solver 3)
    ∧ runs.inv 3 runs.zero2 runs.ones2 = Ok (fgcr.Breakdown, st_f)
    ∧ fgcr.history st = take 1 (fgcr.history st_f).
Proof.
  evar (st0 : @fgcr.state toy.gauss_arith toy.vec).
  evar (tg : @fgcr.target toy.gauss_arith).
  evar (st : @fgcr.state toy.gauss_arith toy.vec).
  evar (st_f : @fgcr.state toy.gauss_arith toy.vec).
  exists st0, tg, st, st_f.
  assert (Hsetup : runs.setup 3 runs.zero2 runs.ones2 = Ok (st0, tg))
    by (cbv; reflexivity).
  assert (Hat : runs.state_at 3 tg runs.ones2 st0 1 = Some st)
    by (cbv; reflexivity).
  assert (Hmax : 1 ≤ fgcr.maxiter (runs.solver 3)) by (simpl; lia).
  assert (Hinv : runs.inv 3 runs.zero2 runs.ones2 = Ok (fgcr.Breakdown, st_f))
    by (cbv; reflexivity).
  split_and!; [exact Hsetup|exact Hat|exact Hmax|exact Hinv|].
  exact (history_only_grows (runs.solver 3) runs.first_coordinate false
           runs.zero2 runs.ones2 st0 tg 1 st fgcr.Breakdown st_f
           Hsetup Hat Hmax Hinv).
Defined.

End solver_solution_runs.

Section link_edge_runs.
#[local] Existing Instance toy.gauss_arith.
#[local] Existing Instance toy.ring_block.
Import blocks.

Lemma mask_construction_dimensions_witness :
  nd fine5 ≠ 1 ∧ nd coarse5 ≠ 1
  ∧ setup_masks fine5 coarse5 = Raise IndexError.
Proof.
  assert (Hf : nd fine5 ≠ 1) by (vm_compute; lia).
  assert (Hc : nd coarse5 ≠ 1) by (vm_compute; lia).
  split_and!; [exact Hf|exact Hc|].
  destruct (@mask_construction_dimensions toy.gauss_arith toy.ring_block
              fine5 coarse5 Hf Hc) as (_ & Hlow & _).
  apply Hlow; [reflexivity|right; reflexivity].
Defined.

Lemma comm_links_writes_backward_only_witness :
  ∃ A', comm_links (links_of coarse4 2)
          (coarse.dirdisps_forward [0; 1; 2; 3]) false = Ok A'
        ∧ length A' = length (links_of coarse4 2)
        ∧ A' !! 0 = links_of coarse4 2 !! 0.
Proof.
  destruct (comm_links (links_of coarse4 2)
              (coarse.dirdisps_forward [0; 1; 2; 3]) false) as [A'|e] eqn:Hrun.
  - exists A'. split; [reflexivity|].
    destruct (@comm_links_writes_backward_only toy.gauss_arith toy.ring_block
                (links_of coarse4 2) A' (coarse.dirdisps_forward [0; 1; 2; 3])
                false Hrun) as [Hlen Hkeep].
    split; [exact Hlen|]. apply (Hkeep 0). left. lia.
  - exfalso.
    destruct (@comm_links_run toy.gauss_arith toy.ring_block
                (links_of coarse4 2) [0; 1; 2; 3] false (link0 coarse4 2 0)
                eq_refl eq_refl eq_refl ltac:(intros _; reflexivity))
      as (A' & HA' & _).
    unfold comm_links in Hrun. rewrite HA' in Hrun. discriminate.
Defined.

End link_edge_runs.
